(** * myCache: LRU engine, append-only log, shard, group and single flight

    A shallow embedding of the Go sources (packages [lru], [persistence],
    [singleflight] and [mycache]) and the properties checked against
    them.  Go values are modelled as follows:

    - [int64], [uint32], [uint64] are [Z] with the wrap-around written out;
    - [[]byte] is [list byte]; Go strings are [string], and the conversions
      [string(b)] and [[]byte(s)] are the Standard Library's
      [string_of_list_byte] and [list_byte_of_string];
    - maps ([map[string]T], [sync.Map]) are [gmap string T];
    - a Go [error] is a value of type [error]; a function returning
      [(T, error)] returns [res T], one returning [error] returns
      [option error];
    - a run-time panic is the [Panic] outcome of [exec];
    - the disk is a [gmap string (list byte)] from paths to file contents;
    - objects that Go reaches through pointers are passed to a function and
      returned by it; heaps are written out where two pointers can reach
      one object (the elements of the LRU list, the calls of a single
      flight);
    - locks are left out of the sequential functions: every function runs
      alone there.  The single flight has a second model, a transition
      system over all interleavings of its callers;
    - the clock is an argument [now] of the functions that read it, and
      logging is left out. *)

From Stdlib Require Import ZArith Lia List Strings.Byte.
From stdpp Require Import base tactics option list gmap strings pretty fin_maps.

#[local] Open Scope Z_scope.

(** ** Outcomes: errors and panics *)

Inductive error : Type :=
  | io_EOF                                   (* io.EOF *)
  | os_ErrClosed                             (* use of a closed file *)
  | os_ErrInvalid                            (* negative offset *)
  | os_ErrNotExist                           (* no file behind the name *)
  | os_ErrTooLarge                           (* the file would pass 2^63-1 bytes *)
  | errors_New (msg : string)                (* errors.New(msg) *)
  | fmt_Errorf (msg : string) (e : error).   (* fmt.Errorf(msg + ": %w", e) *)

Inductive res (A : Type) : Type :=
  | Ok (a : A)
  | Err (e : error).
Arguments Ok {A} a.
Arguments Err {A} e.

(** The outcome of running a function: it returns, it panics, or one of its
    loops never leaves (the fuel a loop is given is the number of iterations
    after which the Go loop is known to spin for ever). *)
Inductive exec (A : Type) : Type :=
  | Ret (a : A)
  | Panic
  | Diverge.
Arguments Ret {A} a.
Arguments Panic {A}.
Arguments Diverge {A}.

Definition ebind {A B} (m : exec A) (k : A -> exec B) : exec B :=
  match m with
  | Ret a => k a
  | Panic => Panic
  | Diverge => Diverge
  end.

#[global] Instance exec_bind : MBind exec := fun A B k m => ebind m k.
#[global] Instance exec_ret : MRet exec := fun A a => Ret a.

(** ** Machine integers *)

Definition uint32 (z : Z) : Z := z mod 2 ^ 32.
Definition uint64 (z : Z) : Z := z mod 2 ^ 64.
(** Two's-complement [int64]. *)
Definition int64 (z : Z) : Z := (z + 2 ^ 63) mod 2 ^ 64 - 2 ^ 63.
Definition MaxInt64 : Z := 2 ^ 63 - 1.

(** ** Bytes and big-endian integers ([encoding/binary]) *)

Definition byte_of_Z (z : Z) : byte :=
  default x00 (Byte.of_N (Z.to_N (z mod 256))).
Definition Z_of_byte (b : byte) : Z := Z.of_N (Byte.to_N b).

(** [be_bytes n v]: the [n] low-order bytes of [v], most significant first
    ([binary.BigEndian.PutUint32] for n = 4, [PutUint64] for n = 8). *)
Fixpoint be_bytes (n : nat) (v : Z) : list byte :=
  match n with
  | O => []
  | S n' => be_bytes n' (v / 256) ++ [byte_of_Z v]
  end.

(** [be_value bs]: the integer whose big-endian digits are [bs]
    ([binary.BigEndian.Uint32] / [Uint64]). *)
Definition be_value (bs : list byte) : Z :=
  fold_left (fun acc b => acc * 256 + Z_of_byte b) bs 0.

Definition PutUint32 (v : Z) : list byte := be_bytes 4 v.
Definition PutUint64 (v : Z) : list byte := be_bytes 8 v.
Definition Uint32 (b : list byte) : Z := be_value (take 4 b).
Definition Uint64 (b : list byte) : Z := be_value (take 8 b).

(** ** Go slices *)

(** [make([]byte, n)] *)
Definition make_bytes (n : Z) : list byte := replicate (Z.to_nat n) x00.

(** [b[lo:hi]] for indices in range. *)
Definition slice (b : list byte) (lo hi : Z) : list byte :=
  take (Z.to_nat (hi - lo)) (drop (Z.to_nat lo) b).

(** [copy(buf[lo:hi], src)]: the slice expression panics unless
    [0 <= lo <= hi <= len(buf)]; [copy] then moves
    [min(hi - lo, len(src))] bytes. *)
Definition copy_at (buf : list byte) (lo hi : Z) (src : list byte)
  : exec (list byte) :=
  if decide (0 <= lo <= hi /\ hi <= Z.of_nat (length buf)) then
    let n := Nat.min (Z.to_nat (hi - lo)) (length src) in
    Ret (take (Z.to_nat lo) buf ++ take n src ++ drop (Z.to_nat lo + n) buf)
  else Panic.

(** What [copy] leaves in a zeroed destination of [n] bytes. *)
Definition copied (n : Z) (src : list byte) : list byte :=
  take (Z.to_nat n) src ++ replicate (Z.to_nat n - length src) x00.

(** * Package persistence *)

Module persistence.

Definition HeaderSize : Z := 20.

Record Entry := mkEntry {
  Key : list byte;
  Value : list byte;
  KeySize : Z;      (* uint32 *)
  ValueSize : Z;    (* uint32 *)
  Mark : Z;         (* uint32 *)
  Timestamp : Z;    (* uint64 *)
}.

Definition DataFileName : string := "append.data".
Definition MergeFileName : string := "append.data.merge".
Definition DataBackupFileName : string := "append.data.bak".

Definition PUT : Z := 0.
Definition DEL : Z := 1.

Definition NewEntry (Key Value : list byte) (Mark Timestamp : Z) : Entry :=
  {| Key := Key;
     Value := Value;
     KeySize := uint32 (Z.of_nat (length Key));
     ValueSize := uint32 (Z.of_nat (length Value));
     Mark := Mark;
     Timestamp := Timestamp |}.

(** [uint64(entry.KeySize + entry.ValueSize + HeaderSize)]: the sum is taken
    in [uint32]. *)
Definition Size (entry : Entry) : Z :=
  uint64 (uint32 (KeySize entry + ValueSize entry + HeaderSize)).

Definition Encode (entry : Entry) : exec (list byte) :=
  let result := make_bytes (Size entry) in
  result ← copy_at result 0 4 (PutUint32 (KeySize entry));
  result ← copy_at result 4 8 (PutUint32 (ValueSize entry));
  result ← copy_at result 8 12 (PutUint32 (Mark entry));
  result ← copy_at result 12 HeaderSize (PutUint64 (Timestamp entry));
  result ← copy_at result HeaderSize (uint32 (HeaderSize + KeySize entry))
             (Key entry);
  result ← copy_at result (uint32 (HeaderSize + KeySize entry)) (Size entry)
             (Value entry);
  Ret result.

Definition Decode (date : list byte) : res Entry :=
  let date_size := Z.of_nat (length date) in
  if decide (date_size < HeaderSize) then Err (errors_New "invalid data")
  else
    let KeySize := Uint32 (slice date 0 4) in
    let ValueSize := Uint32 (slice date 4 8) in
    let Mark := Uint32 (slice date 8 12) in
    let Timestamp := Uint64 (slice date 12 HeaderSize) in
    Ok {| Key := []; Value := [];
          KeySize := KeySize; ValueSize := ValueSize;
          Mark := Mark; Timestamp := Timestamp |}.

(** *** Files

    The disk maps a path to the bytes of the file behind it.  Directories
    are not modelled: paths are taken absolute and clean, and [MkdirAll]
    always succeeds.  A handle remembers the name it was opened under and
    whether it was closed; this module closes a handle before it renames
    the file behind it, so that a handle that is still open always reads
    the file under its own name. *)

Record os_File := mkFile {
  Name : string;
  closed : bool;
}.

Definition path_Join (dir file : string) : string := dir +:+ "/" +:+ file.

(** [os.OpenFile(path, O_CREATE|O_RDWR, perm)]: the empty path cannot be
    opened; a missing file is created empty. *)
Definition os_OpenFile (path : string) (d : gmap string (list byte))
  : res os_File * gmap string (list byte) :=
  if decide (path = "") then (Err os_ErrNotExist, d)
  else
    match d !! path with
    | Some _ => (Ok (mkFile path false), d)
    | None => (Ok (mkFile path false), <[path := []]> d)
    end.

(** [os.Open(path)]: read-only, the file has to exist. *)
Definition os_Open (path : string) (d : gmap string (list byte)) : res os_File :=
  match d !! path with
  | Some _ => Ok (mkFile path false)
  | None => Err os_ErrNotExist
  end.

(** [os.Stat(path)], reduced to the size it reports. *)
Definition os_Stat (path : string) (d : gmap string (list byte)) : res Z :=
  match d !! path with
  | Some content => Ok (Z.of_nat (length content))
  | None => Err os_ErrNotExist
  end.

Definition os_Rename (oldpath newpath : string) (d : gmap string (list byte))
  : option error * gmap string (list byte) :=
  match d !! oldpath with
  | Some content => (None, <[newpath := content]> (delete oldpath d))
  | None => (Some os_ErrNotExist, d)
  end.

Definition os_Remove (path : string) (d : gmap string (list byte))
  : option error * gmap string (list byte) :=
  match d !! path with
  | Some _ => (None, delete path d)
  | None => (Some os_ErrNotExist, d)
  end.

Definition File_Close (f : os_File) : option error * os_File :=
  if closed f then (Some os_ErrClosed, f)
  else (None, mkFile (Name f) true).

(** [f.ReadAt(b, off)] with [len(b) = n]: the bytes read, or the error.
    A buffer of length 0 is filled without touching the file; fewer than
    [n] bytes before the end of the file give [io.EOF]. *)
Definition File_ReadAt (f : os_File) (d : gmap string (list byte)) (n off : Z)
  : res (list byte) :=
  if closed f then Err os_ErrClosed
  else if decide (off < 0) then Err os_ErrInvalid
  else if decide (n <= 0) then Ok []
  else
    match d !! Name f with
    | None => Err os_ErrNotExist
    | Some content =>
        if decide (off + n <= Z.of_nat (length content))
        then Ok (slice content off (off + n))
        else Err io_EOF
    end.

(** The bytes of a file after [data] was written at [off]; a write past
    the end leaves a hole of zero bytes. *)
Definition write_bytes (content : list byte) (off : Z) (data : list byte)
  : list byte :=
  take (Z.to_nat off) (content ++ replicate (Z.to_nat off - length content) x00)
  ++ data ++ drop (Z.to_nat off + length data) content.

(** [f.WriteAt(data, off)]; a file cannot grow past [MaxInt64] bytes. *)
Definition File_WriteAt (f : os_File) (d : gmap string (list byte))
    (data : list byte) (off : Z) : option error * gmap string (list byte) :=
  if closed f then (Some os_ErrClosed, d)
  else if decide (off < 0) then (Some os_ErrInvalid, d)
  else if decide (data = []) then (None, d)
  else if decide (MaxInt64 < off + Z.of_nat (length data))
  then (Some os_ErrTooLarge, d)
  else
    match d !! Name f with
    | None => (Some os_ErrNotExist, d)
    | Some content => (None, <[Name f := write_bytes content off data]> d)
    end.

(** [io.Copy(dst, src)] between two files whose read/write positions are at
    0 (all other traffic of this package goes through [ReadAt]/[WriteAt],
    which leave the position alone): the whole of [src] lands on the first
    bytes of [dst]. *)
Definition io_Copy (dst src : os_File) (d : gmap string (list byte))
  : res Z * gmap string (list byte) :=
  if closed src then (Err os_ErrClosed, d)
  else
    match d !! Name src with
    | None => (Err os_ErrNotExist, d)
    | Some content =>
        if closed dst then (Err os_ErrClosed, d)
        else
          match d !! Name dst with
          | None => (Err os_ErrNotExist, d)
          | Some old =>
              (Ok (Z.of_nat (length content)),
               <[Name dst := content ++ drop (length content) old]> d)
          end
    end.

Record DatabaseFile := mkDatabaseFile {
  File : os_File;
  offset : Z;       (* int64 *)
}.

(** [new(path_file)] *)
Definition new (path_file : string) (d : gmap string (list byte))
  : res DatabaseFile * gmap string (list byte) :=
  match os_OpenFile path_file d with
  | (Err err, d) => (Err err, d)
  | (Ok file, d) =>
      match os_Stat path_file d with
      | Err err => (Err err, d)
      | Ok size => (Ok {| File := file; offset := size |}, d)
      end
  end.

Definition NewDataFile (path fileName : string) (d : gmap string (list byte))
  : res DatabaseFile * gmap string (list byte) :=
  let path_file :=
    if decide (String.length fileName = 0%nat) then path_Join path DataFileName
    else path_Join path fileName in
  new path_file d.

Definition NewMergeFile (path : string) (d : gmap string (list byte))
  : res DatabaseFile * gmap string (list byte) :=
  let path_file := path_Join path MergeFileName in
  new path_file d.

Definition IsOffsetEqual (f : DatabaseFile) (offset' : Z) : bool :=
  bool_decide (offset f = offset').

Definition UpdateOffset (f : DatabaseFile) (offset' : Z) : DatabaseFile :=
  {| File := File f; offset := offset' |}.

(** [atomic.AddInt64(&f.offset, delta)] *)
Definition AddOffset (f : DatabaseFile) (delta : Z) : DatabaseFile :=
  {| File := File f; offset := int64 (offset f + delta) |}.

Definition GetOffset (f : DatabaseFile) : Z := offset f.

(** [(f *DatabaseFile) Write(entry)] *)
Definition Write (f : DatabaseFile) (d : gmap string (list byte))
    (entry : Entry) : exec (res Z * DatabaseFile * gmap string (list byte)) :=
  data ← Encode entry;
  let offset := GetOffset f in
  match File_WriteAt (File f) d data offset with
  | (Some err, d) => Ret (Err err, f, d)
  | (None, d) =>
      let f := AddOffset f (int64 (Size entry)) in
      Ret (Ok offset, f, d)
  end.

(** [(f *DatabaseFile) Read(offset)] *)
Definition Read (f : DatabaseFile) (d : gmap string (list byte)) (offset : Z)
  : res Entry :=
  match File_ReadAt (File f) d HeaderSize offset with
  | Err err => Err err
  | Ok header =>
      match Decode header with
      | Err err => Err err
      | Ok entry =>
          match File_ReadAt (File f) d (KeySize entry)
                  (int64 (offset + HeaderSize)) with
          | Err err => Err err
          | Ok key =>
              match File_ReadAt (File f) d (ValueSize entry)
                      (int64 (offset
                              + int64 (uint32 (HeaderSize + KeySize entry))))
              with
              | Err err => Err err
              | Ok value =>
                  Ok {| Key := key; Value := value;
                        KeySize := KeySize entry;
                        ValueSize := ValueSize entry;
                        Mark := Mark entry;
                        Timestamp := Timestamp entry |}
              end
          end
      end
  end.

Definition DatabaseFile_Close (f : DatabaseFile) : option error * DatabaseFile :=
  let '(err, file) := File_Close (File f) in
  (err, {| File := file; offset := offset f |}).

(** *** The write sequence *)

Record WriteSequence := mkWriteSequence {
  index : gmap string Z;                (* sync.Map: string key -> int64 offset *)
  dataPath : string;
  databaseFile : option DatabaseFile;   (* *DatabaseFile, possibly nil *)
}.

Definition set_index (w : WriteSequence) (i : gmap string Z) : WriteSequence :=
  {| index := i; dataPath := dataPath w; databaseFile := databaseFile w |}.

Definition set_databaseFile (w : WriteSequence) (f : DatabaseFile)
  : WriteSequence :=
  {| index := index w; dataPath := dataPath w; databaseFile := Some f |}.

(** [p != nil] *)
Definition not_nil {A} (p : option A) : bool :=
  match p with
  | Some _ => true
  | None => false
  end.

(** Dereferencing a pointer: nil panics. *)
Definition deref {A} (p : option A) : exec A :=
  match p with
  | Some a => Ret a
  | None => Panic
  end.

(** The [for] loop of [loadIndex], [fuel] iterations of it. *)
Fixpoint loadIndex_loop (fuel : nat) (f : DatabaseFile)
    (d : gmap string (list byte)) (index : gmap string Z) (offset : Z)
  : exec (option error * gmap string Z) :=
  match fuel with
  | O => Diverge
  | S fuel =>
      if IsOffsetEqual f offset then Ret (None, index)
      else
        match Read f d offset with
        | Err err =>
            match err with
            | io_EOF => Ret (None, index)
            | _ => Ret (Some err, index)
            end
        | Ok entry =>
            let index :=
              if decide (Mark entry = DEL)
              then delete (String.string_of_list_byte (Key entry)) index
              else <[String.string_of_list_byte (Key entry) := offset]> index in
            loadIndex_loop fuel f d index (int64 (offset + int64 (Size entry)))
        end
  end.

(** Every record that is read moves the offset forward, unless its size
    field wraps to 0, and the loop leaves at the latest when a read passes
    the end of the file: a loop that has not left after as many iterations
    as the file has bytes (and two more) never will. *)
Definition loadIndex_fuel (f : DatabaseFile) (d : gmap string (list byte))
  : nat :=
  S (S (length (default [] (d !! Name (File f))))).

Definition loadIndex (w : WriteSequence) (d : gmap string (list byte))
  : exec (option error * WriteSequence) :=
  match databaseFile w with
  | None => Ret (Some (errors_New "database file is nil"), w)
  | Some f =>
      '(err, index) ← loadIndex_loop (loadIndex_fuel f d) f d (index w) 0;
      Ret (err, set_index w index)
  end.

(** [NewWriteSequence(dir_path, backup_file)]; [now] is what
    [time.Now().UnixMilli()] answers. *)
Definition NewWriteSequence (dir_path backup_file : string) (now : Z)
    (d : gmap string (list byte))
  : exec (res WriteSequence * gmap string (list byte)) :=
  let dir_path_abs := dir_path in
  let seeded : res unit * gmap string (list byte) :=
    if decide (String.length backup_file ≠ 0%nat) then
      let data_file_abs := path_Join dir_path_abs DataFileName in
      let backup_file_abs := backup_file in
      if decide (data_file_abs ≠ backup_file_abs) then
        match os_Open backup_file_abs d with
        | Err err1 => (Err err1, d)
        | Ok file1 =>
            let '(err, d) :=
              match os_Stat data_file_abs d with
              | Ok _ =>
                  let new_file_path :=
                    data_file_abs +:+ ".temp." +:+ pretty now in
                  os_Rename data_file_abs new_file_path d
              | Err _ => (None, d)
              end in
            match err with
            | Some err => (Err err, d)
            | None =>
                match os_OpenFile data_file_abs d with
                | (Err err2, d) => (Err err2, d)
                | (Ok file2, d) =>
                    match io_Copy file2 file1 d with
                    | (Err err, d) => (Err err, d)
                    | (Ok _, d) => (Ok (), d)
                    end
                end
            end
        end
      else (Ok (), d)
    else (Ok (), d) in
  match seeded with
  | (Err err, d) => Ret (Err err, d)
  | (Ok _, d) =>
      match NewDataFile dir_path_abs "" d with
      | (Err err, d) => Ret (Err err, d)
      | (Ok df, d) =>
          let w := {| index := ∅; dataPath := dir_path_abs;
                      databaseFile := Some df |} in
          '(err, w) ← loadIndex w d;
          match err with
          | Some err => Ret (Err err, d)
          | None => Ret (Ok w, d)
          end
      end
  end.

(** The methods below have a pointer receiver: [w] is the object behind
    the pointer, [None] for a nil pointer, and the object after the call is
    returned next to the results. *)

(** [(w *WriteSequence) Put(key, value)] *)
Definition Put (w : option WriteSequence) (d : gmap string (list byte))
    (key value : list byte) (now : Z)
  : exec (option error * option WriteSequence * gmap string (list byte)) :=
  let timestamp := now in
  w ← deref w;
  let entry := NewEntry key value PUT (uint64 timestamp) in
  f ← deref (databaseFile w);
  '(r, f, d) ← Write f d entry;
  let w := set_databaseFile w f in
  match r with
  | Err err => Ret (Some err, Some w, d)
  | Ok offset =>
      Ret (None,
           Some (set_index w (<[String.string_of_list_byte key := offset]> (index w))),
           d)
  end.

Definition IsKeyExist (w : WriteSequence) (key : list byte) : Z * bool :=
  match index w !! String.string_of_list_byte key with
  | None => (0, false)
  | Some offset => (offset, true)
  end.

(** [(w *WriteSequence) Get(key)] *)
Definition Get (w : option WriteSequence) (d : gmap string (list byte))
    (key : list byte) : exec (res (list byte)) :=
  if decide (length key = 0%nat) then Ret (Err (errors_New "key is nil"))
  else
    w ← deref w;
    let '(offset, exist_) := IsKeyExist w key in
    if negb exist_ then Ret (Err (errors_New "key not exist"))
    else
      f ← deref (databaseFile w);
      match Read f d offset with
      | Err err => Ret (Err err)
      | Ok entry => Ret (Ok (Value entry))
      end.

(** [(w *WriteSequence) Delete(key)] *)
Definition Delete (w : option WriteSequence) (d : gmap string (list byte))
    (key : list byte) (now : Z)
  : exec (option error * option WriteSequence * gmap string (list byte)) :=
  if decide (length key = 0%nat)
  then Ret (Some (errors_New "key is nil"), w, d)
  else
    w ← deref w;
    let '(_, exist_) := IsKeyExist w key in
    if negb exist_ then Ret (None, Some w, d)
    else
      let timestamp := now in
      let entry := NewEntry key [] DEL (uint64 timestamp) in
      f ← deref (databaseFile w);
      '(r, f, d) ← Write f d entry;
      let w := set_databaseFile w f in
      match r with
      | Err err => Ret (Some err, Some w, d)
      | Ok _ =>
          Ret (None,
               Some (set_index w (delete (String.string_of_list_byte key) (index w))),
               d)
      end.

(** The callback that [Merge] hands to [w.index.Range], run over the
    pairs [kvs] that [Range] still has to visit.  [err] is the variable of
    the enclosing function.  The callback's [entry, err := ...] declares a
    second [err] local to the callback, and the two assignments
    [err = fmt.Errorf(...)] that follow go to that local one: the branches
    that stop the iteration leave the enclosing [err] as it was.  (The
    type assertions on [k] and [v] cannot fail: the index only ever holds
    [string] keys and [int64] offsets.) *)
Fixpoint Merge_range (f : DatabaseFile) (kvs : list (string * Z))
    (err : option error) (merge_file : DatabaseFile)
    (d : gmap string (list byte)) (new_index : gmap string Z)
  : exec (option error * DatabaseFile * gmap string (list byte) * gmap string Z) :=
  match kvs with
  | [] => Ret (err, merge_file, d, new_index)
  | (key, value) :: kvs =>
      match Read f d value with
      | Err err' =>
          let err' := fmt_Errorf "read entry error" err' in
          Ret (err, merge_file, d, new_index)            (* return false *)
      | Ok entry =>
          '(r, merge_file, d) ← Write merge_file d entry;
          match r with
          | Err err' =>
              let err' := fmt_Errorf "write merge file error" err' in
              Ret (err, merge_file, d, new_index)        (* return false *)
          | Ok new_offset =>
              Merge_range f kvs err merge_file d (<[key := new_offset]> new_index)
          end
      end
  end.

(** [(w *WriteSequence) Merge()].  [Range] visits the index in the order of
    [map_to_list]. *)
Definition Merge (w : option WriteSequence) (d : gmap string (list byte))
  : exec (option error * option WriteSequence * gmap string (list byte)) :=
  w ← deref w;
  f ← deref (databaseFile w);
  if IsOffsetEqual f 0 then Ret (None, Some w, d)
  else
    match NewMergeFile (dataPath w) d with
    | (Err err, d) => Ret (Some err, Some w, d)
    | (Ok merge_file, d) =>
        (* defer os.Remove(merge_file.File.Name()) *)
        let deferred (d : gmap string (list byte)) :=
          snd (os_Remove (Name (File merge_file)) d) in
        let err : option error := None in
        let new_index : gmap string Z := ∅ in
        '(err, merge_file, d, new_index) ←
          Merge_range f (map_to_list (index w)) err merge_file d new_index;
        match err with
        | Some err => Ret (Some err, Some w, deferred d)
        | None =>
            let '(_, f) := DatabaseFile_Close f in
            let w := set_databaseFile w f in
            let backup_file := path_Join (dataPath w) DataBackupFileName in
            let '(_, d) := os_Rename (Name (File f)) backup_file d in
            let '(_, merge_file) := DatabaseFile_Close merge_file in
            let '(_, d) := os_Rename (Name (File merge_file)) (Name (File f)) d in
            match NewDataFile (dataPath w) "" d with
            | (Err err, d) =>
                let '(_, d) := os_Rename backup_file (Name (File f)) d in
                Ret (Some err, Some w, deferred d)
            | (Ok new_file, d) =>
                let w := set_databaseFile w new_file in
                let w := set_index w new_index in
                let '(_, d) := os_Remove backup_file d in
                Ret (None, Some w, deferred d)
            end
        end
    end.

(** [(w *WriteSequence) Backup(backupFileName)] *)
Definition Backup (w : option WriteSequence) (d : gmap string (list byte))
    (backupFileName : string) (now : Z)
  : exec (option error * gmap string (list byte)) :=
  w ← deref w;
  let backupFileName :=
    if decide (String.length backupFileName = 0%nat) then
      let timestampStr := DataFileName +:+ "." +:+ pretty now in
      path_Join (dataPath w) timestampStr
    else backupFileName in
  match os_OpenFile backupFileName d with
  | (Err err, d) => Ret (Some err, d)
  | (Ok backupFile, d) =>
      f ← deref (databaseFile w);
      match io_Copy backupFile (File f) d with
      | (Err err, d) => Ret (Some err, d)
      | (Ok n, d) => Ret (None, d)
      end
  end.

Definition GetIndexSize (w : WriteSequence) : Z :=
  Z.of_nat (size (index w)).

(** [(w *WriteSequence) GetAllIndexKeys()] *)
Definition GetAllIndexKeys (w : option WriteSequence) : exec (list string) :=
  w ← deref w;
  Ret ((map_to_list (index w)).*1).

(** [(w *WriteSequence) Close()] *)
Definition Close (w : option WriteSequence)
  : exec (option error * option WriteSequence) :=
  w ← deref w;
  f ← deref (databaseFile w);
  let '(err, f) := DatabaseFile_Close f in
  Ret (err, Some (set_databaseFile w f)).

(** *** Sequences of operations on a write sequence *)

Inductive Op : Type :=
  | OpPut (key value : list byte) (now : Z)
  | OpDelete (key : list byte) (now : Z).

Definition run_Op (op : Op) (w : option WriteSequence)
    (d : gmap string (list byte))
  : exec (option error * option WriteSequence * gmap string (list byte)) :=
  match op with
  | OpPut key value now => Put w d key value now
  | OpDelete key now => Delete w d key now
  end.

(** The operations one after the other; the caller looks at each error and
    goes on. *)
Fixpoint run_Ops (ops : list Op) (w : option WriteSequence)
    (d : gmap string (list byte))
  : exec (option WriteSequence * gmap string (list byte)) :=
  match ops with
  | [] => Ret (w, d)
  | op :: ops =>
      '(_, w, d) ← run_Op op w d;
      run_Ops ops w d
  end.

End persistence.

(** * Package lru *)

Module lru.

(** [ComputableValue]: a value that reports its size. *)
Class ComputableValue (V : Type) := Len : V -> Z.   (* int64 *)

Section cache.
Context {V : Type} `{!ComputableValue V}.

(** What [list.Element.Value] holds: a [*entry] (the entry is only ever
    reached through the element that holds it, and is kept in place), or,
    after [PushFront(value0)] in [Add], a [*list.Element]. *)
Inductive ElementValue : Type :=
  | entry (key : string) (insideValue : V)
  | element (e : nat).

(** [ll] is the list front first, as the addresses of its elements;
    [elements] is the heap of all elements allocated so far, an element's
    address being its position; [cache] maps a key to the address of an
    element.  [OnEvicted] tells whether a callback is installed, and
    [evicted] collects the calls it received. *)
Record Cache := mkCache {
  maxBytes : Z;                 (* int64 *)
  nbytes : Z;                   (* int64 *)
  ll : list nat;
  elements : list ElementValue;
  cache : gmap string nat;
  OnEvicted : bool;
  evicted : list (string * V);
}.

Definition New (maxBytes : Z) (onEvicted : bool) : Cache :=
  {| maxBytes := maxBytes; nbytes := 0; ll := []; elements := [];
     cache := ∅; OnEvicted := onEvicted; evicted := [] |}.

(** [l.PushFront(v)]: a new element in front; its address is returned. *)
Definition PushFront (v : ElementValue) (c : Cache) : nat * Cache :=
  let e := length (elements c) in
  (e, {| maxBytes := maxBytes c; nbytes := nbytes c;
         ll := e :: ll c; elements := elements c ++ [v];
         cache := cache c; OnEvicted := OnEvicted c; evicted := evicted c |}).

(** [l.Remove(e)]: nothing happens when [e] is not in the list. *)
Definition ll_Remove (e : nat) (c : Cache) : Cache :=
  {| maxBytes := maxBytes c; nbytes := nbytes c;
     ll := filter (fun e' => e' ≠ e) (ll c); elements := elements c;
     cache := cache c; OnEvicted := OnEvicted c; evicted := evicted c |}.

(** [l.MoveToFront(e)]: nothing happens when [e] is not in the list. *)
Definition MoveToFront (e : nat) (c : Cache) : Cache :=
  if decide (e ∈ ll c) then
    {| maxBytes := maxBytes c; nbytes := nbytes c;
       ll := e :: filter (fun e' => e' ≠ e) (ll c); elements := elements c;
       cache := cache c; OnEvicted := OnEvicted c; evicted := evicted c |}
  else c.

(** [l.Back()] *)
Definition Back (c : Cache) : option nat := last (ll c).

Definition set_cache (m : gmap string nat) (c : Cache) : Cache :=
  {| maxBytes := maxBytes c; nbytes := nbytes c; ll := ll c;
     elements := elements c; cache := m;
     OnEvicted := OnEvicted c; evicted := evicted c |}.

Definition set_nbytes (n : Z) (c : Cache) : Cache :=
  {| maxBytes := maxBytes c; nbytes := n; ll := ll c;
     elements := elements c; cache := cache c;
     OnEvicted := OnEvicted c; evicted := evicted c |}.

(** [temp.insideValue = val] for the entry held by element [e]. *)
Definition set_insideValue (e : nat) (key : string) (val : V) (c : Cache)
  : Cache :=
  {| maxBytes := maxBytes c; nbytes := nbytes c; ll := ll c;
     elements := <[e := entry key val]> (elements c); cache := cache c;
     OnEvicted := OnEvicted c; evicted := evicted c |}.

(** [if c.OnEvicted != nil { c.OnEvicted(key, value) }] *)
Definition call_OnEvicted (key : string) (value : V) (c : Cache) : Cache :=
  if OnEvicted c then
    {| maxBytes := maxBytes c; nbytes := nbytes c; ll := ll c;
       elements := elements c; cache := cache c;
       OnEvicted := OnEvicted c; evicted := evicted c ++ [(key, value)] |}
  else c.

(** the type assertion of [ele.Value] to [*entry]: the type assertion panics on anything that is
    not a [*entry]. *)
Definition Value_entry (e : nat) (c : Cache) : exec (string * V) :=
  match elements c !! e with
  | Some (entry key insideValue) => Ret (key, insideValue)
  | Some (element _) => Panic
  | None => Panic
  end.

Definition len (s : string) : Z := Z.of_nat (String.length s).

Definition Get (key : string) (c : Cache) : exec (option V * bool * Cache) :=
  match cache c !! key with
  | Some val =>
      let c := MoveToFront val c in
      '(_, insideValue) ← Value_entry val c;
      Ret (Some insideValue, true, c)
  | None => Ret (None, false, c)
  end.

Definition RemoveOldest (c : Cache) : exec Cache :=
  match Back c with
  | Some ele =>
      let c := ll_Remove ele c in
      '(p_key, p_insideValue) ← Value_entry ele c;
      let c := set_cache (delete p_key (cache c)) c in
      let c := set_nbytes (int64 (nbytes c
                                  - int64 (len p_key + Len p_insideValue))) c in
      Ret (call_OnEvicted p_key p_insideValue c)
  | None => Ret c
  end.

Definition GetCurrentUsedBytes (c : Cache) : Z := nbytes c.
Definition GetMaxUsedBytes (c : Cache) : Z := maxBytes c.
Definition Cache_Len (c : Cache) : Z := Z.of_nat (length (ll c)).

(** [for c.maxBytes > 0 && c.nbytes > c.maxBytes { c.RemoveOldest() }] *)
Fixpoint Add_evict (fuel : nat) (c : Cache) : exec Cache :=
  match fuel with
  | O => Diverge
  | S fuel =>
      if decide (maxBytes c > 0 /\ nbytes c > maxBytes c) then
        c ← RemoveOldest c;
        Add_evict fuel c
      else Ret c
  end.

(** [Add]; every turn of the eviction loop takes an element off the list,
    and on an empty list [RemoveOldest] changes nothing: a loop that is
    still running after [length ll + 1] turns runs for ever. *)
Definition Add (key : string) (val : V) (c : Cache) : exec (bool * Cache) :=
  if decide (maxBytes c > 0 /\ int64 (len key + Len val) > maxBytes c)
  then Ret (false, c)
  else
    c ← match cache c !! key with
        | Some value0 =>
            let '(_, c) := PushFront (element value0) c in
            '(temp_key, temp_insideValue) ← Value_entry value0 c;
            let c := set_nbytes
                       (int64 (nbytes c
                               + int64 (Len temp_insideValue - Len val))) c in
            Ret (set_insideValue value0 temp_key val c)
        | None =>
            let '(ele, c) := PushFront (entry key val) c in
            let c := set_cache (<[key := ele]> (cache c)) c in
            Ret (set_nbytes (int64 (nbytes c + int64 (len key + Len val))) c)
        end;
    c ← Add_evict (S (S (length (ll c)))) c;
    Ret (true, c).

Definition Remove (key : string) (c : Cache) : exec Cache :=
  if decide (len key = 0) then Ret c
  else
    match cache c !! key with
    | Some ele =>
        '(p_key, p_insideValue) ← Value_entry ele c;
        let c := set_cache (delete p_key (cache c)) c in
        let c := ll_Remove ele c in
        let c := set_nbytes (int64 (nbytes c
                                    - int64 (len p_key + Len p_insideValue))) c in
        Ret (call_OnEvicted p_key p_insideValue c)
    | None => Ret c
    end.

(** *** Sequences of operations *)

Inductive Op : Type :=
  | OpAdd (key : string) (val : V)
  | OpGet (key : string)
  | OpRemove (key : string)
  | OpRemoveOldest.

Definition run_Op (op : Op) (c : Cache) : exec Cache :=
  match op with
  | OpAdd key val => '(_, c) ← Add key val c; Ret c
  | OpGet key => '(_, _, c) ← Get key c; Ret c
  | OpRemove key => Remove key c
  | OpRemoveOldest => RemoveOldest c
  end.

Fixpoint run_Ops (ops : list Op) (c : Cache) : exec Cache :=
  match ops with
  | [] => Ret c
  | op :: ops => c ← run_Op op c; run_Ops ops c
  end.

(** The entries the list holds, front first. *)
Definition entries (c : Cache) : list (string * V) :=
  omap (fun e => match elements c !! e with
                 | Some (entry key insideValue) => Some (key, insideValue)
                 | _ => None
                 end) (ll c).

(** [Σ (len(key) + value.Len())] over the entries. *)
Definition entries_bytes (c : Cache) : Z :=
  foldr (fun kv acc => len kv.1 + Len kv.2 + acc) 0 (entries c).

End cache.

Arguments ElementValue : clear implicits.
Arguments Cache : clear implicits.
Arguments Op : clear implicits.

End lru.

(** * Package singleflight *)

Module singleflight.

Section singleflight.
(** [R] stands for the pair [(interface{}, error)] that [fn] returns. *)
Context {R : Type}.

(** A [call]: the counter of its [sync.WaitGroup], and [val], [err], which
    stay unset until [fn] has returned. *)
Record call := mkCall {
  wg : nat;
  val_err : option R;
}.

(** [m] maps a key to the address of its call; [calls] is the heap of all
    calls allocated so far, the address of a call being its position. *)
Record GroupCall := mkGroupCall {
  m : gmap string nat;
  calls : list call;
}.

Definition empty : GroupCall := {| m := ∅; calls := [] |}.

(** [Do] when no other goroutine is inside this [GroupCall]: [fn] is run
    on the state [S] of the caller.  A call that is found in the map and
    still has its wait group armed is waited for without end. *)
Definition Do {S : Type} (g : GroupCall) (key : string)
    (fn : S -> exec (R * S)) (s : S) : exec (option R * GroupCall * S) :=
  match m g !! key with
  | Some c =>
      match calls g !! c with
      | Some (mkCall O r) => Ret (r, g, s)
      | _ => Diverge
      end
  | None =>
      let c := length (calls g) in
      let g := {| m := <[key := c]> (m g);
                  calls := calls g ++ [mkCall 1 None] |} in
      '(r, s) ← fn s;
      let g := {| m := m g; calls := <[c := mkCall 1 (Some r)]> (calls g) |} in
      let g := {| m := m g; calls := <[c := mkCall 0 (Some r)]> (calls g) |} in
      let g := {| m := delete key (m g); calls := calls g |} in
      Ret (Some r, g, s)
  end.

(** *** Concurrent callers

    Each goroutine that called [Do(key, fn)] is at one of the following
    points of the function; one step of the machine below is one goroutine
    passing the next of its synchronisation points. *)
Inductive point : Type :=
  | Entering (key : string)        (* before the first g.mu.Lock() *)
  | Waiting (c : nat)              (* found c in the map: at c.wg.Wait() *)
  | Registered (key : string) (c : nat)  (* stored c in the map: before fn() *)
  | Running (key : string) (c : nat)     (* inside fn() *)
  | Stored (key : string) (c : nat)      (* c.val, c.err assigned: before c.wg.Done() *)
  | Released (key : string) (c : nat)    (* after c.wg.Done(): before the second g.mu.Lock() *)
  | Removed (c : nat)                    (* map entry deleted: before return *)
  | Returned (c : nat) (r : option R).   (* returned c.val, c.err *)

(** The machine: the group, the goroutines, and, for the account of the
    property, the calls of [fn] made so far, each with the address of the
    call record it was made for. *)
Record state := mkState {
  group : GroupCall;
  goroutines : list point;
  fn_calls : list nat;
}.

Definition set_calls (g : GroupCall) (cs : list call) : GroupCall :=
  {| m := m g; calls := cs |}.

Inductive step : state -> state -> Prop :=
  (* g.mu.Lock(); c, ok := g.m[key]; ok: g.mu.Unlock() *)
  | step_join g ts fs t key c :
      ts !! t = Some (Entering key) ->
      m g !! key = Some c ->
      step (mkState g ts fs) (mkState g (<[t := Waiting c]> ts) fs)
  (* g.mu.Lock(); not ok: c := new(call); c.wg.Add(1); g.m[key] = c;
     g.mu.Unlock() *)
  | step_register g ts fs t key :
      ts !! t = Some (Entering key) ->
      m g !! key = None ->
      step (mkState g ts fs)
           (mkState {| m := <[key := length (calls g)]> (m g);
                       calls := calls g ++ [mkCall 1 None] |}
                    (<[t := Registered key (length (calls g))]> ts) fs)
  (* fn is called *)
  | step_call g ts fs t key c :
      ts !! t = Some (Registered key c) ->
      step (mkState g ts fs)
           (mkState g (<[t := Running key c]> ts) (fs ++ [c]))
  (* c.val, c.err = fn(): fn returns r *)
  | step_store g ts fs t key c r cl :
      ts !! t = Some (Running key c) ->
      calls g !! c = Some cl ->
      step (mkState g ts fs)
           (mkState (set_calls g (<[c := mkCall (wg cl) (Some r)]> (calls g)))
                    (<[t := Stored key c]> ts) fs)
  (* c.wg.Done() *)
  | step_done g ts fs t key c cl :
      ts !! t = Some (Stored key c) ->
      calls g !! c = Some cl ->
      step (mkState g ts fs)
           (mkState (set_calls g (<[c := mkCall (pred (wg cl)) (val_err cl)]>
                                    (calls g)))
                    (<[t := Released key c]> ts) fs)
  (* g.mu.Lock(); delete(g.m, key); g.mu.Unlock() *)
  | step_delete g ts fs t key c :
      ts !! t = Some (Released key c) ->
      step (mkState g ts fs)
           (mkState {| m := delete key (m g); calls := calls g |}
                    (<[t := Removed c]> ts) fs)
  (* return c.val, c.err, by the goroutine that ran fn *)
  | step_return g ts fs t c cl :
      ts !! t = Some (Removed c) ->
      calls g !! c = Some cl ->
      step (mkState g ts fs)
           (mkState g (<[t := Returned c (val_err cl)]> ts) fs)
  (* c.wg.Wait() returns once the counter is 0; return c.val, c.err *)
  | step_wake g ts fs t c cl :
      ts !! t = Some (Waiting c) ->
      calls g !! c = Some cl ->
      wg cl = O ->
      step (mkState g ts fs)
           (mkState g (<[t := Returned c (val_err cl)]> ts) fs).

(** The start: an empty group and any number of callers, each about to
    enter [Do] with a key of its own choice. *)
Definition initial (keys : list string) : state :=
  {| group := empty; goroutines := Entering <$> keys; fn_calls := [] |}.

Inductive reachable (keys : list string) : state -> Prop :=
  | reachable_initial : reachable keys (initial keys)
  | reachable_step s s' :
      reachable keys s -> step s s' -> reachable keys s'.

End singleflight.

Arguments call : clear implicits.
Arguments GroupCall : clear implicits.
Arguments point : clear implicits.
Arguments state : clear implicits.

End singleflight.

(** * Package mycache *)

Module mycache.

Record ByteView := mkByteView {
  data : list byte;
}.

Definition ByteView_Len (v : ByteView) : Z := Z.of_nat (length (data v)).

#[global] Instance ByteView_ComputableValue : lru.ComputableValue ByteView :=
  ByteView_Len.

Definition cloneBytes (data : list byte) : list byte := data.

Definition ByteSlice (v : ByteView) : list byte := cloneBytes (data v).

(** *** The shard: [cache] *)

Record cache := mkcache {
  cache_data : lru.Cache ByteView;                          (* data *lru.Cache *)
  cacheBytes : Z;
  groupName : string;
  enablePersistence : bool;
  writeSequence : option persistence.WriteSequence;     (* possibly nil *)
}.

Record CacheInfo := mkCacheInfo {
  CurrentCacheBytes : Z;
  MaxCacheBytes : Z;
  KeysNum : Z;
}.

Definition set_data (c : cache) (l : lru.Cache ByteView) : cache :=
  {| cache_data := l; cacheBytes := cacheBytes c; groupName := groupName c;
     enablePersistence := enablePersistence c;
     writeSequence := writeSequence c |}.

Definition set_writeSequence (c : cache)
    (w : option persistence.WriteSequence) : cache :=
  {| cache_data := cache_data c; cacheBytes := cacheBytes c;
     groupName := groupName c; enablePersistence := enablePersistence c;
     writeSequence := w |}.

(** The loop of [init] over the keys that are left. *)
Fixpoint cache_init_loop (keys : list string) (c : cache)
    (d : gmap string (list byte)) : exec cache :=
  match keys with
  | [] => Ret c
  | key :: keys =>
      r ← persistence.Get (writeSequence c) d (String.list_byte_of_string key);
      c ← match r with
          | Ok val =>
              let value := {| data := cloneBytes val |} in
              '(_, l) ← lru.Add key value (cache_data c);
              Ret (set_data c l)
          | Err _ => Ret c
          end;
      cache_init_loop keys c d
  end.

Definition cache_init (c : cache) (d : gmap string (list byte))
  : exec (option error * cache) :=
  keys ← persistence.GetAllIndexKeys (writeSequence c);
  c ← cache_init_loop keys c d;
  Ret (None, c).

Definition cache_add (c : cache) (d : gmap string (list byte))
    (key : string) (val : ByteView) (now : Z)
  : exec (option error * cache * gmap string (list byte)) :=
  if decide (String.length key = 0%nat) then Ret (None, c, d)
  else
    '(err, c, d) ←
      (if enablePersistence c && persistence.not_nil (writeSequence c) then
         '(err, w, d) ← persistence.Put (writeSequence c) d
                          (String.list_byte_of_string key) (ByteSlice val) now;
         Ret (err, set_writeSequence c w, d)
       else Ret (None, c, d));
    match err with
    | Some err => Ret (Some err, c, d)
    | None =>
        '(_, l) ← lru.Add key val (cache_data c);
        Ret (None, set_data c l, d)
    end.

Definition cache_get (c : cache) (key : string)
  : exec (ByteView * bool * cache) :=
  '(ans, ok, l) ← lru.Get key (cache_data c);
  match ans, ok with
  | Some ans, true => Ret (ans, ok, set_data c l)
  | _, _ => Ret (mkByteView [], false, set_data c l)
  end.

Definition GetInfo (c : cache) : CacheInfo :=
  {| CurrentCacheBytes := lru.GetCurrentUsedBytes (cache_data c);
     MaxCacheBytes := int64 (cacheBytes c);
     KeysNum := int64 (lru.Cache_Len (cache_data c)) |}.

Definition cache_delete (c : cache) (d : gmap string (list byte))
    (key : string) (now : Z)
  : exec (option error * cache * gmap string (list byte)) :=
  '(err, c, d) ←
    (if enablePersistence c then
       '(err, w, d) ← persistence.Delete (writeSequence c) d
                        (String.list_byte_of_string key) now;
       Ret (err, set_writeSequence c w, d)
     else Ret (None, c, d));
  match err with
  | Some err => Ret (Some err, c, d)
  | None =>
      l ← lru.Remove key (cache_data c);
      Ret (None, set_data c l, d)
  end.

Definition cache_backup (c : cache) (d : gmap string (list byte)) (now : Z)
  : exec (option error * cache * gmap string (list byte)) :=
  if enablePersistence c then
    '(err, w, d) ← persistence.Merge (writeSequence c) d;
    let c := set_writeSequence c w in
    match err with
    | Some err => Ret (Some err, c, d)
    | None =>
        '(err, d) ← persistence.Backup (writeSequence c) d "" now;
        match err with
        | Some err => Ret (Some err, c, d)
        | None => Ret (None, c, d)
        end
    end
  else Ret (Some (errors_New "backup failed, persistence is not enabled"), c, d).

(** *** Peers *)

Record Request := mkRequest {
  Request_Group : string;
  Request_Key : string;
}.

Record KVResponse := mkKVResponse {
  KVResponse_Value : list byte;
}.

(** [PeerGetter.Get(in, out)]: the bytes it leaves in [out.Value], or the
    error. *)
Definition PeerGetter : Type := Request -> res (list byte).

(** [PeerPicker.PickPeer(key)]: [None] for [ok = false]. *)
Definition PeerPicker : Type := string -> option PeerGetter.

(** [Getter.Get(key)] *)
Definition Getter : Type := string -> res (list byte).

(** *** Groups *)

Record Conf := mkConf {
  Name : string;
  EnablePersistence : bool;
  PersistencePath : string;
  LoadPersistentFile : bool;
  FullPersistentFile : string;
  IncrPersistentFile : string;
}.

Record Group := mkGroup {
  name : string;
  getter : Getter;
  mainCache : cache;
  peers : option PeerPicker;
  loader : singleflight.GroupCall (ByteView * option error);
  fullPersistentFile : string;
}.

Definition set_mainCache (g : Group) (c : cache) : Group :=
  {| name := name g; getter := getter g; mainCache := c; peers := peers g;
     loader := loader g; fullPersistentFile := fullPersistentFile g |}.

Definition set_loader (g : Group)
    (l : singleflight.GroupCall (ByteView * option error)) : Group :=
  {| name := name g; getter := getter g; mainCache := mainCache g;
     peers := peers g; loader := l;
     fullPersistentFile := fullPersistentFile g |}.

(** The process: the registry [groups] and the disk. *)
Record World := mkWorld {
  groups : gmap string Group;
  disk : gmap string (list byte);
}.

(** [NewGroup(conf, cacheBytes, getter)]; a nil getter is [None]. *)
Definition NewGroup (conf : Conf) (cacheBytes : Z) (getter : option Getter)
    (now : Z) (wd : World) : exec (Group * World) :=
  match getter with
  | None => Panic                                   (* panic("nil Getter") *)
  | Some getter =>
      if decide (String.length (Name conf) = 0%nat) then Panic
      else
        '(w, d) ←
          (if bool_decide (0 < String.length (PersistencePath conf))%nat
              && (EnablePersistence conf
                  || bool_decide (0 < String.length (FullPersistentFile conf))%nat)
           then
             let group_persistence_path :=
               persistence.path_Join (PersistencePath conf) (Name conf) in
             '(r, d) ← persistence.NewWriteSequence group_persistence_path
                         (FullPersistentFile conf) now (disk wd);
             match r with
             | Err err => Panic                     (* panic(err) *)
             | Ok w => Ret (Some w, d)
             end
           else Ret (None, disk wd));
        let g := {| name := Name conf;
                    getter := getter;
                    mainCache := {| cacheBytes := cacheBytes;
                                    cache_data := lru.New cacheBytes false;
                                    groupName := "";
                                    writeSequence := w;
                                    enablePersistence := EnablePersistence conf |};
                    peers := None;
                    loader := singleflight.empty;
                    fullPersistentFile := FullPersistentFile conf |} in
        g ← (if bool_decide (0 < String.length (FullPersistentFile conf))%nat
             then
               '(_, c) ← cache_init (mainCache g) d;
               Ret (set_mainCache g c)
             else Ret g);
        Ret (g, {| groups := <[Name conf := g]> (groups wd); disk := d |})
  end.

Definition RegisterPeers (g : Group) (peers' : PeerPicker) : exec Group :=
  match peers g with
  | Some _ => Panic
  | None =>
      Ret {| name := name g; getter := getter g; mainCache := mainCache g;
             peers := Some peers'; loader := loader g;
             fullPersistentFile := fullPersistentFile g |}
  end.

Definition GetGroup (name : string) (wd : World) : option Group :=
  groups wd !! name.

Definition getFromPeer (g : Group) (peer : PeerGetter) (key : string)
  : ByteView * option error :=
  let req := {| Request_Group := name g; Request_Key := key |} in
  match peer req with
  | Err err => (mkByteView [], Some err)
  | Ok value => (mkByteView value, None)
  end.

(** [populateCache]: the error that [add] returns is dropped. *)
Definition populateCache (c : cache) (d : gmap string (list byte))
    (key : string) (value : ByteView) (now : Z)
  : exec (cache * gmap string (list byte)) :=
  '(_, c, d) ← cache_add c d key value now;
  Ret (c, d).

Definition getLocally (g : Group) (c : cache) (d : gmap string (list byte))
    (key : string) (now : Z)
  : exec (ByteView * option error * (cache * gmap string (list byte))) :=
  match getter g key with
  | Err err => Ret (mkByteView [], Some err, (c, d))
  | Ok bytes =>
      let value := {| data := cloneBytes bytes |} in
      '(c, d) ← populateCache c d key value now;
      Ret (value, None, (c, d))
  end.

(** The function that [load] passes to [g.loader.Do]; it works on the
    shard and the disk. *)
Definition load_fn (g : Group) (key : string) (now : Z)
    (s : cache * gmap string (list byte))
  : exec (ByteView * option error * (cache * gmap string (list byte))) :=
  let '(c, d) := s in
  let fetched :=
    match peers g with
    | Some peers =>
        match peers key with
        | Some peer =>
            match getFromPeer g peer key with
            | (value, None) => Some value
            | (_, Some err) => None     (* logged *)
            end
        | None => None
        end
    | None => None
    end in
  match fetched with
  | Some value => Ret (value, None, (c, d))
  | None => getLocally g c d key now
  end.

Definition load (g : Group) (d : gmap string (list byte)) (key : string)
    (now : Z)
  : exec (ByteView * option error * Group * gmap string (list byte)) :=
  '(viewi_err, l, (c, d)) ←
    singleflight.Do (loader g) key (load_fn g key now) (mainCache g, d);
  let g := set_loader (set_mainCache g c) l in
  match viewi_err with
  | Some (viewi, None) => Ret (viewi, None, g, d)
  | Some (_, Some err) => Ret (mkByteView [], Some err, g, d)
  | None => Panic      (* a call that was left without a value: viewi is nil *)
  end.

Definition Group_Get (g : Group) (d : gmap string (list byte)) (key : string)
    (now : Z)
  : exec (ByteView * option error * Group * gmap string (list byte)) :=
  if decide (key = "")
  then Ret (mkByteView [], Some (errors_New "key is required"), g, d)
  else
    '(v, ok, c) ← cache_get (mainCache g) key;
    let g := set_mainCache g c in
    if (ok : bool) then Ret (v, None, g, d)
    else load g d key now.

Definition Group_Delete (g : Group) (d : gmap string (list byte))
    (key : string) (now : Z)
  : exec (option error * Group * gmap string (list byte)) :=
  if decide (key = "")
  then Ret (Some (errors_New "key is required"), g, d)
  else
    '(_, c, d) ← cache_delete (mainCache g) d key now;
    Ret (None, set_mainCache g c, d).

Definition Group_Backup (g : Group) (d : gmap string (list byte)) (now : Z)
  : exec (option error * Group * gmap string (list byte)) :=
  '(err, c, d) ← cache_backup (mainCache g) d now;
  Ret (err, set_mainCache g c, d).

(** *** The HTTP handler for a key *)

Definition StatusOK : Z := 200.
Definition StatusNotFound : Z := 404.
Definition StatusInternalServerError : Z := 500.

(** What the handler left in the [http.ResponseWriter]: a handler that
    never sets a status answers 200. *)
Record Response := mkResponse {
  status : Z;
  content_type : string;
  body : list byte;
}.

(** [http.Error(w, msg, code)] *)
Definition http_Error (msg : string) (code : Z) : Response :=
  {| status := code;
     content_type := "text/plain; charset=utf-8";
     body := String.list_byte_of_string (msg +:+ String (Ascii.ascii_of_nat 10) "") |}.

Definition error_message (e : error) : string :=
  (fix go e := match e with
               | io_EOF => "EOF"
               | os_ErrClosed => "file already closed"
               | os_ErrInvalid => "invalid argument"
               | os_ErrNotExist => "file does not exist"
               | os_ErrTooLarge => "file too large"
               | errors_New msg => msg
               | fmt_Errorf msg e => msg +:+ ": " +:+ go e
               end) e.

Section ServeKey.
(** [proto.Marshal] on a [KVResponse], from the protobuf library. *)
Context (Marshal : KVResponse -> res (list byte)).

(** [(p *HTTPPool) ServeKey(w, r, groupName, key)] for a request with the
    method [method]; a group is reached through the pointer the registry
    holds, so that what the handler does to the group stays in the
    registry. *)
Definition ServeKey (method : string) (groupName key : string) (now : Z)
    (wd : World) : exec (Response * World) :=
  match GetGroup groupName wd with
  | None =>
      Ret (http_Error ("no such group: " +:+ groupName) StatusNotFound, wd)
  | Some group =>
      if decide (method = "GET") then
        '(view, err, group, d) ← Group_Get group (disk wd) key now;
        let wd := {| groups := <[groupName := group]> (groups wd);
                     disk := d |} in
        (* body, err := proto.Marshal(...): err is assigned anew *)
        match Marshal {| KVResponse_Value := ByteSlice view |} with
        | Err err =>
            Ret (http_Error (error_message err) StatusInternalServerError, wd)
        | Ok body =>
            Ret ({| status := StatusOK;
                    content_type := "application/octet-stream";
                    body := body |}, wd)
        end
      else if decide (method = "DELETE") then
        '(err, group, d) ← Group_Delete group (disk wd) key now;
        let wd := {| groups := <[groupName := group]> (groups wd);
                     disk := d |} in
        match err with
        | Some err =>
            Ret (http_Error (error_message err) StatusInternalServerError, wd)
        | None => Ret ({| status := StatusOK; content_type := ""; body := [] |}, wd)
        end
      else Ret ({| status := StatusOK; content_type := ""; body := [] |}, wd)
  end.

End ServeKey.

End mycache.

(** * Vocabulary of the properties *)

Import persistence.

(** The fields of an entry are in the range of their Go types. *)
Definition entry_in_range (e : Entry) : Prop :=
  0 <= KeySize e < 2 ^ 32 /\ 0 <= ValueSize e < 2 ^ 32 /\
  0 <= Mark e < 2 ^ 32 /\ 0 <= Timestamp e < 2 ^ 64.

(** The header of [e] on the wire. *)
Definition header_bytes (e : Entry) : list byte :=
  PutUint32 (KeySize e) ++ PutUint32 (ValueSize e) ++ PutUint32 (Mark e)
  ++ PutUint64 (Timestamp e).


(** An entry as [NewEntry] builds it from a key and a value that fit the
    32-bit size fields. *)
Definition entry_wf (e : Entry) : Prop :=
  entry_in_range e /\
  KeySize e = Z.of_nat (length (Key e)) /\
  ValueSize e = Z.of_nat (length (Value e)) /\
  KeySize e + ValueSize e + HeaderSize < 2 ^ 32.

(** The bytes of a well-formed entry in the log. *)
Definition record_bytes (e : Entry) : list byte :=
  header_bytes e ++ Key e ++ Value e.

(** The bytes of a log that holds the records [rs]. *)
Fixpoint log_bytes (rs : list Entry) : list byte :=
  match rs with
  | [] => []
  | e :: rs => record_bytes e ++ log_bytes rs
  end.

(** What a replay of the records [rs], the first of them at offset [off],
    makes of the index [idx]: a DEL record removes its key, any other
    record binds its key to the offset of the record. *)
Fixpoint replay_log (rs : list Entry) (off : Z) (idx : gmap string Z)
  : gmap string Z :=
  match rs with
  | [] => idx
  | e :: rs =>
      replay_log rs (off + Size e)
        (if decide (Mark e = DEL)
         then delete (String.string_of_list_byte (Key e)) idx
         else <[String.string_of_list_byte (Key e) := off]> idx)
  end.

(** The state of a write sequence in directory [dir] whose log holds the
    records [rs]. *)
Definition log_state (dir : string) (rs : list Entry) (w : WriteSequence)
    (d : gmap string (list byte)) : Prop :=
  dataPath w = dir /\
  databaseFile w
  = Some {| File := mkFile (path_Join dir DataFileName) false;
            offset := Z.of_nat (length (log_bytes rs)) |} /\
  d !! path_Join dir DataFileName = Some (log_bytes rs) /\
  Forall entry_wf rs /\
  Z.of_nat (length (log_bytes rs)) <= MaxInt64 /\
  index w = replay_log rs 0 ∅ /\
  (forall key off, index w !! key = Some off ->
     Z.of_nat (length (String.list_byte_of_string key)) + HeaderSize < 2 ^ 32).

(** Every record of the log is a PUT or a DEL record. *)
Definition log_marks (rs : list Entry) : Prop :=
  Forall (fun e => Mark e = PUT \/ Mark e = DEL) rs.

(** In the log [rs] the last record with the key [key] is a PUT record,
    and it starts at offset [off]. *)
Definition last_put (rs : list Entry) (key : string) (off : Z) : Prop :=
  exists rs1 e rs2,
    rs = rs1 ++ e :: rs2 /\
    Mark e = PUT /\
    String.string_of_list_byte (Key e) = key /\
    off = Z.of_nat (length (log_bytes rs1)) /\
    Forall (fun e' => String.string_of_list_byte (Key e') <> key) rs2.

(** A [Put] whose key and value fit the 32-bit size fields of a record. *)
Definition Op_fits (op : Op) : Prop :=
  match op with
  | OpPut key value _ =>
      Z.of_nat (length key) + Z.of_nat (length value) + HeaderSize < 2 ^ 32
  | OpDelete _ _ => True
  end.

(** A result that a scenario expects to be no error. *)
Definition expect {A} (r : res A) : exec A :=
  match r with
  | Ok a => Ret a
  | Err _ => Panic
  end.

(** [NewWriteSequence] in an empty directory, [Put("x", "1")], [Close],
    [Merge]: the index and the data file before [Merge], the error that
    [Merge] returns, and the index and the disk after it. *)
Definition Put_Close_Merge
  : exec (option (gmap string Z) * option (list byte) * option error
          * option (gmap string Z) * gmap string (list byte)) :=
  '(r, d) ← NewWriteSequence "/p/scores" "" 1 ∅;
  w ← expect r;
  '(_, w, d) ← Put (Some w) d (String.list_byte_of_string "x")
                 (String.list_byte_of_string "1") 2;
  '(_, w) ← Close w;
  '(err, w', d') ← Merge w d;
  Ret (index <$> (w : option WriteSequence),
       (d : gmap string (list byte)) !! "/p/scores/append.data",
       err, index <$> (w' : option WriteSequence), d').

(** *** Groups used in the scenarios *)

Section scenarios.
Import mycache.

(** The loader of the example program: it knows "Tom" and nobody else. *)
Definition db_getter : Getter := fun key =>
  if decide (key = "Tom") then Ok (String.list_byte_of_string "630")
  else Err (errors_New (key +:+ " not exist")).

Definition scores_conf (persist : bool) (path : string) : Conf :=
  {| Name := "scores"; EnablePersistence := persist;
     PersistencePath := path; LoadPersistentFile := false;
     FullPersistentFile := ""; IncrPersistentFile := "" |}.

Definition empty_World : World := {| groups := ∅; disk := ∅ |}.

(** A group "scores" that persists under "/p" and whose data file has been
    closed, as [Merge] leaves it when it cannot open the data file again. *)
Definition scores_with_closed_log : exec (Group * World) :=
  '(g, wd) ← NewGroup (scores_conf true "/p") 2048 (Some db_getter) 1
               empty_World;
  '(_, w) ← persistence.Close (writeSequence (mainCache g));
  Ret (set_mainCache g (set_writeSequence (mainCache g) w), wd).

(** The load of [key] in [g] ends with the local loader: there is no peer
    picker, or the picker keeps the key on this node, or the peer it picks
    fails. *)
Definition served_locally (g : Group) (key : string) : Prop :=
  match peers g with
  | None => True
  | Some pick =>
      match pick key with
      | None => True
      | Some peer =>
          exists e,
            peer {| Request_Group := name g; Request_Key := key |} = Err e
      end
  end.

(** Base-128 varint of protobuf, least significant group first. *)
Fixpoint varint (fuel : nat) (n : Z) : list byte :=
  match fuel with
  | O => []
  | S fuel =>
      if decide (n < 128) then [byte_of_Z n]
      else byte_of_Z (n mod 128 + 128) :: varint fuel (n / 128)
  end.

(** The proto3 wire form of [KVResponse{value}] (field 1, length
    delimited); an empty value is left out.  It stands for [proto.Marshal]
    in the scenarios. *)
Definition wire_KVResponse (r : KVResponse) : res (list byte) :=
  match KVResponse_Value r with
  | [] => Ok []
  | value =>
      Ok (x0a :: varint 10 (Z.of_nat (length value)) ++ value)
  end.

(** A process with the group "scores", without persistence. *)
Definition scores_World : exec World :=
  '(_, wd) ← NewGroup (scores_conf false "") 2048 (Some db_getter) 1
               empty_World;
  Ret wd.

(** The state C10 is about: the persistence flag of the shard is set and
    its write sequence is nil. *)
Definition nil_log (g : Group) : Prop :=
  writeSequence (mainCache g) = None /\
  enablePersistence (mainCache g) = true.

End scenarios.

(** *** Single flight: generations *)

Section generations.
Import singleflight.
Context {R : Type}.

(** How often [fn] was called for the call record [c]. *)
Definition calls_for (c : nat) (fs : list nat) : nat :=
  length (filter (fun c' => c' = c) fs).

(** The goroutine at [p] has put the call record [c] into the map under
    [key] and has not removed it yet: it is inside the generation [c] of
    [key], as the one that opened it. *)
Definition holds (p : point R) (key : string) (c : nat) : Prop :=
  match p with
  | Registered k c' | Running k c' | Stored k c' | Released k c' =>
      k = key /\ c' = c
  | _ => False
  end.

(** What a goroutine at [p] can rely on, given the heap of call records
    and the calls of [fn] so far. *)
Definition point_ok (cs : list (call R)) (fs : list nat) (p : point R)
  : Prop :=
  match p with
  | Entering _ => True
  | Waiting c => (c < length cs)%nat
  | Registered _ c =>
      exists cl, cs !! c = Some cl /\ wg cl = 1%nat /\ calls_for c fs = 0%nat
  | Running _ c => exists cl, cs !! c = Some cl /\ wg cl = 1%nat
  | Stored _ c =>
      exists cl, cs !! c = Some cl /\ wg cl = 1%nat /\ is_Some (val_err cl)
  | Released _ c => exists cl, cs !! c = Some cl /\ wg cl = 0%nat
  | Removed c => exists cl, cs !! c = Some cl /\ wg cl = 0%nat
  | Returned c r =>
      exists cl, cs !! c = Some cl /\ wg cl = 0%nat /\ val_err cl = r
  end.

(** The invariant of the machine. *)
Record inv (s : state R) : Prop := mkInv {
  inv_points : forall t p,
    goroutines s !! t = Some p ->
    point_ok (calls (group s)) (fn_calls s) p;
  inv_map : forall key c,
    m (group s) !! key = Some c <->
    exists t p, goroutines s !! t = Some p /\ holds p key c;
  inv_unique : forall t1 t2 p1 p2 k1 k2 c,
    goroutines s !! t1 = Some p1 -> goroutines s !! t2 = Some p2 ->
    holds p1 k1 c -> holds p2 k2 c -> t1 = t2;
  inv_done : forall c cl,
    calls (group s) !! c = Some cl -> wg cl = 0%nat -> is_Some (val_err cl);
  inv_fn_alloc : forall c,
    c ∈ fn_calls s -> (c < length (calls (group s)))%nat;
  inv_fn_once : forall c, (calls_for c (fn_calls s) <= 1)%nat;
}.

End generations.
(** *** The log as a store of keys and values *)

(** The value of every key after the records [rs] on top of [m]: a DEL
    record removes its key, any other record binds its key to its
    value. *)
Fixpoint replay_values (rs : list Entry) (m : gmap string (list byte))
  : gmap string (list byte) :=
  match rs with
  | [] => m
  | e :: rs =>
      replay_values rs
        (if decide (Mark e = DEL)
         then delete (String.string_of_list_byte (Key e)) m
         else <[String.string_of_list_byte (Key e) := Value e]> m)
  end.

(** What [Put] and [Delete] are meant to do to a store; [Delete] refuses
    the empty key. *)
Definition store_Op (op : Op) (m : gmap string (list byte))
  : gmap string (list byte) :=
  match op with
  | OpPut key value _ => <[String.string_of_list_byte key := value]> m
  | OpDelete key _ =>
      if decide (length key = 0%nat) then m
      else delete (String.string_of_list_byte key) m
  end.

Fixpoint store_Ops (ops : list Op) (m : gmap string (list byte))
  : gmap string (list byte) :=
  match ops with
  | [] => m
  | op :: ops => store_Ops ops (store_Op op m)
  end.

(** The bytes that the record of an operation takes in the log. *)
Definition op_bytes (op : Op) : Z :=
  match op with
  | OpPut key value _ =>
      Z.of_nat (length key) + Z.of_nat (length value) + HeaderSize
  | OpDelete key _ => Z.of_nat (length key) + HeaderSize
  end.

Definition ops_bytes (ops : list Op) : Z :=
  foldr (fun op acc => op_bytes op + acc) 0 ops.

(** What [Get] answers for a key that the store binds to [v]. *)
Definition Get_result (v : option (list byte)) : res (list byte) :=
  match v with
  | Some v => Ok v
  | None => Err (errors_New "key not exist")
  end.


(** *** The LRU as a list of entries *)

Section lru_vocabulary.
Import lru.
Context {V : Type} `{!ComputableValue V}.

(** [Σ (len(key) + value.Len())] over a list of entries. *)
Definition bytes_of (es : list (string * V)) : Z :=
  foldr (fun kv acc => len kv.1 + Len kv.2 + acc) 0 es.

(** The cache [c] holds the entries [es], the most recently used first:
    the list and the map of [c] agree, every element of the list holds an
    entry, and the counter is the sum of the sizes, which are not negative
    and stay in [int64]. *)
Record represents (c : Cache V) (es : list (string * V)) : Prop :=
  mkRepresents {
  rep_ll : Forall2 (fun e kv => elements c !! e = Some (entry kv.1 kv.2) /\
                                  cache c !! kv.1 = Some e) (ll c) es;
  rep_nodup : NoDup (ll c);
  rep_cache : forall k e,
    cache c !! k = Some e ->
    e ∈ ll c /\ exists v, elements c !! e = Some (entry k v);
  rep_nbytes : nbytes c = bytes_of es;
  rep_sizes : Forall (fun kv => 0 <= Len kv.2) es;
  rep_max : bytes_of es <= MaxInt64;
}.

(** [represents], within the bound of the cache when it has one. *)
Definition consistent (c : Cache V) (es : list (string * V)) : Prop :=
  represents c es /\ (0 < maxBytes c -> bytes_of es <= maxBytes c).

(** *** A cache that is a plain list

    What the operations do to the list of entries; [Add] is the one of a
    key that the list does not hold. *)

(** The longest prefix of [es] whose sizes add up to [maxBytes] at most. *)
Fixpoint fit (maxBytes : Z) (es : list (string * V)) : list (string * V) :=
  match es with
  | [] => []
  | kv :: es =>
      if decide (len kv.1 + Len kv.2 <= maxBytes)
      then kv :: fit (maxBytes - (len kv.1 + Len kv.2)) es
      else []
  end.

Definition model_Op (maxBytes : Z) (op : Op V) (es : list (string * V))
  : list (string * V) :=
  match op with
  | OpAdd k v =>
      if decide (0 < maxBytes /\ maxBytes < len k + Len v) then es
      else if decide (0 < maxBytes) then fit maxBytes ((k, v) :: es)
      else (k, v) :: es
  | OpGet k =>
      filter (fun kv => kv.1 = k) es ++ filter (fun kv => kv.1 ≠ k) es
  | OpRemove k =>
      if decide (k = "") then es else filter (fun kv => kv.1 ≠ k) es
  | OpRemoveOldest => take (length es - 1) es
  end.

(** An [Add] is of a new key, of a value whose length is not negative,
    and keeps the sum of the sizes in [int64]. *)
Definition op_ok (op : Op V) (es : list (string * V)) : Prop :=
  match op with
  | OpAdd k v =>
      (k ∉ es.*1) /\ 0 <= Len v /\ bytes_of es + (len k + Len v) <= MaxInt64
  | _ => True
  end.

Fixpoint model_Ops (maxBytes : Z) (ops : list (Op V))
    (es : list (string * V)) : list (string * V) :=
  match ops with
  | [] => es
  | op :: ops => model_Ops maxBytes ops (model_Op maxBytes op es)
  end.

Fixpoint ops_ok (maxBytes : Z) (ops : list (Op V))
    (es : list (string * V)) : Prop :=
  match ops with
  | [] => True
  | op :: ops => op_ok op es /\ ops_ok maxBytes ops (model_Op maxBytes op es)
  end.

(** The cache that the new-key branch of [Add] builds from the entries
    [es], the last one first. *)
Fixpoint cache_of (maxBytes : Z) (onEvicted : bool)
    (es : list (string * V)) : Cache V :=
  match es with
  | [] => New maxBytes onEvicted
  | kv :: es =>
      let c := cache_of maxBytes onEvicted es in
      set_nbytes (int64 (nbytes c + int64 (len kv.1 + Len kv.2)))
        (set_cache (<[kv.1 := length (elements c)]> (cache c))
           (PushFront (entry kv.1 kv.2) c).2)
  end.

End lru_vocabulary.

(** * Properties *)

(** ** Machine integers and big-endian bytes *)

Lemma uint32_small z : 0 <= z < 2 ^ 32 -> uint32 z = z.
Proof. intros. unfold uint32. by rewrite Z.mod_small. Qed.

Lemma uint64_small z : 0 <= z < 2 ^ 64 -> uint64 z = z.
Proof. intros. unfold uint64. by rewrite Z.mod_small. Qed.

Lemma int64_small z : - 2 ^ 63 <= z < 2 ^ 63 -> int64 z = z.
Proof. intros. unfold int64. rewrite Z.mod_small; lia. Qed.

Lemma uint32_range z : 0 <= uint32 z < 2 ^ 32.
Proof. unfold uint32. apply Z.mod_pos_bound. lia. Qed.

Lemma uint64_range z : 0 <= uint64 z < 2 ^ 64.
Proof. unfold uint64. apply Z.mod_pos_bound. lia. Qed.

Lemma Z_of_byte_range b : 0 <= Z_of_byte b < 256.
Proof.
  unfold Z_of_byte. pose proof (Byte.to_N_bounded b). lia.
Qed.

Lemma Z_of_byte_of_Z z : Z_of_byte (byte_of_Z z) = z mod 256.
Proof.
  unfold Z_of_byte, byte_of_Z.
  assert (Hr : 0 <= z mod 256 < 256) by (apply Z.mod_pos_bound; lia).
  destruct (Byte.of_N (Z.to_N (z mod 256))) as [b|] eqn:E.
  - apply Byte.to_of_N in E. simpl. rewrite E. lia.
  - apply Byte.of_N_None_iff in E. lia.
Qed.

Lemma length_be_bytes n v : length (be_bytes n v) = n.
Proof.
  revert v. induction n as [|n IH]; intros v; simpl; [done|].
  rewrite length_app, IH. simpl. lia.
Qed.

Lemma be_value_be_bytes n v : be_value (be_bytes n v) = v mod 256 ^ Z.of_nat n.
Proof.
  revert v. induction n as [|n IH]; intros v.
  - simpl. by rewrite Z.mod_1_r.
  - unfold be_value in *. simpl be_bytes. rewrite fold_left_app. simpl.
    rewrite IH, Z_of_byte_of_Z.
    rewrite Nat2Z.inj_succ, Z.pow_succ_r by lia.
    rewrite Z.rem_mul_r by lia.
    lia.
Qed.

Lemma Uint32_PutUint32 v l : Uint32 (PutUint32 v ++ l) = uint32 v.
Proof.
  unfold Uint32, PutUint32.
  rewrite take_app_length' by (by rewrite length_be_bytes).
  by rewrite be_value_be_bytes.
Qed.

Lemma Uint64_PutUint64 v l : Uint64 (PutUint64 v ++ l) = uint64 v.
Proof.
  unfold Uint64, PutUint64.
  rewrite take_app_length' by (by rewrite length_be_bytes).
  by rewrite be_value_be_bytes.
Qed.

(** ** Outcomes *)

Lemma bind_Ret {A B} (a : A) (k : A -> exec B) : (Ret a ≫= k) = k a.
Proof. reflexivity. Qed.

Lemma bind_Panic {A B} (k : A -> exec B) : (Panic ≫= k) = Panic.
Proof. reflexivity. Qed.

(** ** Slices *)

Lemma slice_app_exact (a l : list byte) (lo hi : Z) :
  Z.of_nat (length a) = lo -> slice (a ++ l) lo hi = slice l 0 (hi - lo).
Proof.
  intros <-. unfold slice. rewrite Nat2Z.id, drop_app_length.
  by rewrite Z.sub_0_r.
Qed.

Lemma slice_prefix (a l : list byte) (n : Z) :
  Z.of_nat (length a) = n -> slice (a ++ l) 0 n = a.
Proof.
  intros <-. unfold slice. rewrite Z.sub_0_r, Nat2Z.id.
  change (Z.to_nat 0) with 0%nat. by rewrite drop_0, take_app_length.
Qed.

Lemma slice_middle (pre mid post : list byte) (lo hi : Z) :
  Z.of_nat (length pre) = lo -> Z.of_nat (length mid) = hi - lo ->
  slice (pre ++ mid ++ post) lo hi = mid.
Proof.
  intros Hlo Hhi. rewrite slice_app_exact by done. by apply slice_prefix.
Qed.

Lemma length_copied n src : 0 <= n -> Z.of_nat (length (copied n src)) = n.
Proof.
  intros. unfold copied. rewrite length_app, length_take, length_replicate. lia.
Qed.

Lemma copied_exact n src : Z.of_nat (length src) = n -> copied n src = src.
Proof.
  intros <-. unfold copied. rewrite Nat2Z.id, Nat.sub_diag, take_ge by lia.
  simpl. apply app_nil_r.
Qed.

(** Copying into the zeroed tail of a buffer. *)
Lemma copy_at_zeroed (pre : list byte) (m : nat) (lo hi : Z) (src : list byte) :
  Z.of_nat (length pre) = lo -> lo <= hi -> hi - lo <= Z.of_nat m ->
  copy_at (pre ++ replicate m x00) lo hi src
  = Ret ((pre ++ copied (hi - lo) src)
         ++ replicate (m - Z.to_nat (hi - lo)) x00).
Proof.
  intros Hlo Hle Hm. unfold copy_at.
  rewrite decide_True
    by (rewrite length_app, length_replicate; lia).
  f_equal. subst lo. rewrite Nat2Z.id, take_app_length.
  rewrite <- (assoc_L (++)). f_equal.
  rewrite drop_app_ge by lia.
  replace (length pre + _ - length pre)%nat
    with (Z.to_nat (hi - Z.of_nat (length pre)) `min` length src)%nat by lia.
  rewrite drop_replicate. unfold copied.
  rewrite <- (assoc_L (++)), <- replicate_add.
  destruct (decide (Z.to_nat (hi - Z.of_nat (length pre)) <= length src)%nat).
  - rewrite Nat.min_l by lia. do 2 f_equal. lia.
  - rewrite Nat.min_r by lia. rewrite !take_ge by lia. do 2 f_equal. lia.
Qed.

Lemma copy_at_zeroed_nil (m : nat) (hi : Z) (src : list byte) :
  0 <= hi <= Z.of_nat m ->
  copy_at (replicate m x00) 0 hi src
  = Ret (copied hi src ++ replicate (m - Z.to_nat hi) x00).
Proof.
  intros. pose proof (copy_at_zeroed [] m 0 hi src) as H1.
  rewrite Z.sub_0_r in H1. apply H1; simpl; lia.
Qed.

(** ** Records: encoding and decoding *)

Lemma length_header_bytes e : length (header_bytes e) = 20%nat.
Proof.
  unfold header_bytes, PutUint32, PutUint64.
  by rewrite !length_app, !length_be_bytes.
Qed.

Lemma Size_fits e :
  0 <= KeySize e -> 0 <= ValueSize e ->
  KeySize e + ValueSize e + HeaderSize < 2 ^ 32 ->
  Size e = KeySize e + ValueSize e + HeaderSize.
Proof.
  intros. unfold Size, HeaderSize in *.
  rewrite uint32_small by lia. rewrite uint64_small; lia.
Qed.

(** When the sizes do not wrap, [Encode] lays out header, key and value. *)
Lemma Encode_fits e :
  0 <= KeySize e -> 0 <= ValueSize e ->
  KeySize e + ValueSize e + HeaderSize < 2 ^ 32 ->
  Encode e = Ret (header_bytes e ++ copied (KeySize e) (Key e)
                  ++ copied (ValueSize e) (Value e)).
Proof.
  intros HK HV Hfit. unfold Encode. rewrite Size_fits by done.
  unfold HeaderSize in *. rewrite (uint32_small (20 + _)) by lia.
  unfold make_bytes.
  rewrite copy_at_zeroed_nil by lia.
  rewrite bind_Ret. cbv beta.
  rewrite copy_at_zeroed;
    [| rewrite length_copied; lia | lia | lia ].
  rewrite bind_Ret. cbv beta.
  do 4 (rewrite copy_at_zeroed;
    [| rewrite !length_app, !Nat2Z.inj_add, !length_copied; simpl; lia
     | lia | lia ];
    rewrite bind_Ret; cbv beta).
  f_equal.
  replace (_ - _ - _ - _ - _ - _ - _)%nat with 0%nat by lia.
  simpl replicate. rewrite app_nil_r.
  rewrite !copied_exact
    by (unfold PutUint32, PutUint64; rewrite length_be_bytes; lia).
  unfold header_bytes. rewrite <- !(assoc_L (++)).
  do 5 f_equal; f_equal; lia.
Qed.

Lemma copy_at_length buf lo hi src buf' :
  copy_at buf lo hi src = Ret buf' -> length buf' = length buf.
Proof.
  unfold copy_at. case_decide as Hd; [|done]. intros [= <-].
  rewrite !length_app, !length_take, length_drop. lia.
Qed.

Lemma copy_at_cases buf lo hi src :
  copy_at buf lo hi src = Panic \/
  exists buf', copy_at buf lo hi src = Ret buf' /\ length buf' = length buf.
Proof.
  destruct (copy_at buf lo hi src) as [buf'| |] eqn:E.
  - right. exists buf'. split; [done|]. by eapply copy_at_length.
  - by left.
  - unfold copy_at in E. by case_decide.
Qed.

(** When the [uint32] sums wrap, one of the slice expressions of [Encode]
    is out of range. *)
Lemma Encode_wraps e :
  0 <= KeySize e < 2 ^ 32 -> 0 <= ValueSize e < 2 ^ 32 ->
  2 ^ 32 <= KeySize e + ValueSize e + HeaderSize ->
  Encode e = Panic.
Proof.
  intros HK HV Hwrap. unfold Encode, HeaderSize in *.
  assert (Hsz : Size e <= KeySize e + ValueSize e + 20 - 2 ^ 32).
  { unfold Size, HeaderSize.
    pose proof (uint32_range (KeySize e + ValueSize e + 20)).
    rewrite uint64_small by lia. unfold uint32.
    pose proof (Z.div_mod (KeySize e + ValueSize e + 20) (2 ^ 32)
                  ltac:(lia)).
    assert (1 <= (KeySize e + ValueSize e + 20) / 2 ^ 32)
      by (apply Z.div_le_lower_bound; lia).
    lia. }
  set (b0 := make_bytes (Size e)).
  assert (Hb0 : Z.of_nat (length b0) = Size e).
  { unfold b0, make_bytes. rewrite length_replicate.
    pose proof (uint64_range (uint32 (KeySize e + ValueSize e + 20))).
    unfold Size, HeaderSize. lia. }
  destruct (copy_at_cases b0 0 4 (PutUint32 (KeySize e)))
    as [->|(b1 & -> & E1)]; [done|]. rewrite bind_Ret.
  destruct (copy_at_cases b1 4 8 (PutUint32 (ValueSize e)))
    as [->|(b2 & -> & E2)]; [done|]. rewrite bind_Ret.
  destruct (copy_at_cases b2 8 12 (PutUint32 (Mark e)))
    as [->|(b3 & -> & E3)]; [done|]. rewrite bind_Ret.
  destruct (copy_at_cases b3 12 20 (PutUint64 (Timestamp e)))
    as [->|(b4 & -> & E4)]; [done|]. rewrite bind_Ret.
  destruct (copy_at_cases b4 20 (uint32 (20 + KeySize e)) (Key e))
    as [->|(b5 & E5 & _)]; [done|].
  exfalso. unfold copy_at in E5. case_decide as Hd; [|done].
  destruct Hd as [[_ Hlo] Hhi].
  assert (Z.of_nat (length b4) = Size e) by congruence.
  destruct (decide (20 + KeySize e < 2 ^ 32)).
  - rewrite uint32_small in Hhi by lia. lia.
  - assert (uint32 (20 + KeySize e) = 20 + KeySize e - 2 ^ 32).
    { unfold uint32. symmetry. apply Z.mod_unique_pos with (q := 1); lia. }
    lia.
Qed.

Lemma Decode_header e rest :
  Decode (header_bytes e ++ rest)
  = Ok {| Key := []; Value := [];
          KeySize := uint32 (KeySize e); ValueSize := uint32 (ValueSize e);
          Mark := uint32 (Mark e); Timestamp := uint64 (Timestamp e) |}.
Proof.
  unfold Decode.
  rewrite decide_False
    by (rewrite length_app, length_header_bytes; unfold HeaderSize; lia).
  unfold header_bytes, HeaderSize. rewrite <- !(assoc_L (++)).
  assert (H4 : forall v, Z.of_nat (length (PutUint32 v)) = 4)
    by (intros; unfold PutUint32; by rewrite length_be_bytes).
  assert (H8 : forall v, Z.of_nat (length (PutUint64 v)) = 8)
    by (intros; unfold PutUint64; by rewrite length_be_bytes).
  f_equal. f_equal.
  - rewrite slice_prefix by apply H4.
    by rewrite <- (app_nil_r (PutUint32 _)), Uint32_PutUint32.
  - rewrite slice_middle by (rewrite ?H4; done).
    by rewrite <- (app_nil_r (PutUint32 _)), Uint32_PutUint32.
  - rewrite (app_assoc (PutUint32 _) (PutUint32 _)).
    rewrite slice_middle
      by (rewrite ?length_app, ?Nat2Z.inj_add, ?H4; done).
    by rewrite <- (app_nil_r (PutUint32 _)), Uint32_PutUint32.
  - rewrite (app_assoc (PutUint32 _) (PutUint32 _)).
    rewrite (app_assoc (_ ++ _) (PutUint32 _)).
    rewrite slice_middle
      by (rewrite ?length_app, ?Nat2Z.inj_add, ?H4, ?H8; done).
    by rewrite <- (app_nil_r (PutUint64 _)), Uint64_PutUint64.
Qed.

(** Decoding an entry in range gives back its four header fields; key and
    value stay empty. *)
Lemma Decode_header_in_range e rest :
  entry_in_range e ->
  Decode (header_bytes e ++ rest)
  = Ok {| Key := []; Value := [];
          KeySize := KeySize e; ValueSize := ValueSize e;
          Mark := Mark e; Timestamp := Timestamp e |}.
Proof.
  intros (HK & HV & HM & HT). rewrite Decode_header.
  by rewrite !uint32_small, uint64_small.
Qed.

(** ** Files *)

Lemma ReadAt_middle f d (pre mid post : list byte) :
  closed f = false -> d !! Name f = Some (pre ++ mid ++ post) ->
  File_ReadAt f d (Z.of_nat (length mid)) (Z.of_nat (length pre)) = Ok mid.
Proof.
  intros Hc Hd. unfold File_ReadAt. rewrite Hc, Hd.
  rewrite decide_False by lia.
  destruct mid as [|b mid].
  - by rewrite decide_True by (simpl; lia).
  - rewrite decide_False by (simpl; lia).
    rewrite decide_True by (rewrite !length_app; lia).
    f_equal. apply slice_middle; lia.
Qed.

Lemma Encode_wf e : entry_wf e -> Encode e = Ret (record_bytes e).
Proof.
  intros ((HK & HV & _) & HKl & HVl & Hfit).
  rewrite Encode_fits by lia. unfold record_bytes.
  by rewrite !copied_exact.
Qed.

Lemma Size_wf e :
  entry_wf e -> Size e = Z.of_nat (length (record_bytes e)).
Proof.
  intros ((HK & HV & _) & HKl & HVl & Hfit).
  rewrite Size_fits by lia. unfold record_bytes.
  rewrite !length_app, length_header_bytes. unfold HeaderSize. lia.
Qed.

Lemma Size_wf_bounds e : entry_wf e -> 20 <= Size e < 2 ^ 32.
Proof.
  intros ((HK & HV & _) & HKl & HVl & Hfit).
  rewrite Size_fits by lia. unfold HeaderSize in *. lia.
Qed.

Lemma NewEntry_wf key value mark ts :
  Z.of_nat (length key) + Z.of_nat (length value) + HeaderSize < 2 ^ 32 ->
  0 <= mark < 2 ^ 32 -> 0 <= ts < 2 ^ 64 ->
  entry_wf (NewEntry key value mark ts).
Proof.
  intros Hfit Hm Ht. unfold HeaderSize in *.
  unfold entry_wf, entry_in_range, NewEntry; simpl.
  rewrite !uint32_small by lia. unfold HeaderSize. lia.
Qed.

(** Reading back a record that lies in the file. *)
Lemma Read_record f d (pre post : list byte) e :
  closed (File f) = false ->
  d !! Name (File f) = Some (pre ++ record_bytes e ++ post) ->
  entry_wf e ->
  Z.of_nat (length pre) + Size e <= MaxInt64 ->
  Read f d (Z.of_nat (length pre)) = Ok e.
Proof.
  intros Hc Hd Hwf Hmax.
  pose proof (Size_wf_bounds e Hwf) as Hsz.
  pose proof (Size_wf e Hwf) as Hlen.
  destruct Hwf as (Hr & HKl & HVl & Hfit).
  pose proof Hr as (HK & HV & _).
  unfold Read, HeaderSize, MaxInt64 in *.
  unfold record_bytes in Hd, Hlen.
  rewrite !length_app, length_header_bytes in Hlen.
  (* header *)
  pose proof (ReadAt_middle (File f) d pre (header_bytes e)
                (Key e ++ Value e ++ post) Hc) as H1.
  rewrite length_header_bytes in H1. change (Z.of_nat 20) with 20 in H1.
  rewrite H1 by (by rewrite Hd, <- !(assoc_L (++))). clear H1.
  rewrite <- (app_nil_r (header_bytes e)), Decode_header_in_range by done.
  simpl.
  (* key *)
  rewrite int64_small by lia.
  pose proof (ReadAt_middle (File f) d (pre ++ header_bytes e) (Key e)
                (Value e ++ post) Hc) as H2.
  rewrite length_app, length_header_bytes, Nat2Z.inj_add, <- HKl in H2.
  change (Z.of_nat 20) with 20 in H2.
  rewrite H2 by (by rewrite Hd, <- !(assoc_L (++))). clear H2.
  (* value *)
  rewrite (uint32_small (20 + _)) by lia.
  rewrite (int64_small (20 + _)) by lia.
  rewrite int64_small by lia.
  pose proof (ReadAt_middle (File f) d (pre ++ header_bytes e ++ Key e)
                (Value e) post Hc) as H3.
  rewrite !length_app, length_header_bytes, !Nat2Z.inj_add, <- HKl, <- HVl
    in H3.
  change (Z.of_nat 20) with 20 in H3.
  rewrite H3 by (by rewrite Hd, <- !(assoc_L (++))). clear H3.
  by destruct e.
Qed.

Lemma length_write_bytes_prefix content off :
  length (take (Z.to_nat off)
            (content ++ replicate (Z.to_nat off - length content) x00))
  = Z.to_nat off.
Proof. rewrite length_take, length_app, length_replicate. lia. Qed.

(** Appending at the end of the file. *)
Lemma write_bytes_end content data :
  write_bytes content (Z.of_nat (length content)) data = content ++ data.
Proof.
  unfold write_bytes. rewrite Nat2Z.id, Nat.sub_diag. simpl replicate.
  rewrite app_nil_r, take_ge by lia. rewrite drop_ge by lia.
  by rewrite app_nil_r.
Qed.

(** ** DatabaseFile.Write *)

Lemma Encode_in_range e :
  entry_in_range e -> KeySize e + ValueSize e + HeaderSize < 2 ^ 32 ->
  exists data, Encode e = Ret data /\ Z.of_nat (length data) = Size e.
Proof.
  intros (HK & HV & _) Hfit. eexists. split; [by apply Encode_fits; lia|].
  rewrite Size_fits by lia.
  rewrite !length_app, !Nat2Z.inj_add, length_header_bytes, !length_copied
    by lia.
  unfold HeaderSize. lia.
Qed.

Lemma Write_at_offset f d entry content :
  closed (File f) = false ->
  d !! Name (File f) = Some content ->
  0 <= offset f ->
  entry_in_range entry ->
  KeySize entry + ValueSize entry + HeaderSize < 2 ^ 32 ->
  offset f + Size entry <= MaxInt64 ->
  exists data,
    Encode entry = Ret data /\
    Z.of_nat (length data) = Size entry /\
    Write f d entry
    = Ret (Ok (offset f),
           {| File := File f; offset := offset f + Size entry |},
           <[Name (File f) := write_bytes content (offset f) data]> d) /\
    File_ReadAt (File f)
      (<[Name (File f) := write_bytes content (offset f) data]> d)
      (Size entry) (offset f) = Ok data.
Proof.
  intros Hc Hd Hoff Hr Hfit Hmax.
  destruct (Encode_in_range entry Hr Hfit) as (data & HE & Hlen).
  pose proof Hr as (HK & HV & _).
  assert (Hsz : 20 <= Size entry < 2 ^ 32)
    by (rewrite Size_fits by lia; unfold HeaderSize in *; lia).
  exists data. split_and!; [done|done| |].
  - unfold Write. rewrite HE, bind_Ret. unfold GetOffset, File_WriteAt.
    rewrite Hc, Hd. rewrite decide_False by lia.
    rewrite decide_False by (intros ->; simpl in Hlen; lia).
    rewrite decide_False by lia.
    unfold AddOffset. cbn [File offset].
    unfold MaxInt64 in *. rewrite (int64_small (Size entry)) by lia.
    by rewrite int64_small by lia.
  - unfold write_bytes.
    pose proof (ReadAt_middle (File f)
      (<[Name (File f) := write_bytes content (offset f) data]> d)
      (take (Z.to_nat (offset f))
         (content ++ replicate (Z.to_nat (offset f) - length content) x00))
      data (drop (Z.to_nat (offset f) + length data) content) Hc) as H.
    rewrite length_write_bytes_prefix, Hlen, Z2Nat.id in H by lia.
    apply H. by rewrite lookup_insert_eq.
Qed.

(** ** Replay of the log *)

Lemma log_bytes_app rs1 rs2 :
  log_bytes (rs1 ++ rs2) = log_bytes rs1 ++ log_bytes rs2.
Proof.
  induction rs1 as [|e rs1 IH]; simpl; [done|].
  by rewrite IH, <- !(assoc_L (++)).
Qed.

Lemma length_record_bytes e :
  entry_wf e -> Z.of_nat (length (record_bytes e)) = Size e.
Proof. intros. by rewrite Size_wf. Qed.

Lemma length_log_bytes_ge rs :
  Forall entry_wf rs -> (length rs <= length (log_bytes rs))%nat.
Proof.
  induction 1 as [|e rs He _ IH]; simpl; [done|].
  rewrite length_app.
  pose proof (Size_wf_bounds e He). pose proof (length_record_bytes e He).
  lia.
Qed.

Lemma replay_log_snoc rs e off idx :
  Forall entry_wf rs ->
  replay_log (rs ++ [e]) off idx
  = let at_ := off + Z.of_nat (length (log_bytes rs)) in
    if decide (Mark e = DEL)
    then delete (String.string_of_list_byte (Key e)) (replay_log rs off idx)
    else <[String.string_of_list_byte (Key e) := at_]> (replay_log rs off idx).
Proof.
  intros Hwf. revert off idx.
  induction Hwf as [|e' rs He' _ IH]; intros off idx;
    cbn [replay_log log_bytes app]; cbv zeta.
  - by rewrite Z.add_0_r.
  - rewrite IH. cbv zeta. rewrite length_app, Nat2Z.inj_add.
    rewrite length_record_bytes by done.
    by rewrite Z.add_assoc.
Qed.

(** The loop of [loadIndex] over a file that ends with the records [rs]
    does what [replay_log] says. *)
Lemma loadIndex_loop_replay f d (pre : list byte) rs idx fuel :
  closed (File f) = false ->
  d !! Name (File f) = Some (pre ++ log_bytes rs) ->
  offset f = Z.of_nat (length (pre ++ log_bytes rs)) ->
  Forall entry_wf rs ->
  Z.of_nat (length (pre ++ log_bytes rs)) <= MaxInt64 ->
  (length rs < fuel)%nat ->
  loadIndex_loop fuel f d idx (Z.of_nat (length pre))
  = Ret (None, replay_log rs (Z.of_nat (length pre)) idx).
Proof.
  intros Hc Hd Hoff Hwf. revert pre idx fuel Hd Hoff.
  induction Hwf as [|e rs He Hrs IH]; intros pre idx fuel Hd Hoff Hmax Hfuel.
  - destruct fuel as [|fuel]; [simpl in Hfuel; lia|]. simpl.
    unfold IsOffsetEqual. rewrite bool_decide_eq_true_2; [done|].
    by rewrite Hoff, app_nil_r.
  - destruct fuel as [|fuel]; [simpl in Hfuel; lia|].
    cbn [log_bytes length] in Hd, Hoff, Hmax, Hfuel.
    pose proof (Size_wf_bounds e He) as Hsz.
    pose proof (length_record_bytes e He) as Hlen.
    rewrite !length_app in Hoff, Hmax.
    cbn [loadIndex_loop replay_log].
    unfold IsOffsetEqual. rewrite bool_decide_eq_false_2 by lia.
    rewrite (Read_record f d pre (log_bytes rs) e) by (done || lia).
    unfold MaxInt64 in *.
    rewrite (int64_small (Size e)) by lia.
    rewrite int64_small by lia.
    replace (Z.of_nat (length pre) + Size e)
      with (Z.of_nat (length (pre ++ record_bytes e)))
      by (rewrite length_app; lia).
    apply IH.
    + by rewrite <- (assoc_L (++)).
    + rewrite Hoff, !length_app. lia.
    + rewrite !length_app. lia.
    + lia.
Qed.

Lemma set_databaseFile_same w f :
  databaseFile w = Some f -> set_databaseFile w f = w.
Proof. destruct w; simpl; by intros ->. Qed.

Lemma NewWriteSequence_fresh dir now d :
  d !! path_Join dir DataFileName = None ->
  exists w,
    NewWriteSequence dir "" now d
    = Ret (Ok w, <[path_Join dir DataFileName := []]> d) /\
    log_state dir [] w (<[path_Join dir DataFileName := []]> d).
Proof.
  intros Hd. unfold NewWriteSequence.
  rewrite decide_False by (simpl; lia).
  unfold NewDataFile. rewrite decide_True by done.
  unfold new, os_OpenFile.
  rewrite decide_False by (unfold path_Join; by destruct dir).
  rewrite Hd. unfold os_Stat. rewrite lookup_insert_eq.
  eexists. split; [reflexivity|].
  unfold log_state; cbn [dataPath databaseFile index log_bytes replay_log length].
  split_and!; try done.
  by rewrite lookup_insert_eq.
Qed.

Lemma NewWriteSequence_reopen dir rs w now d :
  log_state dir rs w d ->
  exists w',
    NewWriteSequence dir "" now d = Ret (Ok w', d) /\ index w' = index w.
Proof.
  intros (Hdir & Hf & Hd & Hwf & Hmax & Hidx & _).
  unfold NewWriteSequence.
  rewrite decide_False by (simpl; lia).
  unfold NewDataFile. rewrite decide_True by done.
  unfold new, os_OpenFile.
  rewrite decide_False by (unfold path_Join; by destruct dir).
  rewrite Hd. unfold os_Stat. rewrite Hd.
  unfold loadIndex. cbn [databaseFile index].
  pose proof (loadIndex_loop_replay
    {| File := mkFile (path_Join dir DataFileName) false;
       offset := Z.of_nat (length (log_bytes rs)) |} d [] rs ∅
    (loadIndex_fuel
       {| File := mkFile (path_Join dir DataFileName) false;
          offset := Z.of_nat (length (log_bytes rs)) |} d)) as Hloop.
  cbn [app length] in Hloop. change (Z.of_nat 0) with 0 in Hloop.
  rewrite Hloop; [| done | done | done | done | done |].
  - rewrite bind_Ret. eexists. split; [reflexivity|]. by rewrite Hidx.
  - unfold loadIndex_fuel. cbn [File Name]. rewrite Hd. simpl.
    pose proof (length_log_bytes_ge rs Hwf). lia.
Qed.

Lemma Write_too_large f d entry content :
  closed (File f) = false ->
  d !! Name (File f) = Some content ->
  0 <= offset f ->
  entry_wf entry ->
  MaxInt64 < offset f + Size entry ->
  Write f d entry = Ret (Err os_ErrTooLarge, f, d).
Proof.
  intros Hc Hd Hoff Hwf Hmax. unfold Write.
  rewrite (Encode_wf entry Hwf), bind_Ret.
  pose proof (Size_wf_bounds entry Hwf). pose proof (Size_wf entry Hwf).
  unfold File_WriteAt, GetOffset. rewrite Hc.
  rewrite decide_False by lia.
  rewrite decide_False by (intros Heq; rewrite Heq in *; simpl in *; lia).
  by rewrite decide_True by lia.
Qed.

(** Appending the well-formed record [entry] to a log in state [rs]:
    either the file is full and nothing changes, or the record is added at
    the end. *)
Lemma Write_log_state dir rs w d entry :
  log_state dir rs w d -> entry_wf entry ->
  exists f r f' d',
    databaseFile w = Some f /\
    Write f d entry = Ret (r, f', d') /\
    ((r = Err os_ErrTooLarge /\ f' = f /\ d' = d) \/
     (r = Ok (Z.of_nat (length (log_bytes rs))) /\
      f' = {| File := mkFile (path_Join dir DataFileName) false;
              offset := Z.of_nat (length (log_bytes (rs ++ [entry]))) |} /\
      d' = <[path_Join dir DataFileName := log_bytes (rs ++ [entry])]> d /\
      Z.of_nat (length (log_bytes (rs ++ [entry]))) <= MaxInt64)).
Proof.
  intros (Hdir & Hf & Hd & Hwf & Hmax & Hidx & Hkeys) He.
  pose proof (Size_wf entry He) as Hsz.
  eexists. 
  destruct (decide (Z.of_nat (length (log_bytes rs)) + Size entry <= MaxInt64))
    as [Hle|Hgt].
  - edestruct (Write_at_offset
      {| File := mkFile (path_Join dir DataFileName) false;
         offset := Z.of_nat (length (log_bytes rs)) |} d entry
      (log_bytes rs)) as (data & HE & Hlen & HW & _);
      [done|done|simpl; lia|apply He|apply He|done|].
    rewrite (Encode_wf entry He) in HE. injection HE as <-.
    do 3 eexists. split; [done|]. split; [exact HW|]. right.
    cbn [offset File Name].
    rewrite write_bytes_end, log_bytes_app. cbn [log_bytes].
    rewrite app_nil_r, !length_app, Nat2Z.inj_add, <- Hsz.
    split_and!; done.
  - do 3 eexists. split; [done|]. split; [|left; done].
    apply (Write_too_large _ _ _ (log_bytes rs)); try done; simpl; lia.
Qed.

Lemma Put_log_state dir rs w d key value now :
  log_state dir rs w d ->
  Z.of_nat (length key) + Z.of_nat (length value) + HeaderSize < 2 ^ 32 ->
  exists err w' d' rs',
    Put (Some w) d key value now = Ret (err, Some w', d') /\
    log_state dir rs' w' d' /\
    (log_marks rs -> log_marks rs').
Proof.
  intros Hst Hfit.
  assert (He : entry_wf (NewEntry key value PUT (uint64 now))).
  { apply NewEntry_wf; [done|unfold PUT; lia|apply uint64_range]. }
  destruct (Write_log_state dir rs w d _ Hst He)
    as (f & r & f' & d' & Hf & HW & Hcase).
  pose proof Hst as (Hdir & Hf' & Hd & Hwf & Hmax & Hidx & Hkeys).
  unfold Put. cbn [deref]. rewrite bind_Ret, Hf. cbn [deref].
  rewrite bind_Ret, HW, bind_Ret.
  destruct Hcase as [(-> & -> & ->)|(-> & -> & -> & Hmax')].
  - rewrite set_databaseFile_same by done.
    exists (Some os_ErrTooLarge), w, d, rs. by split_and!.
  - do 3 eexists. exists (rs ++ [NewEntry key value PUT (uint64 now)]).
    split; [reflexivity|].
    split; [|intros Hmarks; unfold log_marks in *; apply Forall_app;
             split; [exact Hmarks|];
             apply Forall_singleton; cbn; by left].
    unfold log_state. cbn [set_index set_databaseFile dataPath databaseFile index].
    split_and!; try done.
    + by rewrite lookup_insert_eq.
    + apply Forall_app. split; [done|]. by apply Forall_singleton.
    + rewrite replay_log_snoc by done. cbv zeta.
      rewrite decide_False by (unfold NewEntry, DEL, PUT; simpl; lia).
      by rewrite Hidx.
    + intros k off Hk. destruct (decide (String.string_of_list_byte key = k))
        as [<-|Hne].
      * rewrite String.list_byte_of_string_of_list_byte. lia.
      * rewrite lookup_insert_ne in Hk by done. by eapply Hkeys.
Qed.

Lemma Delete_log_state dir rs w d key now :
  log_state dir rs w d ->
  exists err w' d' rs',
    Delete (Some w) d key now = Ret (err, Some w', d') /\
    log_state dir rs' w' d' /\
    (log_marks rs -> log_marks rs').
Proof.
  intros Hst. unfold Delete.
  destruct (decide (length key = 0%nat)) as [Hk0|Hk0].
  { exists (Some (errors_New "key is nil")), w, d, rs. by split_and!. }
  cbn [deref]. rewrite bind_Ret. unfold IsKeyExist.
  destruct (index w !! String.string_of_list_byte key) as [off|] eqn:Hlook;
    cbn [negb].
  2: { exists None, w, d, rs. by split_and!. }
  pose proof Hst as (Hdir & Hf' & Hd & Hwf & Hmax & Hidx & Hkeys).
  assert (He : entry_wf (NewEntry key [] DEL (uint64 now))).
  { apply NewEntry_wf; [|unfold DEL; lia|apply uint64_range].
    apply Hkeys in Hlook.
    rewrite String.list_byte_of_string_of_list_byte in Hlook.
    unfold HeaderSize in *. simpl. lia. }
  destruct (Write_log_state dir rs w d _ Hst He)
    as (f & r & f' & d' & Hf & HW & Hcase).
  rewrite Hf. cbn [deref]. rewrite bind_Ret, HW, bind_Ret.
  destruct Hcase as [(-> & -> & ->)|(-> & -> & -> & Hmax')].
  - rewrite set_databaseFile_same by done.
    exists (Some os_ErrTooLarge), w, d, rs. by split_and!.
  - do 3 eexists. exists (rs ++ [NewEntry key [] DEL (uint64 now)]).
    split; [reflexivity|].
    split; [|intros Hmarks; unfold log_marks in *; apply Forall_app;
             split; [exact Hmarks|];
             apply Forall_singleton; cbn; by right].
    unfold log_state. cbn [set_index set_databaseFile dataPath databaseFile index].
    split_and!; try done.
    + by rewrite lookup_insert_eq.
    + apply Forall_app. split; [done|]. by apply Forall_singleton.
    + rewrite replay_log_snoc by done. cbv zeta.
      rewrite decide_True by done.
      by rewrite Hidx.
    + intros k off' Hk. apply lookup_delete_Some in Hk as [_ Hk].
      by eapply Hkeys.
Qed.

Lemma run_Ops_log_state dir ops : forall rs w d,
  log_state dir rs w d -> log_marks rs -> Forall Op_fits ops ->
  exists w' d' rs',
    run_Ops ops (Some w) d = Ret (Some w', d') /\
    log_state dir rs' w' d' /\ log_marks rs'.
Proof.
  induction ops as [|op ops IH]; intros rs w d Hst Hmarks Hfit.
  - by exists w, d, rs.
  - apply Forall_cons in Hfit as [Hop Hfit]. cbn [run_Ops].
    assert (exists err w1 d1 rs1,
      run_Op op (Some w) d = Ret (err, Some w1, d1) /\
      log_state dir rs1 w1 d1 /\ (log_marks rs -> log_marks rs1))
      as (err & w1 & d1 & rs1 & Hrun & Hst1 & Hmarks1).
    { destruct op as [key value now|key now]; simpl.
      - by eapply Put_log_state.
      - by eapply Delete_log_state. }
    rewrite Hrun, bind_Ret. eapply IH; eauto.
Qed.

(** What a replay makes of a log: a key is bound exactly when the last
    record of the key is a PUT record, and then to the offset of that
    record. *)
Lemma replay_log_last_put rs : Forall entry_wf rs -> log_marks rs ->
  forall key off, replay_log rs 0 ∅ !! key = Some off <-> last_put rs key off.
Proof.
  induction rs as [|e rs IH] using rev_ind; intros Hwf Hmarks key off.
  - cbn. rewrite lookup_empty. split; [done|].
    intros (rs1 & e & rs2 & Heq & _). by destruct rs1.
  - apply Forall_app in Hwf as [Hwf He].
    apply Forall_app in Hmarks as [Hmarks Hme].
    rewrite Forall_singleton in Hme.
    rewrite replay_log_snoc by done. cbv zeta. rewrite Z.add_0_l.
    assert (Hsnoc : forall rs1 e' rs2,
              rs ++ [e] = rs1 ++ e' :: rs2 ->
              (rs2 = [] /\ rs1 = rs /\ e' = e) \/
              (exists rs2', rs2 = rs2' ++ [e] /\ rs = rs1 ++ e' :: rs2')).
    { intros rs1 e' rs2 Heq.
      destruct rs2 as [|x rs2 _] using rev_ind.
      - apply app_inj_tail in Heq as [-> ->]. by left.
      - right. exists rs2.
        rewrite app_comm_cons, app_assoc in Heq.
        apply app_inj_tail in Heq as [-> ->]. done. }
    case_decide as Hdel.
    + rewrite lookup_delete_Some, (IH Hwf Hmarks). split.
      * intros (Hne & rs1 & e' & rs2 & -> & Hput & Hkey & Hoff & Hlast).
        exists rs1, e', (rs2 ++ [e]).
        rewrite <- app_assoc. split_and!; try done.
        apply Forall_app. split; [done|]. by apply Forall_singleton.
      * intros (rs1 & e' & rs2 & Heq & Hput & Hkey & Hoff & Hlast).
        apply Hsnoc in Heq as [(-> & -> & ->)|(rs2' & -> & ->)].
        -- unfold PUT, DEL in *. congruence.
        -- apply Forall_app in Hlast as [Hlast Hlast'].
           rewrite Forall_singleton in Hlast'.
           split; [exact Hlast'|]. by exists rs1, e', rs2'.
    + rewrite lookup_insert_Some, (IH Hwf Hmarks). split.
      * intros [[Hkey <-]|(Hne & rs1 & e' & rs2 & -> & Hput & Hkey & Hoff & Hlast)].
        -- exists rs, e, []. split_and!; try done.
           destruct Hme; [done|done].
        -- exists rs1, e', (rs2 ++ [e]).
           rewrite <- app_assoc. split_and!; try done.
           apply Forall_app. split; [done|]. by apply Forall_singleton.
      * intros (rs1 & e' & rs2 & Heq & Hput & Hkey & Hoff & Hlast).
        apply Hsnoc in Heq as [(-> & -> & ->)|(rs2' & -> & ->)].
        -- left. by split.
        -- apply Forall_app in Hlast as [Hlast Hlast'].
           rewrite Forall_singleton in Hlast'. right.
           split; [exact Hlast'|]. by exists rs1, e', rs2'.
Qed.

(** * The append-only log: claims *)

(** C4, as stated, fails: appending the 22-byte record ("k", "v") to an
    empty data file returns 0, the offset before the bump, while the offset
    after the bump is 22. *)
Lemma Write_result_is_not_post_bump_offset :
  match Write {| File := mkFile "/p/append.data" false; offset := 0 |}
          {[ "/p/append.data" := [] ]}
          (NewEntry (String.list_byte_of_string "k")
             (String.list_byte_of_string "v") PUT 1)
  with
  | Ret (Ok returned, f', _) =>
      returned = 0 /\ offset f' = 22 /\ returned <> offset f'
  | _ => False
  end.
Proof. vm_compute. split_and!; congruence. Qed.

(** C4, amended: a record appended with [DatabaseFile.Write] lands at the
    file's current offset, the offset is then advanced by the record's
    encoded size, and the value returned to the caller is the offset before
    the bump, that is the offset at which the record starts. *)
Theorem Write_lands_at_offset_and_returns_it f d entry content :
  closed (File f) = false ->
  d !! Name (File f) = Some content ->
  0 <= offset f ->
  entry_in_range entry ->
  KeySize entry + ValueSize entry + HeaderSize < 2 ^ 32 ->
  offset f + Size entry <= MaxInt64 ->
  exists data f' d',
    Encode entry = Ret data /\
    Write f d entry = Ret (Ok (offset f), f', d') /\
    File_ReadAt (File f') d' (Size entry) (offset f) = Ok data /\
    offset f' = offset f + Size entry /\
    offset f < offset f'.
Proof.
  intros Hc Hd Hoff Hr Hfit Hmax.
  destruct (Write_at_offset f d entry content Hc Hd Hoff Hr Hfit Hmax)
    as (data & HE & Hlen & HW & HR).
  do 3 eexists. split_and!; [exact HE|exact HW|exact HR|done|].
  cbn [offset]. destruct Hr as (? & ? & _).
  rewrite Size_fits by lia. unfold HeaderSize in *. lia.
Qed.

Lemma Write_lands_at_offset_and_returns_it_witness :
  exists data f' d',
    Encode (NewEntry (String.list_byte_of_string "k")
              (String.list_byte_of_string "v") PUT 1) = Ret data /\
    Write {| File := mkFile "/p/append.data" false; offset := 3 |}
      {[ "/p/append.data" := [x01; x02; x03] ]}
      (NewEntry (String.list_byte_of_string "k")
         (String.list_byte_of_string "v") PUT 1)
    = Ret (Ok 3, f', d') /\
    File_ReadAt (File f') d' 22 3 = Ok data /\
    offset f' = 3 + 22 /\
    3 < offset f'.
Proof.
  apply (Write_lands_at_offset_and_returns_it
           {| File := mkFile "/p/append.data" false; offset := 3 |}
           {[ "/p/append.data" := [x01; x02; x03] ]}
           (NewEntry (String.list_byte_of_string "k")
              (String.list_byte_of_string "v") PUT 1)
           [x01; x02; x03]).
  - reflexivity.
  - reflexivity.
  - simpl. lia.
  - vm_compute. repeat split; congruence.
  - vm_compute. reflexivity.
  - vm_compute. congruence.
Defined.

(** C5, as stated, fails: [Decode] fills in the header fields only.  For
    the record ("k", "v") the decoded entry has an empty key and an empty
    value. *)
Lemma Decode_Encode_drops_payloads :
  let e := NewEntry (String.list_byte_of_string "k")
             (String.list_byte_of_string "v") PUT 7 in
  match Encode e with
  | Ret data =>
      match Decode data with
      | Ok e' => Key e' = [] /\ Value e' = [] /\
                 Key e' <> Key e /\ Value e' <> Value e
      | Err _ => False
      end
  | _ => False
  end.
Proof. vm_compute. split_and!; congruence. Qed.

(** C5, amended: for every log record whose key and value fit the 32-bit
    size fields, decoding the bytes produced by [Encode] yields an entry
    whose four header fields (key_size, value_size, mark, timestamp), and
    hence total size, equal those of the original record, and whose key and
    value are empty; the payloads are the bytes that follow the header, and
    [DatabaseFile.Read] returns the whole record, payloads included,
    wherever the encoded bytes lie in a file. *)
Theorem Decode_Encode_header_roundtrip key value mark ts :
  Z.of_nat (length key) + Z.of_nat (length value) + HeaderSize < 2 ^ 32 ->
  0 <= mark < 2 ^ 32 -> 0 <= ts < 2 ^ 64 ->
  let e := NewEntry key value mark ts in
  exists data e',
    Encode e = Ret data /\ Decode data = Ok e' /\
    KeySize e' = KeySize e /\ ValueSize e' = ValueSize e /\
    Mark e' = mark /\ Timestamp e' = ts /\ Size e' = Size e /\
    Key e' = [] /\ Value e' = [] /\
    slice data HeaderSize (HeaderSize + KeySize e) = key /\
    slice data (HeaderSize + KeySize e) (Size e) = value /\
    (forall f d (pre post : list byte),
       closed (File f) = false ->
       d !! Name (File f) = Some (pre ++ data ++ post) ->
       Z.of_nat (length pre) + Size e <= MaxInt64 ->
       Read f d (Z.of_nat (length pre)) = Ok e).
Proof.
  intros Hfit Hm Ht e.
  assert (Hwf : entry_wf e) by (by apply NewEntry_wf).
  pose proof Hwf as (Hr & HKl & HVl & Hfit').
  pose proof (length_header_bytes e) as Hh.
  exists (record_bytes e). eexists.
  split; [by apply Encode_wf|].
  split; [unfold record_bytes; by apply Decode_header_in_range|].
  cbn [KeySize ValueSize Mark Timestamp Key Value].
  split_and!; try done.
  - unfold record_bytes.
    rewrite slice_middle; [done|by rewrite Hh|].
    rewrite HKl. simpl. lia.
  - unfold record_bytes. rewrite (app_assoc (header_bytes e)).
    rewrite <- (app_nil_r (Value e)) at 1.
    rewrite slice_middle; [done| |].
    + rewrite length_app, Hh, Nat2Z.inj_add, HKl. done.
    + rewrite (Size_wf e Hwf). unfold record_bytes.
      rewrite !length_app, Hh, HKl. unfold HeaderSize. simpl Value. lia.
  - intros f d pre post Hc Hd Hmax. by apply (Read_record f d pre post e).
Qed.

Lemma Decode_Encode_header_roundtrip_witness :
  let key := String.list_byte_of_string "key" in
  let value := String.list_byte_of_string "value" in
  let e := NewEntry key value PUT 1700000000000 in
  exists data e',
    Encode e = Ret data /\ Decode data = Ok e' /\
    KeySize e' = KeySize e /\ ValueSize e' = ValueSize e /\
    Mark e' = PUT /\ Timestamp e' = 1700000000000 /\ Size e' = Size e /\
    Key e' = [] /\ Value e' = [] /\
    slice data HeaderSize (HeaderSize + KeySize e) = key /\
    slice data (HeaderSize + KeySize e) (Size e) = value /\
    (forall f d (pre post : list byte),
       closed (File f) = false ->
       d !! Name (File f) = Some (pre ++ data ++ post) ->
       Z.of_nat (length pre) + Size e <= MaxInt64 ->
       Read f d (Z.of_nat (length pre)) = Ok e).
Proof.
  apply (Decode_Encode_header_roundtrip
           (String.list_byte_of_string "key")
           (String.list_byte_of_string "value") PUT 1700000000000).
  - vm_compute. reflexivity.
  - vm_compute. split; congruence.
  - vm_compute. split; congruence.
Defined.

(** C6: for every finite sequence of Put and Delete operations (keys and
    values that fit a record) applied to a fresh write sequence, replaying
    the resulting log from offset 0, as [NewWriteSequence] does with
    [loadIndex] when it opens the directory again, rebuilds an index equal
    to the in-memory index the operations left: the keys whose last record
    in the log is a PUT record, each with the offset of that record. *)
Theorem replay_rebuilds_live_index dir ops now0 now1 d0 :
  d0 !! path_Join dir DataFileName = None ->
  Forall Op_fits ops ->
  exists w0 d1 w d w' rs,
    NewWriteSequence dir "" now0 d0 = Ret (Ok w0, d1) /\
    run_Ops ops (Some w0) d1 = Ret (Some w, d) /\
    NewWriteSequence dir "" now1 d = Ret (Ok w', d) /\
    index w' = index w /\
    d !! path_Join dir DataFileName = Some (log_bytes rs) /\
    (forall key off, index w !! key = Some off <-> last_put rs key off).
Proof.
  intros Hd0 Hfit.
  destruct (NewWriteSequence_fresh dir now0 d0 Hd0) as (w0 & Hnew & Hst0).
  destruct (run_Ops_log_state dir ops [] w0 _ Hst0 (Forall_nil_2 _) Hfit)
    as (w & d & rs & Hrun & Hst & Hmarks).
  destruct (NewWriteSequence_reopen dir rs w now1 d Hst) as (w' & Hre & Hidx).
  exists w0, (<[path_Join dir DataFileName := []]> d0), w, d, w', rs.
  destruct Hst as (_ & _ & Hd & Hwf & _ & Hi & _).
  split_and!; try done.
  intros key off. rewrite Hi. by apply replay_log_last_put.
Qed.

Lemma replay_rebuilds_live_index_witness :
  let b := String.list_byte_of_string in
  let ops := [OpPut (b "x") (b "1") 5; OpPut (b "y") (b "2") 6;
              OpDelete (b "x") 7; OpPut (b "x") (b "3") 8] in
  exists w0 d1 w d w' rs,
    NewWriteSequence "/p/scores" "" 1 ∅ = Ret (Ok w0, d1) /\
    run_Ops ops (Some w0) d1 = Ret (Some w, d) /\
    NewWriteSequence "/p/scores" "" 9 d = Ret (Ok w', d) /\
    index w' = index w /\
    d !! path_Join "/p/scores" DataFileName = Some (log_bytes rs) /\
    (forall key off, index w !! key = Some off <-> last_put rs key off).
Proof.
  apply (replay_rebuilds_live_index "/p/scores").
  - reflexivity.
  - repeat constructor; vm_compute; reflexivity.
Defined.

(** * Merge: claims *)

(** The callback of [Merge] never touches the [err] of [Merge] itself,
    whatever happens to the records. *)
Lemma Merge_range_keeps_err kvs : forall f err merge_file d new_index
    err' merge_file' d' new_index',
  Merge_range f kvs err merge_file d new_index
  = Ret (err', merge_file', d', new_index') ->
  err' = err.
Proof.
  induction kvs as [|[key value] kvs IH]; intros * Hrun; cbn [Merge_range] in Hrun.
  - congruence.
  - destruct (Read f d value) as [entry|e]; [|congruence].
    destruct (Write merge_file d entry) as [[[r mf] d1]| |]; [|done..].
    rewrite bind_Ret in Hrun. destruct r; [by eapply IH|congruence].
Qed.

(** A record that cannot be read stops the iteration and is left out of
    the new index, together with all the records after it. *)
Lemma Merge_range_stops_at_unreadable f key value kvs err merge_file d
    new_index e :
  Read f d value = Err e ->
  Merge_range f ((key, value) :: kvs) err merge_file d new_index
  = Ret (err, merge_file, d, new_index).
Proof. intros HR. cbn [Merge_range]. by rewrite HR. Qed.

(** C2 fails on the code.  First input: the data file holds the record
    ("x", "1"), 22 bytes, and has lost its last 12 bytes behind the back of
    the write sequence, whose index still sends "x" to offset 0.  Reading
    that record fails, yet [Merge] returns a nil error, makes the empty
    merge file the active data file, removes the backup of the old file
    and swaps in an empty index.  Second input: the same through the
    package's own operations, [NewWriteSequence; Put; Close; Merge], where
    the read fails because the file was closed. *)
Theorem Merge_swallows_record_errors :
  let file := "/p/scores/append.data" in
  let w := {| index := {[ "x" := 0 ]}; dataPath := "/p/scores";
              databaseFile := Some {| File := mkFile file false;
                                      offset := 22 |} |} in
  let d : gmap string (list byte) :=
    {[ file := [x00; x00; x00; x01; x00; x00; x00; x01; x00; x00] ]} in
  Read {| File := mkFile file false; offset := 22 |} d 0 = Err io_EOF /\
  match Merge (Some w) d with
  | Ret (err, Some w', d') =>
      err = None /\ index w' = ∅ /\
      d' = {[ file := [] ]} /\
      databaseFile w' = Some {| File := mkFile file false; offset := 0 |}
  | _ => False
  end /\
  match Put_Close_Merge with
  | Ret (before, content, err, after, d') =>
      before = Some {[ "x" := 0 ]} /\
      content
      = Some [x00; x00; x00; x01; x00; x00; x00; x01; x00; x00; x00; x00;
              x00; x00; x00; x00; x00; x00; x00; x02; "x"%byte; "1"%byte] /\
      err = None /\ after = Some ∅ /\ d' = {[ file := [] ]}
  | _ => False
  end.
Proof. vm_compute. split_and!; reflexivity. Qed.

(** * The LRU: claims *)

Section lru_claims.
Import lru.
Context {V : Type} `{!ComputableValue V}.

Lemma Add_evict_unbounded (c : Cache V) fuel :
  maxBytes c <= 0 -> Add_evict (S fuel) c = Ret c.
Proof. intros. cbn [Add_evict]. by rewrite decide_False by lia. Qed.

(** [Add] of a new key to a cache without a bound. *)
Lemma Add_new_unbounded (c : Cache V) (key : string) (v : V) :
  maxBytes c <= 0 -> cache c !! key = None ->
  Add key v c
  = Ret (true,
         {| maxBytes := maxBytes c;
            nbytes := int64 (nbytes c + int64 (len key + Len v));
            ll := length (elements c) :: ll c;
            elements := elements c ++ [entry key v];
            cache := <[key := length (elements c)]> (cache c);
            OnEvicted := OnEvicted c;
            evicted := evicted c |}).
Proof.
  intros Hmax Hnone. unfold Add. rewrite decide_False by lia.
  rewrite Hnone. cbn [PushFront]. rewrite bind_Ret.
  rewrite Add_evict_unbounded by done. by rewrite bind_Ret.
Qed.

(** [Add] of a key that is present, to a cache without a bound: a second
    element is pushed, which holds the address of the first, and the
    counter moves by the old length minus the new one. *)
Lemma Add_present_unbounded (c : Cache V) (key : string) (v : V)
    (value0 : nat) (k0 : string) (v0 : V) :
  maxBytes c <= 0 -> cache c !! key = Some value0 ->
  elements c !! value0 = Some (entry k0 v0) ->
  Add key v c
  = Ret (true,
         {| maxBytes := maxBytes c;
            nbytes := int64 (nbytes c + int64 (Len v0 - Len v));
            ll := length (elements c) :: ll c;
            elements := <[value0 := entry k0 v]>
                          (elements c ++ [element value0]);
            cache := cache c;
            OnEvicted := OnEvicted c;
            evicted := evicted c |}).
Proof.
  intros Hmax Hsome Hel. unfold Add. rewrite decide_False by lia.
  rewrite Hsome. cbn [PushFront]. unfold Value_entry. cbn [elements].
  rewrite lookup_app_l by (by eapply lookup_lt_Some).
  rewrite Hel, !bind_Ret.
  rewrite Add_evict_unbounded by done. by rewrite bind_Ret.
Qed.

(** An unbounded cache after [Add(key, v1); Add(key, v2)]. *)
Lemma Add_twice (key : string) (v1 v2 : V) (onEvicted : bool) :
  run_Ops [OpAdd key v1; OpAdd key v2] (New 0 onEvicted)
  = Ret {| maxBytes := 0;
           nbytes := int64 (int64 (0 + int64 (len key + Len v1))
                            + int64 (Len v1 - Len v2));
           ll := [1%nat; 0%nat];
           elements := [entry key v2; element 0];
           cache := {[ key := 0%nat ]};
           OnEvicted := onEvicted;
           evicted := [] |}.
Proof.
  cbn [run_Ops run_Op].
  rewrite Add_new_unbounded by done. rewrite !bind_Ret.
  cbn [New maxBytes nbytes ll elements cache OnEvicted evicted length app].
  erewrite Add_present_unbounded;
    [|done|apply lookup_insert_eq|reflexivity].
  rewrite !bind_Ret.
  cbn [maxBytes nbytes ll elements cache OnEvicted evicted length app].
  by rewrite insert_empty.
Qed.

(** After [Add(key, v1); Add(key, v2)] the counter is off by twice the
    difference of the two lengths: it is right only when they are equal. *)
Lemma Add_twice_counts (key : string) (v1 v2 : V) (onEvicted : bool) :
  0 <= Len v1 < 2 ^ 31 -> 0 <= Len v2 < 2 ^ 31 -> len key < 2 ^ 31 ->
  exists c,
    run_Ops [OpAdd key v1; OpAdd key v2] (New 0 onEvicted) = Ret c /\
    entries_bytes c = len key + Len v2 /\
    nbytes c = len key + Len v2 + 2 * (Len v1 - Len v2).
Proof.
  intros H1 H2 Hk. eexists. split; [apply Add_twice|].
  assert (0 <= len key) by (unfold len; lia).
  split.
  - unfold entries_bytes, entries. cbn. apply Z.add_0_r.
  - cbn [nbytes].
    rewrite (int64_small (len key + Len v1)) by lia.
    rewrite (int64_small (0 + _)) by lia.
    rewrite (int64_small (Len v1 - Len v2)) by lia.
    rewrite int64_small by lia. lia.
Qed.

Lemma run_Ops_app (ops1 ops2 : list (Op V)) (c : Cache V) :
  run_Ops (ops1 ++ ops2) c = run_Ops ops1 c ≫= run_Ops ops2.
Proof.
  revert c. induction ops1 as [|op ops1 IH]; intros c; [done|].
  cbn [run_Ops app]. destruct (run_Op op c) as [c'| |]; [|done..].
  rewrite !bind_Ret. apply IH.
Qed.

(** [RemoveOldest] when the last element holds an entry. *)
Lemma RemoveOldest_entry (c : Cache V) (ele : nat) (k : string) (v : V) :
  Back c = Some ele -> elements c !! ele = Some (entry k v) ->
  RemoveOldest c
  = Ret (call_OnEvicted k v
           (set_nbytes (int64 (nbytes c - int64 (len k + Len v)))
              (set_cache (delete k (cache c)) (ll_Remove ele c)))).
Proof.
  intros HB Hel. unfold RemoveOldest. rewrite HB.
  unfold Value_entry. cbn [ll_Remove elements]. rewrite Hel.
  by rewrite bind_Ret.
Qed.

(** [RemoveOldest] when the last element holds a list element. *)
Lemma RemoveOldest_element (c : Cache V) (ele e : nat) :
  Back c = Some ele -> elements c !! ele = Some (element e) ->
  RemoveOldest c = Panic.
Proof.
  intros HB Hel. unfold RemoveOldest. rewrite HB.
  unfold Value_entry. cbn [ll_Remove elements]. by rewrite Hel.
Qed.

Lemma ll_call_OnEvicted k v (c : Cache V) :
  ll (call_OnEvicted k v c) = ll c /\
  elements (call_OnEvicted k v c) = elements c.
Proof. unfold call_OnEvicted. by destruct (OnEvicted c). Qed.

(** C9: once a key has been added twice, the eviction path is not total.
    In an unbounded cache, after [Add(key, v1); Add(key, v2)] the first
    [RemoveOldest] evicts the entry and the second one reaches the extra
    element that the second [Add] pushed; that element holds a list
    element, not an entry, and the type assertion panics. *)
Theorem RemoveOldest_panics_after_second_Add (key : string) (v1 v2 : V)
    (onEvicted : bool) :
  (exists c, run_Ops [OpAdd key v1; OpAdd key v2; OpRemoveOldest]
               (New 0 onEvicted) = Ret c) /\
  run_Ops [OpAdd key v1; OpAdd key v2; OpRemoveOldest; OpRemoveOldest]
    (New 0 onEvicted) = Panic.
Proof.
  change [OpAdd key v1; OpAdd key v2; OpRemoveOldest]
    with ([OpAdd key v1; OpAdd key v2] ++ [OpRemoveOldest]).
  change [OpAdd key v1; OpAdd key v2; OpRemoveOldest; OpRemoveOldest]
    with ([OpAdd key v1; OpAdd key v2] ++ [OpRemoveOldest; OpRemoveOldest]).
  rewrite !run_Ops_app, Add_twice, !bind_Ret.
  cbn [run_Ops run_Op].
  erewrite RemoveOldest_entry; [|reflexivity..].
  rewrite !bind_Ret. split; [by eexists|].
  erewrite RemoveOldest_element; [done| |].
  - unfold Back. rewrite (proj1 (ll_call_OnEvicted _ _ _)). reflexivity.
  - rewrite (proj2 (ll_call_OnEvicted _ _ _)). reflexivity.
Qed.

End lru_claims.

(** The same panic out of [Add] itself: with room for 10 bytes, the fourth
    [Add] below has to evict twice, and its second eviction reaches the
    extra element of the second [Add]. *)
Example Add_panics_when_evicting_extra_element :
  let bv s := mycache.mkByteView (String.list_byte_of_string s) in
  lru.run_Ops [lru.OpAdd "a" (bv "12345"); lru.OpAdd "a" (bv "1");
               lru.OpAdd "b" (bv "1"); lru.OpAdd "c" (bv "1")]
    (lru.New 10 false) = Panic.
Proof. vm_compute. reflexivity. Qed.

(** C1 fails on the code: after [Add("a", "1")] and [Add("a", "333")] on an
    unbounded cache the only entry is ("a", "333"), 4 bytes, while the
    used-bytes counter is 2 + (1 - 3) = 0. *)
Theorem Add_existing_key_miscounts :
  let bv s := mycache.mkByteView (String.list_byte_of_string s) in
  match lru.run_Ops [lru.OpAdd "a" (bv "1"); lru.OpAdd "a" (bv "333")]
          (lru.New 0 false)
  with
  | Ret c =>
      lru.entries c = [("a", bv "333")] /\
      lru.entries_bytes c = 4 /\
      lru.nbytes c = 0 /\
      lru.nbytes c <> lru.entries_bytes c
  | _ => False
  end.
Proof. vm_compute. split_and!; congruence. Qed.

(** * Shard, group and HTTP handler: claims *)

Section mycache_claims.
Import mycache.

(** When the append to the log fails, [add] returns the error and leaves
    the LRU as it was. *)
Lemma cache_add_error_keeps_lru c d key val now e c' d' :
  cache_add c d key val now = Ret (Some e, c', d') ->
  cache_data c' = cache_data c.
Proof.
  unfold cache_add. case_decide; [congruence|].
  destruct (enablePersistence c && persistence.not_nil (writeSequence c)).
  - destruct (persistence.Put _ _ _ _ _) as [[[err w] d1]| |]; [|done..].
    rewrite !bind_Ret. destruct err as [err|].
    + by intros [= <- <- <-].
    + destruct (lru.Add _ _ _) as [[ok l]| |]; [|done..].
      rewrite bind_Ret. congruence.
  - rewrite bind_Ret.
    destruct (lru.Add _ _ _) as [[ok l]| |]; [|done..].
    rewrite bind_Ret. congruence.
Qed.

Lemma load_fn_served_locally g key now c d :
  served_locally g key ->
  load_fn g key now (c, d) = getLocally g c d key now.
Proof.
  unfold served_locally, load_fn, getFromPeer.
  destruct (peers g) as [pick|]; [|done].
  destruct (pick key) as [peer|]; [|done].
  by intros [e ->].
Qed.

(** C3, as stated, fails: with a log whose file is closed the shard's add
    fails on the persistence-layer Put, and [Group.Get] of "Tom", which
    the local loader serves, returns the loaded value "630" with a nil
    error. *)
Lemma Get_returns_value_when_add_fails :
  match scores_with_closed_log with
  | Ret (g, wd) =>
      match cache_add (mainCache g) (disk wd) "Tom"
              (mkByteView (String.list_byte_of_string "630")) 2 with
      | Ret (err, _, _) => err = Some os_ErrClosed
      | _ => False
      end /\
      match Group_Get g (disk wd) "Tom" 2 with
      | Ret (v, err, _, _) =>
          v = mkByteView (String.list_byte_of_string "630") /\ err = None
      | _ => False
      end
  | _ => False
  end.
Proof. vm_compute. split_and!; reflexivity. Qed.

(** C3, amended: for every key whose load is served by the local source
    loader, [Group.Get] returns the loaded value with a nil error whatever
    the shard's add returns: [populateCache] drops the error of add.  When
    add fails on the persistence-layer Put, the LRU stays as it was, so the
    value is returned without being cached. *)
Theorem Get_returns_loaded_value_whatever_add_returns
    g d key now bytes v0 c1 err c2 d2 :
  key <> "" ->
  cache_get (mainCache g) key = Ret (v0, false, c1) ->
  singleflight.m (loader g) !! key = None ->
  served_locally g key ->
  getter g key = Ok bytes ->
  cache_add c1 d key (mkByteView bytes) now = Ret (err, c2, d2) ->
  (exists g',
     Group_Get g d key now = Ret (mkByteView bytes, None, g', d2) /\
     mainCache g' = c2) /\
  (err <> None -> cache_data c2 = cache_data c1).
Proof.
  intros Hkey Hget Hm Hlocal Hgetter Hadd. split.
  - unfold Group_Get. rewrite decide_False by done.
    rewrite Hget, bind_Ret. unfold load.
    unfold singleflight.Do. cbn [loader set_mainCache mainCache].
    rewrite Hm.
    rewrite load_fn_served_locally by done.
    unfold getLocally. cbn [getter set_mainCache]. rewrite Hgetter.
    unfold populateCache, cloneBytes. rewrite Hadd, !bind_Ret.
    eexists. split; reflexivity.
  - destruct err as [e|]; [|done]. intros _.
    by eapply cache_add_error_keeps_lru.
Qed.

Lemma Get_returns_loaded_value_whatever_add_returns_witness :
  exists g wd c1 c2 d2,
    scores_with_closed_log = Ret (g, wd) /\
    cache_add c1 (disk wd) "Tom"
      (mkByteView (String.list_byte_of_string "630")) 2
    = Ret (Some os_ErrClosed, c2, d2) /\
    (exists g',
       Group_Get g (disk wd) "Tom" 2
       = Ret (mkByteView (String.list_byte_of_string "630"), None, g', d2) /\
       mainCache g' = c2) /\
    (Some os_ErrClosed <> None -> cache_data c2 = cache_data c1).
Proof.
  destruct scores_with_closed_log as [[g wd]| |] eqn:Hsc;
    [|vm_compute in Hsc; discriminate Hsc..].
  destruct (cache_get (mainCache g) "Tom") as [[[v0 ok] c1]| |] eqn:Hget;
    [|vm_compute in Hsc; injection Hsc as <- <-;
      vm_compute in Hget; discriminate Hget..].
  destruct (cache_add c1 (disk wd) "Tom"
              (mkByteView (String.list_byte_of_string "630")) 2)
    as [[[err c2] d2]| |] eqn:Hadd;
    [|vm_compute in Hsc; injection Hsc as <- <-;
      vm_compute in Hget; injection Hget as <- <- <-;
      vm_compute in Hadd; discriminate Hadd..].
  assert (ok = false /\ err = Some os_ErrClosed) as [-> ->].
  { vm_compute in Hsc. injection Hsc as <- <-.
    vm_compute in Hget. injection Hget as <- <- <-.
    vm_compute in Hadd. injection Hadd as <- <- <-. done. }
  exists g, wd, c1, c2, d2. split; [done|]. split; [done|].
  apply (Get_returns_loaded_value_whatever_add_returns
           g (disk wd) "Tom" 2 (String.list_byte_of_string "630")
           v0 c1 (Some os_ErrClosed) c2 d2).
  - done.
  - exact Hget.
  - vm_compute in Hsc. injection Hsc as <- <-. reflexivity.
  - vm_compute in Hsc. injection Hsc as <- <-. exact I.
  - vm_compute in Hsc. injection Hsc as <- <-. reflexivity.
  - exact Hadd.
Defined.

(** An unknown group is answered with 404, whatever the method. *)
Lemma ServeKey_unknown_group Marshal method groupName key now wd :
  GetGroup groupName wd = None ->
  ServeKey Marshal method groupName key now wd
  = Ret (http_Error ("no such group: " +:+ groupName) StatusNotFound, wd).
Proof. intros H. unfold ServeKey. by rewrite H. Qed.

(** The status of a GET to a known group depends on [proto.Marshal] alone:
    the error that [Group.Get] returned is overwritten before anybody has
    looked at it. *)
Lemma ServeKey_GET_ignores_Get_error Marshal groupName key now wd group
    view err group' d' :
  GetGroup groupName wd = Some group ->
  Group_Get group (disk wd) key now = Ret (view, err, group', d') ->
  exists resp wd',
    ServeKey Marshal "GET" groupName key now wd = Ret (resp, wd') /\
    status resp
    = match Marshal {| KVResponse_Value := ByteSlice view |} with
      | Ok _ => StatusOK
      | Err _ => StatusInternalServerError
      end.
Proof.
  intros Hg Hget. unfold ServeKey. rewrite Hg.
  rewrite decide_True by done. rewrite Hget, bind_Ret.
  destruct (Marshal _); eauto.
Qed.

(** C8 fails on the code: in a process with the group "scores", whose
    loader knows "Tom" only, a GET for "scores"/"Nobody" misses the cache,
    the loader fails, [Group.Get] returns the error, and the handler
    answers 200 with the serialization of an empty value.  (An unknown
    group is answered with 404, as the claim says.) *)
Theorem ServeKey_answers_200_on_loader_error :
  match scores_World with
  | Ret wd =>
      match GetGroup "scores" wd with
      | Some group =>
          match Group_Get group (disk wd) "Nobody" 2 with
          | Ret (view, err, _, _) =>
              view = mkByteView [] /\
              err = Some (errors_New "Nobody not exist")
          | _ => False
          end
      | None => False
      end /\
      match ServeKey wire_KVResponse "GET" "scores" "Nobody" 2 wd with
      | Ret (resp, _) => status resp = 200 /\ body resp = []
      | _ => False
      end /\
      match ServeKey wire_KVResponse "GET" "courses" "Tom" 2 wd with
      | Ret (resp, _) => status resp = 404
      | _ => False
      end
  | _ => False
  end.
Proof. vm_compute. split_and!; reflexivity. Qed.

(** A shard whose persistence flag is set and whose write sequence is nil
    panics in [delete], unless [Delete] returns on the empty key before it
    touches its receiver. *)
Lemma cache_delete_nil_writeSequence c d key now :
  enablePersistence c = true -> writeSequence c = None ->
  cache_delete c d key now
  = if decide (key = "")
    then Ret (Some (errors_New "key is nil"), c, d)
    else Panic.
Proof.
  intros He Hw. unfold cache_delete, persistence.Delete. rewrite He, Hw.
  destruct key as [|a key].
  - rewrite decide_True by done. rewrite !bind_Ret.
    rewrite decide_True by done. by destruct c; simpl in *; subst.
  - rewrite decide_False.
    2:{ rewrite <- (String.list_byte_of_string_of_list_byte
                     (String.list_byte_of_string _)).
        rewrite String.string_of_list_byte_of_string.
        intros Hl. apply nil_length_inv in Hl.
        apply (f_equal String.string_of_list_byte) in Hl.
        by rewrite String.string_of_list_byte_of_string in Hl. }
    by rewrite decide_False by done.
Qed.

(** With a nil write sequence [add] does not go to the disk and returns
    no error. *)
Lemma cache_add_nil_writeSequence c d key val now r :
  writeSequence c = None ->
  cache_add c d key val now = Ret r ->
  r.1.1 = None /\ r.2 = d /\ writeSequence r.1.2 = None /\
  enablePersistence r.1.2 = enablePersistence c.
Proof.
  intros Hw. unfold cache_add. rewrite Hw.
  case_decide; [by intros [= <-]|].
  rewrite andb_false_r, bind_Ret.
  destruct (lru.Add _ _ _) as [[ok l]| |]; [|done..].
  rewrite bind_Ret. by intros [= <-].
Qed.

(** With a nil write sequence [Group.Get] does not go to the disk. *)
Lemma Group_Get_nil_writeSequence g d key now v err g' d' :
  writeSequence (mainCache g) = None ->
  Group_Get g d key now = Ret (v, err, g', d') ->
  d' = d /\ writeSequence (mainCache g') = None /\
  enablePersistence (mainCache g') = enablePersistence (mainCache g).
Proof.
  intros Hw. unfold Group_Get. case_decide; [by intros [= <- <- <- <-]|].
  unfold cache_get.
  destruct (lru.Get _ _) as [[[ans ok] l]| |]; [|done..].
  rewrite bind_Ret.
  destruct ans as [ans|], ok; rewrite bind_Ret; cbn [set_mainCache];
    try (by intros [= <- <- <- <-]).
  all: unfold load, singleflight.Do; cbn [loader mainCache set_mainCache].
  all: destruct (singleflight.m (loader g) !! key) as [c|].
  all: try (destruct (singleflight.calls (loader g) !! c) as [[[|n] r]|];
            try done; rewrite bind_Ret;
            destruct r as [[viewi [e|]]|]; try done;
            by intros [= <- <- <- <-]).
  all: unfold load_fn.
  all: destruct (match peers g with Some _ => _ | None => _ end) as [value|].
  all: try (rewrite !bind_Ret; by intros [= <- <- <- <-]).
  all: unfold getLocally; cbn [getter set_mainCache].
  all: destruct (getter g key) as [bytes|e];
       [|rewrite !bind_Ret; by intros [= <- <- <- <-]].
  all: unfold populateCache.
  all: destruct (cache_add _ d key _ now) as [[[e c2] d2]| |] eqn:Hadd;
       [|done..].
  all: apply cache_add_nil_writeSequence in Hadd as (_ & Hd & Hw2 & He2);
       [|done]; simpl in Hd, Hw2, He2; subst d2.
  all: rewrite !bind_Ret; intros [= <- <- <- <-]; cbn.
  all: split_and!; done.
Qed.

(** C10, as stated, fails for one key: on a group built with
    EnablePersistence and an empty PersistencePath, [Group.Delete] of the
    empty key returns the error "key is required" and does not panic. *)
Lemma Delete_of_empty_key_returns_error :
  match NewGroup (scores_conf true "") 2048 (Some db_getter) 1 empty_World with
  | Ret (g, wd) =>
      nil_log g /\
      match Group_Delete g (disk wd) "" 2 with
      | Ret (err, _, _) => err = Some (errors_New "key is required")
      | _ => False
      end
  | _ => False
  end.
Proof. vm_compute. split_and!; reflexivity. Qed.

(** C10, amended: every group constructed with EnablePersistence true and
    an empty PersistencePath has a nil write sequence while the
    persistence flag of its shard is set.  In that state add and
    [Group.Get] skip persistence without a word (no error from the log,
    the disk untouched, the state kept), every [Group.Delete] of a
    non-empty key dereferences the nil write sequence and panics, and
    [Group.Delete] of the empty key returns the error "key is required". *)
Theorem Delete_panics_on_nil_write_sequence conf cacheBytes getter now wd g wd' :
  EnablePersistence conf = true ->
  PersistencePath conf = "" ->
  NewGroup conf cacheBytes getter now wd = Ret (g, wd') ->
  nil_log g /\
  forall g1, nil_log g1 ->
    (forall d key val now1 r,
       cache_add (mainCache g1) d key val now1 = Ret r ->
       r.1.1 = None /\ r.2 = d) /\
    (forall d key now1 v err g2 d2,
       Group_Get g1 d key now1 = Ret (v, err, g2, d2) ->
       d2 = d /\ nil_log g2) /\
    (forall d key now1, key <> "" -> Group_Delete g1 d key now1 = Panic) /\
    (forall d now1,
       Group_Delete g1 d "" now1
       = Ret (Some (errors_New "key is required"), g1, d)).
Proof.
  intros Hen Hpath Hnew. split.
  - unfold NewGroup in Hnew. destruct getter as [getter|]; [|done].
    case_decide; [done|]. rewrite Hpath in Hnew.
    change (String.length "") with 0%nat in Hnew.
    rewrite (bool_decide_eq_false_2 (0 < 0)%nat) in Hnew by lia.
    cbn [andb] in Hnew. rewrite bind_Ret in Hnew.
    destruct (bool_decide (0 < String.length (FullPersistentFile conf))%nat).
    + by unfold cache_init, persistence.GetAllIndexKeys in Hnew.
    + rewrite bind_Ret in Hnew. injection Hnew as <- _. by split.
  - intros g1 [Hw He]. split_and!.
    + intros d key val now1 r Hadd.
      by apply cache_add_nil_writeSequence in Hadd as (? & ? & _).
    + intros d key now1 v err g2 d2 Hget.
      apply Group_Get_nil_writeSequence in Hget as (? & ? & He2); [|done].
      unfold nil_log. by rewrite He2.
    + intros d key now1 Hkey. unfold Group_Delete.
      rewrite decide_False by done.
      rewrite cache_delete_nil_writeSequence by done.
      by rewrite decide_False by done.
    + intros d now1. unfold Group_Delete. by rewrite decide_True by done.
Qed.

Lemma Delete_panics_on_nil_write_sequence_witness :
  exists g wd',
    NewGroup (scores_conf true "") 2048 (Some db_getter) 1 empty_World
    = Ret (g, wd') /\
    nil_log g /\
    forall g1, nil_log g1 ->
      (forall d key val now1 r,
         cache_add (mainCache g1) d key val now1 = Ret r ->
         r.1.1 = None /\ r.2 = d) /\
      (forall d key now1 v err g2 d2,
         Group_Get g1 d key now1 = Ret (v, err, g2, d2) ->
         d2 = d /\ nil_log g2) /\
      (forall d key now1, key <> "" -> Group_Delete g1 d key now1 = Panic) /\
      (forall d now1,
         Group_Delete g1 d "" now1
         = Ret (Some (errors_New "key is required"), g1, d)).
Proof.
  do 2 eexists. split; [reflexivity|].
  eapply (Delete_panics_on_nil_write_sequence
            (scores_conf true "") 2048 (Some db_getter) 1 empty_World);
    reflexivity.
Defined.

End mycache_claims.

(** * Single flight: claims *)

Section singleflight_claims.
Import singleflight.
Context {R : Type}.
Implicit Types (s : state R) (p : point R) (g : GroupCall R).

(** [Do] with nobody else inside: [fn] runs once, its result is returned,
    and the map is left as it was found. *)
Lemma Do_alone {S : Type} g key (fn : S -> exec (R * S)) (st st' : S) r :
  m g !! key = None -> fn st = Ret (r, st') ->
  exists g', Do g key fn st = Ret (Some r, g', st') /\ m g' = m g.
Proof.
  intros Hm Hfn. unfold Do. rewrite Hm, Hfn, bind_Ret.
  eexists. split; [done|]. cbn. by rewrite delete_insert_id.
Qed.

Lemma calls_for_snoc (c c' : nat) (fs : list nat) :
  calls_for c (fs ++ [c'])
  = (calls_for c fs + if decide (c' = c) then 1 else 0)%nat.
Proof.
  unfold calls_for. rewrite filter_app, length_app. f_equal.
  rewrite filter_cons, filter_nil. by case_decide.
Qed.

Lemma calls_for_fresh (c : nat) (fs : list nat) :
  c ∉ fs -> calls_for c fs = 0%nat.
Proof.
  intros Hc. unfold calls_for.
  induction fs as [|c' fs IH]; [done|].
  rewrite filter_cons. apply not_elem_of_cons in Hc as [Hne Hc].
  rewrite decide_False by done. by apply IH.
Qed.

Lemma inv_initial keys : inv (R := R) (initial keys).
Proof.
  assert (Hent : forall t p,
            (Entering <$> keys : list (point R)) !! t = Some p ->
            exists key, p = Entering key).
  { intros t p Hp. rewrite list_lookup_fmap in Hp.
    destruct (keys !! t) as [key|]; [|done]. injection Hp as <-. eauto. }
  split; cbn [initial goroutines group fn_calls empty m calls].
  - intros t p Hp. by destruct (Hent t p Hp) as [key ->].
  - intros key c. rewrite lookup_empty. split; [done|].
    intros (t & p & Hp & Hh). by destruct (Hent t p Hp) as [k ->].
  - intros t1 t2 p1 p2 k1 k2 c Hp1 _ Hh. by destruct (Hent t1 p1 Hp1) as [k ->].
  - intros c cl Hc. by rewrite lookup_nil in Hc.
  - intros c Hc. by apply elem_of_nil in Hc.
  - intros c. unfold calls_for. rewrite filter_nil. simpl. lia.
Qed.

Lemma lookup_update (ts : list (point R)) t p' t' q :
  <[t := p']> ts !! t' = Some q ->
  (t' = t /\ q = p') \/ (t' <> t /\ ts !! t' = Some q).
Proof.
  intros H. apply list_lookup_insert_Some in H as [(-> & -> & _)|[? ?]]; auto.
Qed.

Lemma lookup_update_ne (ts : list (point R)) t p' t' q :
  t' <> t -> ts !! t' = Some q -> <[t := p']> ts !! t' = Some q.
Proof. intros. by rewrite list_lookup_insert_ne. Qed.

Lemma lookup_update_eq (ts : list (point R)) t p p' :
  ts !! t = Some p -> <[t := p']> ts !! t = Some p'.
Proof. intros H. apply list_lookup_insert_eq. by eapply lookup_lt_Some. Qed.

(** A goroutine that holds a generation has its call record allocated. *)
Lemma holds_allocated cs fs p key c :
  point_ok cs fs p -> holds p key c -> (c < length cs)%nat.
Proof.
  destruct p; cbn; try done; intros (cl & Hcl & _) [_ <-];
    by eapply lookup_lt_Some.
Qed.

(** A step of the goroutine [t] that neither takes nor gives up a
    generation. *)
Lemma inv_change g g' ts fs fs' t p p' :
  inv (mkState g ts fs) ->
  ts !! t = Some p ->
  (forall key c, holds p key c <-> holds p' key c) ->
  m g' = m g ->
  point_ok (calls g') fs' p' ->
  (forall t' q, t' <> t -> ts !! t' = Some q -> point_ok (calls g') fs' q) ->
  (forall c cl, calls g' !! c = Some cl -> wg cl = 0%nat ->
                is_Some (val_err cl)) ->
  (forall c, c ∈ fs' -> (c < length (calls g'))%nat) ->
  (forall c, (calls_for c fs' <= 1)%nat) ->
  inv (mkState g' (<[t := p']> ts) fs').
Proof.
  intros [Hpts Hmap Huniq Hdone Halloc Honce] Ht Hholds Hm Hok Hothers
    Hdone' Halloc' Honce'.
  cbn [goroutines group fn_calls] in *.
  split; cbn [goroutines group fn_calls]; try done.
  - intros t' q Hq. apply lookup_update in Hq as [[-> ->]|[Hne Hq]]; eauto.
  - intros key c. rewrite Hm, Hmap. split.
    + intros (t' & q & Hq & Hh). destruct (decide (t' = t)) as [->|Hne].
      * exists t, p'. split; [by eapply lookup_update_eq|].
        apply Hholds. congruence.
      * exists t', q. split; [by apply lookup_update_ne|done].
    + intros (t' & q & Hq & Hh).
      apply lookup_update in Hq as [[-> ->]|[Hne Hq]]; [|by eauto].
      exists t, p. split; [done|]. by apply Hholds.
  - intros t1 t2 p1 p2 k1 k2 c H1 H2 Hh1 Hh2.
    apply lookup_update in H1 as [[-> ->]|[Hne1 H1]];
      apply lookup_update in H2 as [[-> ->]|[Hne2 H2]]; try done.
    + apply Hholds in Hh1. by eapply (Huniq t t2).
    + apply Hholds in Hh2. by eapply (Huniq t1 t).
    + by eapply (Huniq t1 t2).
Qed.

Lemma inv_move g ts fs t p p' :
  inv (mkState g ts fs) ->
  ts !! t = Some p ->
  (forall key c, holds p key c <-> holds p' key c) ->
  point_ok (calls g) fs p' ->
  inv (mkState g (<[t := p']> ts) fs).
Proof.
  intros Hinv Ht Hholds Hok.
  eapply inv_change; try done; destruct Hinv; eauto.
Qed.

Lemma inv_step_join g ts fs t key c :
  inv (mkState g ts fs) ->
  ts !! t = Some (Entering key) -> m g !! key = Some c ->
  inv (mkState g (<[t := Waiting c]> ts) fs).
Proof.
  intros Hinv Ht Hm. eapply inv_move; [done|done|done|].
  destruct Hinv as [Hpts Hmap _ _ _ _]. cbn [goroutines group fn_calls] in *.
  apply Hmap in Hm as (t0 & p0 & Hp0 & Hh). cbn.
  eapply holds_allocated; [by eapply Hpts|done].
Qed.

Lemma inv_step_return g ts fs t c cl :
  inv (mkState g ts fs) ->
  ts !! t = Some (Removed c) -> calls g !! c = Some cl ->
  inv (mkState g (<[t := Returned c (val_err cl)]> ts) fs).
Proof.
  intros Hinv Ht Hc. eapply inv_move; [done|done|done|].
  destruct Hinv as [Hpts _ _ _ _ _]. cbn [goroutines group fn_calls] in *.
  apply Hpts in Ht as (cl' & Hcl' & Hwg). cbn.
  exists cl. split; [done|]. split; congruence.
Qed.

Lemma inv_step_wake g ts fs t c cl :
  inv (mkState g ts fs) ->
  ts !! t = Some (Waiting c) -> calls g !! c = Some cl -> wg cl = 0%nat ->
  inv (mkState g (<[t := Returned c (val_err cl)]> ts) fs).
Proof.
  intros Hinv Ht Hc Hwg. eapply inv_move; [done|done|done|].
  cbn. by exists cl.
Qed.


Lemma inv_step_call g ts fs t key c :
  inv (mkState g ts fs) ->
  ts !! t = Some (Registered key c) ->
  inv (mkState g (<[t := Running key c]> ts) (fs ++ [c])).
Proof.
  intros Hinv Ht. pose proof Hinv as [Hpts Hmap Huniq Hdone Halloc Honce].
  cbn [goroutines group fn_calls] in *.
  pose proof (Hpts _ _ Ht) as (cl & Hcl & Hwg & Hcount).
  eapply inv_change; try done.
  - cbn. eauto.
  - intros t' q Hne Hq. pose proof (Hpts _ _ Hq) as Hok.
    destruct q; try done. cbn in Hok |- *.
    destruct Hok as (cl' & Hcl' & Hwg' & Hcount').
    exists cl'. split_and!; try done.
    rewrite calls_for_snoc, decide_False; [lia|].
    intros Heq. apply Hne.
    eapply (Huniq t' t); [exact Hq|exact Ht|cbn; eauto|cbn; eauto].
  - intros c' Hc'. apply elem_of_app in Hc' as [Hc'|Hc']; [by apply Halloc|].
    apply list_elem_of_singleton in Hc' as ->. by eapply lookup_lt_Some.
  - intros c'. rewrite calls_for_snoc. case_decide as Hd.
    + subst c'. lia.
    + pose proof (Honce c'). lia.
Qed.

Lemma inv_step_store g ts fs t key c r cl :
  inv (mkState g ts fs) ->
  ts !! t = Some (Running key c) -> calls g !! c = Some cl ->
  inv (mkState (set_calls g (<[c := mkCall (wg cl) (Some r)]> (calls g)))
         (<[t := Stored key c]> ts) fs).
Proof.
  intros Hinv Ht Hc. pose proof Hinv as [Hpts Hmap Huniq Hdone Halloc Honce].
  cbn [goroutines group fn_calls] in *.
  pose proof (Hpts _ _ Ht) as (cl0 & Hcl0 & Hwg).
  assert (cl0 = cl) as -> by congruence.
  assert (Hlt : (c < length (calls g))%nat) by (by eapply lookup_lt_Some).
  assert (Hnew : forall c' cl',
            <[c := mkCall (wg cl) (Some r)]> (calls g) !! c' = Some cl' ->
            (c' = c /\ cl' = mkCall (wg cl) (Some r)) \/
            (c' <> c /\ calls g !! c' = Some cl')).
  { intros c' cl' H. apply list_lookup_insert_Some in H as [(-> & -> & _)|[? ?]];
      auto. }
  assert (Hkeep : forall c' cl',
            calls g !! c' = Some cl' ->
            exists cl'', <[c := mkCall (wg cl) (Some r)]> (calls g) !! c'
                         = Some cl'' /\
                         wg cl'' = wg cl' /\
                         (c' <> c -> cl'' = cl') /\
                         (is_Some (val_err cl') -> is_Some (val_err cl''))).
  { intros c' cl' H. destruct (decide (c' = c)) as [->|Hne].
    - eexists. rewrite list_lookup_insert_eq by done.
      split; [done|]. assert (cl' = cl) as -> by congruence.
      cbn. split_and!; eauto. done.
    - exists cl'. by rewrite list_lookup_insert_ne. }
  eapply inv_change; try done; cbn [set_calls calls].
  - cbn. destruct (Hkeep _ _ Hc) as (cl'' & H1 & H2 & _ & _).
    exists cl''. split_and!; [done|congruence|].
    rewrite list_lookup_insert_eq in H1 by done. injection H1 as <-. by cbn.
  - intros t' q Hne Hq. pose proof (Hpts _ _ Hq) as Hok.
    destruct q; cbn in Hok |- *; try done.
    + by rewrite length_insert.
    + destruct Hok as (cl' & Hcl' & Hwg' & Hcount).
      destruct (Hkeep _ _ Hcl') as (cl'' & H1 & H2 & _ & _).
      exists cl''. split_and!; [done|congruence|done].
    + destruct Hok as (cl' & Hcl' & Hwg').
      destruct (Hkeep _ _ Hcl') as (cl'' & H1 & H2 & _ & _).
      exists cl''. split_and!; [done|congruence].
    + destruct Hok as (cl' & Hcl' & Hwg' & Hval).
      destruct (Hkeep _ _ Hcl') as (cl'' & H1 & H2 & _ & H4).
      exists cl''. split_and!; [done|congruence|by apply H4].
    + destruct Hok as (cl' & Hcl' & Hwg').
      destruct (Hkeep _ _ Hcl') as (cl'' & H1 & H2 & _ & _).
      exists cl''. split_and!; [done|congruence].
    + destruct Hok as (cl' & Hcl' & Hwg').
      destruct (Hkeep _ _ Hcl') as (cl'' & H1 & H2 & _ & _).
      exists cl''. split_and!; [done|congruence].
    + destruct Hok as (cl' & Hcl' & Hwg' & Hval).
      destruct (Hkeep _ _ Hcl') as (cl'' & H1 & H2 & H3 & _).
      exists cl''. split_and!; [done|congruence|].
      rewrite H3; [done|]. intros ->.
      assert (cl' = cl) by congruence. subst cl'. lia.
  - intros c' cl' Hc' Hwg'.
    apply Hnew in Hc' as [[-> ->]|[Hne Hc']]; [by cbn|by eapply Hdone].
  - intros c' Hc'. rewrite length_insert. by apply Halloc.
Qed.


Lemma inv_step_done g ts fs t key c cl :
  inv (mkState g ts fs) ->
  ts !! t = Some (Stored key c) -> calls g !! c = Some cl ->
  inv (mkState (set_calls g (<[c := mkCall (pred (wg cl)) (val_err cl)]>
                               (calls g)))
         (<[t := Released key c]> ts) fs).
Proof.
  intros Hinv Ht Hc. pose proof Hinv as [Hpts Hmap Huniq Hdone Halloc Honce].
  cbn [goroutines group fn_calls] in *.
  pose proof (Hpts _ _ Ht) as (cl0 & Hcl0 & Hwg & Hval).
  assert (cl0 = cl) as -> by congruence.
  assert (Hlt : (c < length (calls g))%nat) by (by eapply lookup_lt_Some).
  assert (Hother : forall c' cl',
            c' <> c -> calls g !! c' = Some cl' ->
            <[c := mkCall (pred (wg cl)) (val_err cl)]> (calls g) !! c'
            = Some cl').
  { intros c' cl' Hne H. by rewrite list_lookup_insert_ne. }
  eapply inv_change; try done; cbn [set_calls calls].
  - cbn. eexists. rewrite list_lookup_insert_eq by done.
    split; [done|]. cbn. lia.
  - intros t' q Hne Hq. pose proof (Hpts _ _ Hq) as Hok.
    assert (Hnot : forall k, holds q k c -> False).
    { intros k Hh. apply Hne.
      eapply (Huniq t' t); [exact Hq|exact Ht|exact Hh|cbn; eauto]. }
    destruct q; cbn in Hok |- *; try done.
    + by rewrite length_insert.
    + destruct Hok as (cl' & Hcl' & Hrest). exists cl'.
      split; [|done]. apply Hother; [|done]. intros ->. by eapply Hnot; cbn.
    + destruct Hok as (cl' & Hcl' & Hrest). exists cl'.
      split; [|done]. apply Hother; [|done]. intros ->. by eapply Hnot; cbn.
    + destruct Hok as (cl' & Hcl' & Hrest). exists cl'.
      split; [|done]. apply Hother; [|done]. intros ->. by eapply Hnot; cbn.
    + destruct Hok as (cl' & Hcl' & Hrest). exists cl'.
      split; [|done]. apply Hother; [|done]. intros ->. by eapply Hnot; cbn.
    + destruct Hok as (cl' & Hcl' & Hwg'). exists cl'.
      split; [|done]. apply Hother; [|done]. intros ->.
      assert (cl' = cl) by congruence. subst cl'. lia.
    + destruct Hok as (cl' & Hcl' & Hwg' & Hr). exists cl'.
      split; [|done]. apply Hother; [|done]. intros ->.
      assert (cl' = cl) by congruence. subst cl'. lia.
  - intros c' cl' Hc' Hwg'.
    apply list_lookup_insert_Some in Hc' as [(-> & <- & _)|[Hne Hc']];
      [by cbn|by eapply Hdone].
  - intros c' Hc'. rewrite length_insert. by apply Halloc.
Qed.

Lemma inv_step_delete g ts fs t key c :
  inv (mkState g ts fs) ->
  ts !! t = Some (Released key c) ->
  inv (mkState {| m := delete key (m g); calls := calls g |}
         (<[t := Removed c]> ts) fs).
Proof.
  intros [Hpts Hmap Huniq Hdone Halloc Honce] Ht.
  cbn [goroutines group fn_calls] in *.
  pose proof (Hpts _ _ Ht) as (cl & Hcl & Hwg).
  assert (Hmk : m g !! key = Some c).
  { apply Hmap. exists t, (Released key c). by cbn. }
  split; cbn [goroutines group fn_calls m calls]; try done.
  - intros t' q Hq. apply lookup_update in Hq as [[-> ->]|[Hne Hq]]; [|eauto].
    cbn. eauto.
  - intros key' c'. rewrite lookup_delete_Some, Hmap. split.
    + intros (Hk & t' & q & Hq & Hh). exists t', q. split; [|done].
      apply lookup_update_ne; [|done]. intros ->.
      assert (q = Released key c) as -> by congruence.
      cbn in Hh. by destruct Hh.
    + intros (t' & q & Hq & Hh).
      apply lookup_update in Hq as [[-> ->]|[Hne Hq]]; [done|].
      split; [|by eauto]. intros <-.
      assert (m g !! key = Some c') as Hmk' by (apply Hmap; eauto).
      assert (c' = c) as -> by congruence.
      apply Hne. eapply (Huniq t' t); [exact Hq|exact Ht|exact Hh|by cbn].
  - intros t1 t2 p1 p2 k1 k2 c' H1 H2 Hh1 Hh2.
    apply lookup_update in H1 as [[-> ->]|[Hne1 H1]];
      apply lookup_update in H2 as [[-> ->]|[Hne2 H2]]; try done.
    by eapply (Huniq t1 t2).
Qed.

Lemma point_ok_alloc (cs : list (call R)) fs cl q :
  point_ok cs fs q -> point_ok (cs ++ [cl]) fs q.
Proof.
  destruct q; cbn; try done.
  - rewrite length_app. cbn. lia.
  - intros (cl' & H & ?). exists cl'. split; [|done].
    rewrite lookup_app_l; [done|by eapply lookup_lt_Some].
  - intros (cl' & H & ?). exists cl'. split; [|done].
    rewrite lookup_app_l; [done|by eapply lookup_lt_Some].
  - intros (cl' & H & ?). exists cl'. split; [|done].
    rewrite lookup_app_l; [done|by eapply lookup_lt_Some].
  - intros (cl' & H & ?). exists cl'. split; [|done].
    rewrite lookup_app_l; [done|by eapply lookup_lt_Some].
  - intros (cl' & H & ?). exists cl'. split; [|done].
    rewrite lookup_app_l; [done|by eapply lookup_lt_Some].
  - intros (cl' & H & ?). exists cl'. split; [|done].
    rewrite lookup_app_l; [done|by eapply lookup_lt_Some].
Qed.

Lemma inv_step_register g ts fs t key :
  inv (mkState g ts fs) ->
  ts !! t = Some (Entering key) -> m g !! key = None ->
  inv (mkState {| m := <[key := length (calls g)]> (m g);
                  calls := calls g ++ [mkCall 1 None] |}
         (<[t := Registered key (length (calls g))]> ts) fs).
Proof.
  intros [Hpts Hmap Huniq Hdone Halloc Honce] Ht Hm.
  cbn [goroutines group fn_calls] in *.
  assert (Hfresh : forall t' q k,
            ts !! t' = Some q -> holds q k (length (calls g)) -> False).
  { intros t' q k Hq Hh.
    pose proof (holds_allocated _ _ _ _ _ (Hpts _ _ Hq) Hh). lia. }
  split; cbn [goroutines group fn_calls m calls]; try done.
  - intros t' q Hq. apply lookup_update in Hq as [[-> ->]|[Hne Hq]].
    + cbn. exists (mkCall 1 None). split_and!; [|done|].
      * by rewrite lookup_app_r, Nat.sub_diag by lia.
      * apply calls_for_fresh. intros Hin. apply Halloc in Hin. lia.
    + apply point_ok_alloc. eauto.
  - intros key' c'. split.
    + intros Hl. apply lookup_insert_Some in Hl as [[<- <-]|[Hne Hl]].
      * exists t, (Registered key (length (calls g))).
        split; [by eapply lookup_update_eq|by cbn].
      * apply Hmap in Hl as (t' & q & Hq & Hh). exists t', q.
        split; [|done]. apply lookup_update_ne; [|done]. intros ->.
        assert (q = Entering key) as -> by congruence. done.
    + intros (t' & q & Hq & Hh).
      apply lookup_update in Hq as [[-> ->]|[Hne Hq]].
      * cbn in Hh. destruct Hh as [<- <-]. by rewrite lookup_insert_eq.
      * assert (m g !! key' = Some c') as Hl by (apply Hmap; eauto).
        rewrite lookup_insert_ne; [done|]. intros <-. congruence.
  - intros t1 t2 p1 p2 k1 k2 c' H1 H2 Hh1 Hh2.
    apply lookup_update in H1 as [[-> ->]|[Hne1 H1]];
      apply lookup_update in H2 as [[-> ->]|[Hne2 H2]]; try done.
    + cbn in Hh1. destruct Hh1 as [_ <-]. by destruct (Hfresh _ _ _ H2 Hh2).
    + cbn in Hh2. destruct Hh2 as [_ <-]. by destruct (Hfresh _ _ _ H1 Hh1).
    + by eapply (Huniq t1 t2).
  - intros c' cl' Hc' Hwg'. apply lookup_snoc_Some in Hc' as [[_ Hc']|[_ <-]];
      [by eapply Hdone|done].
  - intros c' Hc'. rewrite length_app. apply Halloc in Hc'. lia.
Qed.

Lemma inv_step s s' : inv s -> step s s' -> inv s'.
Proof.
  intros Hinv Hstep. destruct Hstep.
  - by eapply inv_step_join.
  - by eapply inv_step_register.
  - by eapply inv_step_call.
  - by eapply inv_step_store.
  - by eapply inv_step_done.
  - by eapply inv_step_delete.
  - by eapply inv_step_return.
  - by eapply inv_step_wake.
Qed.

Lemma inv_reachable keys s : reachable keys s -> inv s.
Proof.
  induction 1 as [|s s' _ IH Hstep]; [apply inv_initial|by eapply inv_step].
Qed.


(** C7: whatever the interleaving of the goroutines that call [Do],
    [fn] is called at most once for each call record, that is once per
    generation: a record is in the map of its key exactly while the
    goroutine that created it is between the insertion and the removal,
    and no key has two such goroutines at a time.  All callers that return
    from one generation, the one that ran [fn] and those that found its
    record in the map, return one and the same pair of value and error,
    the one that [fn] returned. *)
Theorem Do_runs_fn_once_per_generation keys s :
  reachable keys s ->
  (forall c, (calls_for c (fn_calls s) <= 1)%nat) /\
  (forall t1 t2 c r1 r2,
     goroutines s !! t1 = Some (Returned c r1) ->
     goroutines s !! t2 = Some (Returned c r2) ->
     r1 = r2 /\ is_Some r1) /\
  (forall key c,
     m (group s) !! key = Some c <->
     exists t p, goroutines s !! t = Some p /\ holds p key c) /\
  (forall t1 t2 p1 p2 key c1 c2,
     goroutines s !! t1 = Some p1 -> goroutines s !! t2 = Some p2 ->
     holds p1 key c1 -> holds p2 key c2 -> t1 = t2 /\ c1 = c2).
Proof.
  intros Hreach. apply inv_reachable in Hreach.
  destruct Hreach as [Hpts Hmap Huniq Hdone Halloc Honce].
  split_and!; [done| |done|].
  - intros t1 t2 c r1 r2 H1 H2.
    apply Hpts in H1 as (cl1 & Hc1 & Hwg1 & <-).
    apply Hpts in H2 as (cl2 & Hc2 & Hwg2 & <-).
    assert (cl2 = cl1) as -> by congruence.
    split; [done|by eapply Hdone].
  - intros t1 t2 p1 p2 key c1 c2 H1 H2 Hh1 Hh2.
    assert (c1 = c2) as <-.
    { assert (m (group s) !! key = Some c1) as Hm1 by (apply Hmap; eauto).
      assert (m (group s) !! key = Some c2) as Hm2 by (apply Hmap; eauto).
      congruence. }
    split; [|done]. by eapply (Huniq t1 t2).
Qed.

End singleflight_claims.

(** Three callers of [Do("k", fn)]: the first registers and runs [fn],
    which returns "v"; the second joins before [fn] is called, the third
    after [c.wg.Done()] and before the entry is removed; all three return
    "v", and [fn] ran once. *)
Lemma Do_runs_fn_once_per_generation_witness :
  exists s : singleflight.state string,
    singleflight.reachable ["k"; "k"; "k"] s /\
    singleflight.goroutines s
    = [singleflight.Returned 0 (Some "v"); singleflight.Returned 0 (Some "v");
       singleflight.Returned 0 (Some "v")] /\
    singleflight.fn_calls s = [0%nat] /\
    (forall c, (calls_for c (singleflight.fn_calls s) <= 1)%nat) /\
    (forall t1 t2 c r1 r2,
       singleflight.goroutines s !! t1 = Some (singleflight.Returned c r1) ->
       singleflight.goroutines s !! t2 = Some (singleflight.Returned c r2) ->
       r1 = r2 /\ is_Some r1) /\
    (forall key c,
       singleflight.m (singleflight.group s) !! key = Some c <->
       exists t p, singleflight.goroutines s !! t = Some p /\ holds p key c) /\
    (forall t1 t2 p1 p2 key c1 c2,
       singleflight.goroutines s !! t1 = Some p1 ->
       singleflight.goroutines s !! t2 = Some p2 ->
       holds p1 key c1 -> holds p2 key c2 -> t1 = t2 /\ c1 = c2).
Proof.
  pose proof (singleflight.reachable_initial (R := string) ["k"; "k"; "k"])
    as H0.
  unfold singleflight.initial, singleflight.empty in H0. cbn [fmap list_fmap] in H0.
  eassert (H1 : singleflight.reachable _ _).
  { eapply singleflight.reachable_step; [exact H0|].
    eapply singleflight.step_register with (t := 0%nat) (key := "k");
      reflexivity. }
  eassert (H2 : singleflight.reachable _ _).
  { eapply singleflight.reachable_step; [exact H1|].
    eapply singleflight.step_join with (t := 1%nat) (key := "k");
      reflexivity. }
  eassert (H3 : singleflight.reachable _ _).
  { eapply singleflight.reachable_step; [exact H2|].
    eapply singleflight.step_call with (t := 0%nat); reflexivity. }
  eassert (H4 : singleflight.reachable _ _).
  { eapply singleflight.reachable_step; [exact H3|].
    eapply singleflight.step_store with (t := 0%nat) (r := "v");
      reflexivity. }
  eassert (H5 : singleflight.reachable _ _).
  { eapply singleflight.reachable_step; [exact H4|].
    eapply singleflight.step_done with (t := 0%nat); reflexivity. }
  eassert (H6 : singleflight.reachable _ _).
  { eapply singleflight.reachable_step; [exact H5|].
    eapply singleflight.step_join with (t := 2%nat) (key := "k");
      reflexivity. }
  eassert (H7 : singleflight.reachable _ _).
  { eapply singleflight.reachable_step; [exact H6|].
    eapply singleflight.step_delete with (t := 0%nat); reflexivity. }
  eassert (H8 : singleflight.reachable _ _).
  { eapply singleflight.reachable_step; [exact H7|].
    eapply singleflight.step_return with (t := 0%nat); reflexivity. }
  eassert (H9 : singleflight.reachable _ _).
  { eapply singleflight.reachable_step; [exact H8|].
    eapply singleflight.step_wake with (t := 1%nat); reflexivity. }
  eassert (H10 : singleflight.reachable _ _).
  { eapply singleflight.reachable_step; [exact H9|].
    eapply singleflight.step_wake with (t := 2%nat); reflexivity. }
  eexists. split; [exact H10|].
  split; [reflexivity|]. split; [reflexivity|].
  exact (Do_runs_fn_once_per_generation _ _ H10).
Defined.

(** * The LRU as a list of entries *)

Section lru_extras.
Import lru.
Context {V : Type} `{!ComputableValue V}.
Implicit Types (c : Cache V) (es : list (string * V)).

Lemma len_nonneg (s : string) : 0 <= len s.
Proof. unfold len. lia. Qed.

Lemma bytes_of_app es1 es2 : bytes_of (es1 ++ es2) = bytes_of es1 + bytes_of es2.
Proof.
  induction es1 as [|kv es1 IH]; cbn; [done|].
  fold (bytes_of (es1 ++ es2)) (bytes_of es1). rewrite IH. lia.
Qed.

Lemma bytes_of_cons kv es : bytes_of (kv :: es) = len kv.1 + Len kv.2 + bytes_of es.
Proof. reflexivity. Qed.

Lemma bytes_of_nonneg es :
  Forall (fun kv => 0 <= Len kv.2) es -> 0 <= bytes_of es.
Proof.
  induction 1 as [|kv es Hkv _ IH]; [done|].
  rewrite bytes_of_cons. pose proof (len_nonneg kv.1). lia.
Qed.

Lemma represents_New maxBytes onEvicted :
  consistent (New (V := V) maxBytes onEvicted) [].
Proof.
  split; [|cbn; lia].
  split; cbn; try done; constructor.
Qed.

Lemma represents_entries c es : represents c es -> entries c = es.
Proof.
  intros [Hll _ _ _ _ _]. unfold entries.
  induction Hll as [|e kv l es [He _] _ IH]; [done|].
  cbn. rewrite He. cbn. rewrite IH. by destruct kv.
Qed.

Lemma represents_entries_bytes c es :
  represents c es -> entries_bytes c = nbytes c.
Proof.
  intros Hrep. unfold entries_bytes. rewrite (represents_entries c es Hrep).
  by destruct Hrep.
Qed.

(** The keys of the map are the keys of the entries. *)
Lemma represents_lookup c es k :
  represents c es ->
  (exists e, cache c !! k = Some e) <-> k ∈ es.*1.
Proof.
  intros [Hll _ Hcache _ _ _]. split.
  - intros [e He]. apply Hcache in He as (Hin & v & Hv).
    apply list_elem_of_lookup in Hin as [i Hi].
    destruct (Forall2_lookup_l _ _ _ _ _ Hll Hi) as (kv & Hkv & Hel & Hc).
    assert (kv.1 = k) as <- by congruence.
    apply list_elem_of_fmap. exists kv. split; [done|].
    by eapply list_elem_of_lookup_2.
  - intros Hin. apply list_elem_of_fmap in Hin as (kv & -> & Hin).
    apply list_elem_of_lookup in Hin as [i Hi].
    destruct (Forall2_lookup_r _ _ _ _ _ Hll Hi) as (e & He & Hel & Hc).
    eauto.
Qed.

Lemma represents_lookup_None c es k :
  represents c es -> k ∉ es.*1 -> cache c !! k = None.
Proof.
  intros Hrep Hk. destruct (cache c !! k) as [e|] eqn:E; [|done].
  exfalso. apply Hk. eapply represents_lookup; eauto.
Qed.


Lemma filter_ne_notin (l : list nat) (e : nat) :
  e ∉ l -> filter (fun e' => e' ≠ e) l = l.
Proof.
  induction l as [|x l IH]; [done|]. intros Hnot.
  apply not_elem_of_cons in Hnot as [Hne Hnot].
  rewrite filter_cons, decide_True by done. by rewrite IH.
Qed.

Lemma filter_ne_NoDup (l1 l2 : list nat) (e : nat) :
  NoDup (l1 ++ e :: l2) -> filter (fun e' => e' ≠ e) (l1 ++ e :: l2) = l1 ++ l2.
Proof.
  intros Hnd. apply NoDup_app in Hnd as (Hnd1 & Hdis & Hnd2).
  apply NoDup_cons in Hnd2 as [Hnot Hnd2].
  rewrite filter_app, filter_cons, decide_False by (intros Hne; by apply Hne).
  rewrite !filter_ne_notin; [done|done|].
  intros Hin. apply (Hdis e Hin). by left.
Qed.

(** Where the entry of a key sits. *)
Lemma represents_split c es1 k v es2 :
  represents c (es1 ++ (k, v) :: es2) ->
  exists l1 e l2,
    ll c = l1 ++ e :: l2 /\
    cache c !! k = Some e /\ elements c !! e = Some (entry k v) /\
    Forall2 (fun e kv => elements c !! e = Some (entry kv.1 kv.2) /\
                         cache c !! kv.1 = Some e) l1 es1 /\
    Forall2 (fun e kv => elements c !! e = Some (entry kv.1 kv.2) /\
                         cache c !! kv.1 = Some e) l2 es2.
Proof.
  intros [Hll _ _ _ _ _].
  apply Forall2_app_inv_r in Hll as (l1 & l2' & H1 & H2 & Heq).
  apply Forall2_cons_inv_r in H2 as (e & l2 & [He Hc] & H2 & ->).
  exists l1, e, l2. by split_and!.
Qed.

(** [Get] of a key that is present returns its value and makes its entry
    the most recently used one; nothing else changes. *)
Lemma lru_Get_present c es1 k v es2 :
  consistent c (es1 ++ (k, v) :: es2) ->
  exists c',
    Get k c = Ret (Some v, true, c') /\
    consistent c' ((k, v) :: es1 ++ es2) /\
    maxBytes c' = maxBytes c /\ evicted c' = evicted c /\
    OnEvicted c' = OnEvicted c.
Proof.
  intros [Hrep Hcap].
  destruct (represents_split _ _ _ _ _ Hrep)
    as (l1 & e & l2 & Hll & Hc & He & H1 & H2).
  destruct Hrep as [_ Hnd Hcache Hnb Hsz Hmax].
  unfold Get. rewrite Hc. unfold MoveToFront.
  rewrite decide_True
    by (rewrite Hll; apply elem_of_app; right; apply elem_of_cons; by left).
  unfold Value_entry. cbn [elements]. rewrite He, bind_Ret.
  eexists. split; [reflexivity|]. cbn [maxBytes evicted OnEvicted].
  split_and!; try done.
  assert (Hb : bytes_of ((k, v) :: es1 ++ es2)
               = bytes_of (es1 ++ (k, v) :: es2)).
  { rewrite bytes_of_cons, !bytes_of_app, bytes_of_cons. lia. }
  split; [|cbn [maxBytes]; by rewrite Hb].
  rewrite Hll in *. rewrite filter_ne_NoDup by done.
  split; cbn [ll elements cache nbytes].
  - constructor; [done|]. by apply Forall2_app.
  - apply NoDup_cons. apply NoDup_app in Hnd as (Hnd1 & Hdis & Hnd2).
    apply NoDup_cons in Hnd2 as [Hnot Hnd2]. split.
    + intros Hin. apply elem_of_app in Hin as [Hin|Hin]; [|done].
      apply (Hdis e Hin). by left.
    + apply NoDup_app. split_and!; [done| |done].
      intros x Hx1 Hx2. apply (Hdis x Hx1). by right.
  - intros k' e' Hk'. apply Hcache in Hk' as [Hin Hv]. split; [|done].
    apply elem_of_app in Hin as [Hin|Hin].
    + apply elem_of_cons. right. apply elem_of_app. by left.
    + apply elem_of_cons in Hin as [->|Hin]; [by left|].
      apply elem_of_cons. right. apply elem_of_app. by right.
  - by rewrite Hb.
  - apply Forall_app in Hsz as [Hs1 Hs2].
    apply Forall_cons in Hs2 as [Hs2 Hs3].
    constructor; [done|]. by apply Forall_app.
  - by rewrite Hb.
Qed.

(** [Get] of a key that is absent changes nothing. *)
Lemma lru_Get_absent c es k :
  represents c es -> k ∉ es.*1 -> Get k c = Ret (None, false, c).
Proof.
  intros Hrep Hk. unfold Get. by rewrite (represents_lookup_None c es k).
Qed.


(** The representation only looks at the list, the heap, the map and the
    counter. *)
Lemma represents_ext c c' es :
  represents c es ->
  ll c' = ll c -> elements c' = elements c -> cache c' = cache c ->
  nbytes c' = nbytes c ->
  represents c' es.
Proof.
  intros [Hll Hnd Hcache Hnb Hsz Hmax] E1 E2 E3 E4.
  split; rewrite ?E1, ?E2, ?E3, ?E4; try done.
  all: try (eapply Forall2_impl; [exact Hll|]; intros e kv; by rewrite E2, E3).
  all: try (intros k e; rewrite ?E1, ?E2, ?E3; apply Hcache).
Qed.

Lemma Forall2_impl_elem {A B} (P Q : A -> B -> Prop) (l : list A)
    (k : list B) :
  Forall2 P l k -> (forall x y, x ∈ l -> P x y -> Q x y) -> Forall2 Q l k.
Proof.
  induction 1 as [|x y l k HP _ IH]; intros HPQ; constructor.
  - apply HPQ; [by left|done].
  - apply IH. intros x' y' Hx'. apply HPQ. by right.
Qed.

(** Taking the entry of [k] out of the list and of the map. *)
Lemma represents_remove c es1 k v es2 :
  represents c (es1 ++ (k, v) :: es2) ->
  exists l1 e l2,
    ll c = l1 ++ e :: l2 /\
    cache c !! k = Some e /\ elements c !! e = Some (entry k v) /\
    filter (fun e' => e' ≠ e) (ll c) = l1 ++ l2 /\
    length l2 = length es2 /\
    nbytes c - (len k + Len v) = bytes_of (es1 ++ es2) /\
    0 <= len k + Len v <= nbytes c /\ nbytes c <= MaxInt64 /\
    forall c',
      ll c' = l1 ++ l2 -> elements c' = elements c ->
      cache c' = delete k (cache c) ->
      nbytes c' = bytes_of (es1 ++ es2) ->
      represents c' (es1 ++ es2).
Proof.
  intros Hrep.
  destruct (represents_split _ _ _ _ _ Hrep)
    as (l1 & e & l2 & Hll & Hc & He & H1 & H2).
  destruct Hrep as [Hall Hnd Hcache Hnb Hsz Hmax].
  exists l1, e, l2.
  apply Forall_app in Hsz as [Hs1 Hs2].
  apply Forall_cons in Hs2 as [Hs2 Hs3].
  rewrite bytes_of_app, bytes_of_cons in Hmax, Hnb. cbn [fst snd] in *.
  pose proof (bytes_of_nonneg _ Hs1). pose proof (bytes_of_nonneg _ Hs3).
  pose proof (len_nonneg k).
  split_and!; try done.
  - rewrite Hll. apply filter_ne_NoDup. by rewrite <- Hll.
  - by eapply Forall2_length.
  - rewrite bytes_of_app. lia.
  - lia.
  - lia.
  - lia.
  - intros c' E1 E2 E3 E4.
    rewrite Hll in Hnd.
    apply NoDup_app in Hnd as (Hnd1 & Hdis & Hnd2).
    apply NoDup_cons in Hnd2 as [Hnot Hnd2].
    assert (Hnot1 : e ∉ l1).
    { intros Hin. apply (Hdis e Hin). by left. }
    assert (Hkeep : forall x kv,
              x ≠ e ->
              elements c !! x = Some (entry kv.1 kv.2) /\
              cache c !! kv.1 = Some x ->
              elements c' !! x = Some (entry kv.1 kv.2) /\
              cache c' !! kv.1 = Some x).
    { intros x kv Hx [Hel Hck]. rewrite E2, E3. split; [done|].
      rewrite lookup_delete_ne; [done|]. intros Heq.
      rewrite <- Heq in Hck. congruence. }
    split; rewrite ?E1; try done.
    + apply Forall2_app.
      * eapply Forall2_impl_elem; [exact H1|]. intros x kv Hx. apply Hkeep.
        by intros ->.
      * eapply Forall2_impl_elem; [exact H2|]. intros x kv Hx. apply Hkeep.
        by intros ->.
    + apply NoDup_app. split_and!; [done| |done].
      intros x Hx1 Hx2. apply (Hdis x Hx1). by right.
    + intros k' e' Hk'. rewrite E3 in Hk'. rewrite E2.
      apply lookup_delete_Some in Hk' as [Hne Hk'].
      apply Hcache in Hk' as [Hin Hv]. split; [|done].
      rewrite Hll in Hin. apply elem_of_app in Hin as [Hin|Hin].
      * apply elem_of_app. by left.
      * apply elem_of_cons in Hin as [->|Hin]; [|apply elem_of_app; by right].
        destruct Hv as [v' Hv']. congruence.
    + by apply Forall_app.
    + rewrite bytes_of_app. lia.
Qed.

Lemma represents_call_OnEvicted c es k v :
  represents c es -> represents (call_OnEvicted k v c) es.
Proof.
  intros Hrep. unfold call_OnEvicted.
  destruct (OnEvicted c); [|done]. by eapply represents_ext.
Qed.

Lemma maxBytes_call_OnEvicted k v c :
  maxBytes (call_OnEvicted k v c) = maxBytes c.
Proof. unfold call_OnEvicted. by destruct (OnEvicted c). Qed.

Lemma OnEvicted_call_OnEvicted k v c :
  OnEvicted (call_OnEvicted k v c) = OnEvicted c.
Proof. unfold call_OnEvicted. by destruct (OnEvicted c) eqn:E. Qed.

Lemma evicted_call_OnEvicted k v c :
  evicted (call_OnEvicted k v c)
  = evicted c ++ (if OnEvicted c then [(k, v)] else []).
Proof.
  unfold call_OnEvicted. destruct (OnEvicted c); [done|].
  by rewrite app_nil_r.
Qed.

(** [Remove] of a key that is present (and not empty) takes its entry
    out; the callback, when there is one, is told. *)
Lemma lru_Remove_present c es1 k v es2 :
  consistent c (es1 ++ (k, v) :: es2) -> k <> "" ->
  exists c',
    Remove k c = Ret c' /\
    consistent c' (es1 ++ es2) /\
    maxBytes c' = maxBytes c /\ OnEvicted c' = OnEvicted c /\
    evicted c' = evicted c ++ (if OnEvicted c then [(k, v)] else []).
Proof.
  intros [Hrep Hcap] Hk.
  destruct (represents_remove _ _ _ _ _ Hrep)
    as (l1 & e & l2 & Hll & Hc & He & Hfilter & _ & Hbytes & Hsize & Hmax & Hnew).
  pose proof Hrep as [_ _ _ Hnb Hsz _].
  unfold Remove. rewrite decide_False.
  2:{ unfold len. destruct k; [done|]. cbn. lia. }
  rewrite Hc. unfold Value_entry. rewrite He, bind_Ret.
  eexists. split; [reflexivity|].
  assert (Hb : bytes_of (es1 ++ es2) <= bytes_of (es1 ++ (k, v) :: es2)).
  { rewrite <- Hbytes, <- Hnb. lia. }
  unfold MaxInt64 in *.
  split_and!.
  - split.
    + apply represents_call_OnEvicted.
      apply Hnew; cbn [ll elements cache nbytes set_nbytes set_cache ll_Remove];
        try done.
      rewrite (int64_small (len k + Len v)) by lia.
      rewrite int64_small by lia. done.
    + rewrite maxBytes_call_OnEvicted.
      cbn [maxBytes set_nbytes set_cache ll_Remove].
      intros Hpos. specialize (Hcap Hpos). lia.
  - by rewrite maxBytes_call_OnEvicted.
  - by rewrite OnEvicted_call_OnEvicted.
  - by rewrite evicted_call_OnEvicted.
Qed.

(** [Remove] of an absent key, and of the empty key, changes nothing. *)
Lemma lru_Remove_absent c es k :
  represents c es -> k ∉ es.*1 \/ k = "" -> Remove k c = Ret c.
Proof.
  intros Hrep Hk. unfold Remove. case_decide as Hlen; [done|].
  destruct Hk as [Hk| ->]; [|done].
  by rewrite (represents_lookup_None c es k).
Qed.

(** [RemoveOldest] takes out the least recently used entry, and does
    nothing on an empty cache. *)
Lemma lru_RemoveOldest_represents c es k v :
  represents c (es ++ [(k, v)]) ->
  exists c',
    RemoveOldest c = Ret c' /\
    represents c' es /\
    maxBytes c' = maxBytes c /\ OnEvicted c' = OnEvicted c /\
    evicted c' = evicted c ++ (if OnEvicted c then [(k, v)] else []).
Proof.
  intros Hrep.
  destruct (represents_remove _ _ _ _ _ Hrep)
    as (l1 & e & l2 & Hll & Hc & He & Hfilter & Hl2 & Hbytes & Hsize & Hmax & Hnew).
  destruct l2; [|done]. rewrite !app_nil_r in *.
  pose proof Hrep as [_ _ _ Hnb Hsz _].
  unfold RemoveOldest, Back. rewrite Hll, last_snoc.
  unfold Value_entry. cbn [ll_Remove elements]. rewrite He, bind_Ret.
  eexists. split; [reflexivity|].
  unfold MaxInt64 in *.
  split_and!.
  - apply represents_call_OnEvicted.
    apply Hnew; cbn [ll elements cache nbytes set_nbytes set_cache ll_Remove];
      try done.
    rewrite (int64_small (len k + Len v)) by lia.
    rewrite int64_small by lia. done.
  - by rewrite maxBytes_call_OnEvicted.
  - by rewrite OnEvicted_call_OnEvicted.
  - by rewrite evicted_call_OnEvicted.
Qed.

Lemma bytes_of_snoc_le es k v :
  Forall (fun kv => 0 <= Len kv.2) (es ++ [(k, v)]) ->
  bytes_of es <= bytes_of (es ++ [(k, v)]).
Proof.
  intros Hsz. apply Forall_app in Hsz as [_ Hsz].
  rewrite Forall_singleton in Hsz. cbn [fst snd] in Hsz.
  rewrite bytes_of_app, bytes_of_cons. cbn [fst snd].
  change (bytes_of (V := V) []) with 0.
  pose proof (len_nonneg k). lia.
Qed.

Lemma lru_RemoveOldest_last c es k v :
  consistent c (es ++ [(k, v)]) ->
  exists c',
    RemoveOldest c = Ret c' /\
    consistent c' es /\
    maxBytes c' = maxBytes c /\ OnEvicted c' = OnEvicted c /\
    evicted c' = evicted c ++ (if OnEvicted c then [(k, v)] else []).
Proof.
  intros [Hrep Hcap].
  destruct (lru_RemoveOldest_represents c es k v Hrep)
    as (c' & Hrm & Hrep' & Hm & Ho & Hev).
  exists c'. split_and!; try done.
  split; [done|]. rewrite Hm. intros Hpos. specialize (Hcap Hpos).
  pose proof Hrep as [_ _ _ _ Hsz _].
  pose proof (bytes_of_snoc_le es k v Hsz). lia.
Qed.

Lemma lru_RemoveOldest_empty c : represents c [] -> RemoveOldest c = Ret c.
Proof.
  intros [Hll _ _ _ _ _]. apply Forall2_nil_inv_r in Hll.
  unfold RemoveOldest, Back. by rewrite Hll.
Qed.

(** The eviction loop of [Add] takes entries from the end of the list
    until the counter is within the bound, and not one more. *)
Lemma lru_Add_evict es : forall c fuel,
  represents c es -> (length es < fuel)%nat ->
  exists c' m,
    Add_evict fuel c = Ret c' /\
    (m <= length es)%nat /\
    consistent c' (take m es) /\
    (m = length es \/
     (0 < maxBytes c /\ maxBytes c < bytes_of (take (S m) es))) /\
    maxBytes c' = maxBytes c /\ OnEvicted c' = OnEvicted c /\
    evicted c'
    = evicted c ++ (if OnEvicted c then reverse (drop m es) else []).
Proof.
  induction es as [|[k v] es IH] using rev_ind; intros c fuel Hrep Hfuel.
  - destruct fuel as [|fuel]; [cbn in Hfuel; lia|]. cbn [Add_evict].
    pose proof Hrep as [_ _ _ Hnb _ _].
    rewrite decide_False by (rewrite Hnb; cbn; lia).
    exists c, 0%nat. cbn [take drop reverse length].
    split_and!; try done.
    + split; [done|]. cbn. lia.
    + by left.
    + destruct (OnEvicted c); by rewrite app_nil_r.
  - destruct fuel as [|fuel]; [cbn in Hfuel; lia|]. cbn [Add_evict].
    rewrite length_app in Hfuel. cbn [length] in Hfuel.
    pose proof Hrep as [_ _ _ Hnb _ _].
    case_decide as Hover.
    + destruct Hover as [Hpos Hover].
      destruct (lru_RemoveOldest_represents c es k v Hrep)
        as (c1 & Hrm & Hrep1 & Hm1 & Ho1 & Hev1).
      rewrite Hrm, bind_Ret.
      destruct (IH c1 fuel Hrep1 ltac:(lia))
        as (c' & m & Hloop & Hm & Hcons & Hmin & Hm' & Ho' & Hev').
      exists c', m. rewrite length_app. cbn [length].
      split_and!.
      * done.
      * lia.
      * by rewrite take_app_le by lia.
      * right. rewrite <- Hm1. split; [lia|].
        destruct (decide (m = length es)) as [->|Hne].
        -- rewrite take_ge by (rewrite length_app; cbn; lia).
           rewrite <- Hnb. lia.
        -- destruct Hmin as [?|[_ Hmin]]; [done|].
           rewrite take_app_le by lia. done.
      * congruence.
      * congruence.
      * rewrite Hev', Hev1, Ho1. destruct (OnEvicted c); [|by rewrite !app_nil_r].
        rewrite drop_app_le by lia. rewrite reverse_app. cbn.
        by rewrite <- app_assoc.
    + exists c, (length (es ++ [(k, v)])).
      rewrite take_ge, drop_ge by lia.
      split_and!; try done.
      * split; [done|]. intros Hpos. rewrite <- Hnb. lia.
      * by left.
      * destruct (OnEvicted c); cbn; by rewrite app_nil_r.
Qed.

(** A new entry in front of the list, in the map and in the counter. *)
Lemma represents_push c es k v :
  represents c es -> k ∉ es.*1 -> 0 <= Len v ->
  bytes_of es + (len k + Len v) <= MaxInt64 ->
  represents
    (set_nbytes (int64 (nbytes c + int64 (len k + Len v)))
       (set_cache (<[k := length (elements c)]> (cache c))
          (PushFront (entry k v) c).2))
    ((k, v) :: es).
Proof.
  intros Hrep Hk Hv Hfit.
  pose proof (represents_lookup_None c es k Hrep Hk) as Hnone.
  destruct Hrep as [Hll Hnd Hcache Hnb Hsz Hmax].
  pose proof (bytes_of_nonneg _ Hsz) as Hes.
  pose proof (len_nonneg k) as Hlen.
  assert (Hold : forall x, x ∈ ll c -> (x < length (elements c))%nat).
  { intros x Hx. apply list_elem_of_lookup in Hx as [i Hi].
    destruct (Forall2_lookup_l _ _ _ _ _ Hll Hi) as (kv & _ & Hel & _).
    by eapply lookup_lt_Some. }
  split; cbn [PushFront snd ll elements cache nbytes set_nbytes set_cache].
  - constructor.
    + cbn [fst snd]. split.
      * by rewrite lookup_app_r, Nat.sub_diag by lia.
      * apply lookup_insert_eq.
    + eapply Forall2_impl_elem; [exact Hll|].
      intros x kv Hx [Hel Hck]. split.
      * rewrite lookup_app_l; [done|by apply Hold].
      * rewrite lookup_insert_ne; [done|]. intros Heq.
        rewrite <- Heq in Hck. congruence.
  - constructor; [|done]. intros Hin. apply Hold in Hin. lia.
  - intros k' e' Hk'.
    apply lookup_insert_Some in Hk' as [[<- <-]|[Hne Hk']].
    + split; [by left|]. exists v.
      by rewrite lookup_app_r, Nat.sub_diag by lia.
    + apply Hcache in Hk' as [Hin [v' Hv']]. split; [by right|].
      exists v'. rewrite lookup_app_l; [done|by apply Hold].
  - rewrite bytes_of_cons. cbn [fst snd]. unfold MaxInt64 in *.
    rewrite (int64_small (len k + Len v)) by lia.
    rewrite int64_small by lia. lia.
  - constructor; done.
  - rewrite bytes_of_cons. cbn [fst snd]. lia.
Qed.

(** [Add] of a key that is absent: an entry that is larger than the
    bound is refused; any other goes in front, and entries are then taken
    from the end until the bound holds again. *)
Lemma lru_Add_absent c es k v :
  consistent c es -> k ∉ es.*1 -> 0 <= Len v ->
  bytes_of es + (len k + Len v) <= MaxInt64 ->
  if decide (0 < maxBytes c /\ maxBytes c < len k + Len v)
  then Add k v c = Ret (false, c)
  else
    exists c' m,
      Add k v c = Ret (true, c') /\
      (m <= length es)%nat /\
      consistent c' ((k, v) :: take m es) /\
      (m = length es \/
       (0 < maxBytes c /\ maxBytes c < bytes_of ((k, v) :: take (S m) es))) /\
      maxBytes c' = maxBytes c /\ OnEvicted c' = OnEvicted c /\
      evicted c'
      = evicted c ++ (if OnEvicted c then reverse (drop m es) else []).
Proof.
  intros [Hrep Hcap] Hk Hv Hfit.
  pose proof (represents_lookup_None c es k Hrep Hk) as Hnone.
  pose proof (represents_push c es k v Hrep Hk Hv Hfit) as Hpush.
  pose proof Hrep as [Hll _ _ _ Hsz _].
  pose proof (bytes_of_nonneg _ Hsz) as Hes.
  pose proof (len_nonneg k) as Hlen.
  apply Forall2_length in Hll.
  unfold Add. unfold MaxInt64 in Hfit.
  assert (Hsmall : int64 (len k + Len v) = len k + Len v)
    by (apply int64_small; lia).
  case_decide as Hbig.
  - rewrite decide_True by (rewrite Hsmall; lia). done.
  - rewrite decide_False by (rewrite Hsmall; lia). rewrite Hnone.
    cbn [PushFront]. rewrite bind_Ret.
    cbn [PushFront snd] in Hpush.
    match type of Hpush with represents ?c0 _ => set (c1 := c0) in * end.
    destruct (lru_Add_evict _ c1 (S (S (length (ll c1)))) Hpush)
      as (c' & m & Hloop & Hm & Hcons & Hmin & Hm' & Ho' & Hev').
    { cbn. lia. }
    change (Add_evict _ _) with (Add_evict (S (S (length (ll c1)))) c1).
    rewrite Hloop, bind_Ret.
    change (maxBytes c1) with (maxBytes c) in *.
    change (OnEvicted c1) with (OnEvicted c) in *.
    change (evicted c1) with (evicted c) in *.
    destruct m as [|m].
    { exfalso. destruct Hmin as [Hmin|[Hpos Hmin]]; [done|].
      cbn [take] in Hmin. rewrite bytes_of_cons in Hmin.
      cbn [fst snd] in Hmin. rewrite take_0 in Hmin.
      change (bytes_of (V := V) []) with 0 in Hmin.
      apply Hbig. lia. }
    cbn [length] in Hm. cbn [take drop] in *.
    exists c', m. split_and!; try done.
    + lia.
    + destruct Hmin as [Hmin|Hmin]; [left; cbn in Hmin; lia|by right].
Qed.

(** *** The cache and the list *)

Lemma represents_NoDup_keys c es : represents c es -> NoDup es.*1.
Proof.
  intros [Hll Hnd _ _ _ _]. apply NoDup_alt. intros i j k Hi Hj.
  apply list_lookup_fmap_Some in Hi as (kvi & -> & Hi).
  apply list_lookup_fmap_Some in Hj as (kvj & Hk & Hj).
  destruct (Forall2_lookup_r _ _ _ _ _ Hll Hi) as (ei & Hei & _ & Hci).
  destruct (Forall2_lookup_r _ _ _ _ _ Hll Hj) as (ej & Hej & _ & Hcj).
  rewrite Hk in Hci. assert (ei = ej) as -> by congruence.
  eapply NoDup_lookup; eauto.
Qed.

Lemma keys_split es k :
  NoDup es.*1 -> k ∈ es.*1 ->
  exists es1 v es2,
    es = es1 ++ (k, v) :: es2 /\ (k ∉ es1.*1) /\ (k ∉ es2.*1).
Proof.
  intros Hnd Hin. apply list_elem_of_fmap in Hin as ([k' v] & -> & Hin).
  apply list_elem_of_split in Hin as (es1 & es2 & ->).
  exists es1, v, es2. split; [done|].
  rewrite fmap_app, fmap_cons in Hnd. cbn [fst] in *.
  apply NoDup_app in Hnd as (_ & Hdis & Hnd).
  apply NoDup_cons in Hnd as [Hnot _]. split; [|done].
  intros Hin. apply (Hdis _ Hin). by left.
Qed.

Lemma filter_key_absent es k :
  k ∉ es.*1 ->
  filter (fun kv : string * V => kv.1 = k) es = [] /\
  filter (fun kv : string * V => kv.1 ≠ k) es = es.
Proof.
  induction es as [|kv es IH]; [done|]. rewrite fmap_cons.
  intros Hnot. apply not_elem_of_cons in Hnot as [Hne Hnot].
  destruct (IH Hnot) as [IH1 IH2].
  rewrite !filter_cons, decide_False, decide_True by done.
  by rewrite IH1, IH2.
Qed.

Lemma filter_key_present es1 k v es2 :
  k ∉ es1.*1 -> k ∉ es2.*1 ->
  filter (fun kv : string * V => kv.1 = k) (es1 ++ (k, v) :: es2) = [(k, v)] /\
  filter (fun kv : string * V => kv.1 ≠ k) (es1 ++ (k, v) :: es2) = es1 ++ es2.
Proof.
  intros H1 H2.
  destruct (filter_key_absent es1 k H1) as [E1 E1'].
  destruct (filter_key_absent es2 k H2) as [E2 E2'].
  rewrite !filter_app, !filter_cons. cbn [fst].
  rewrite decide_True by done.
  rewrite decide_False by (intros Hne; by apply Hne).
  by rewrite E1, E1', E2, E2'.
Qed.

Lemma fit_take es : forall maxBytes m,
  Forall (fun kv : string * V => 0 <= Len kv.2) es ->
  bytes_of (take m es) <= maxBytes ->
  m = length es \/ maxBytes < bytes_of (take (S m) es) ->
  take m es = fit maxBytes es.
Proof.
  induction es as [|kv es IH]; intros maxBytes m Hsz Hle Hmin.
  - by rewrite take_nil.
  - apply Forall_cons in Hsz as [Hkv Hsz]. cbn [fit].
    pose proof (len_nonneg kv.1) as Hlen.
    destruct m as [|m].
    + rewrite take_0. destruct Hmin as [Hmin|Hmin]; [done|].
      cbn [take] in Hmin. rewrite take_0, bytes_of_cons in Hmin.
      change (bytes_of (V := V) []) with 0 in Hmin.
      rewrite decide_False by lia. done.
    + cbn [take] in *. rewrite bytes_of_cons in Hle.
      assert (0 <= bytes_of (take m es))
        by (apply bytes_of_nonneg; by apply Forall_take).
      rewrite decide_True by lia. f_equal. apply IH; [done|lia|].
      destruct Hmin as [Hmin|Hmin]; [left; cbn in Hmin; lia|right].
      rewrite bytes_of_cons in Hmin. lia.
Qed.

(** One operation on the cache is the operation on the list. *)
Lemma run_Op_model op c es :
  consistent c es -> op_ok op es ->
  exists c',
    run_Op op c = Ret c' /\
    consistent c' (model_Op (maxBytes c) op es) /\
    maxBytes c' = maxBytes c.
Proof.
  intros Hcons Hok. pose proof Hcons as [Hrep Hcap].
  pose proof (represents_NoDup_keys c es Hrep) as Hnd.
  destruct op as [k v|k|k|]; cbn [run_Op model_Op op_ok] in *.
  - destruct Hok as (Hk & Hv & Hfit).
    pose proof (lru_Add_absent c es k v Hcons Hk Hv Hfit) as Hadd.
    destruct (decide (0 < maxBytes c /\ maxBytes c < len k + Len v)).
    + rewrite Hadd, bind_Ret. eauto.
    + destruct Hadd as (c' & m & -> & Hm & Hcons' & Hmin & Hm' & _).
      rewrite bind_Ret. exists c'. split; [done|]. split; [|done].
      pose proof Hcons' as [[_ _ _ _ Hsz _] Hcap'].
      case_decide as Hpos.
      * rewrite <- (fit_take _ _ (S m)); [done|..].
        -- constructor.
           ++ by apply Forall_cons in Hsz as [? _].
           ++ by destruct Hrep.
        -- cbn [take]. rewrite Hm' in Hcap'. by apply Hcap'.
        -- destruct Hmin as [->|[_ Hmin]]; [by left|by right].
      * destruct Hmin as [->|[? _]]; [|done]. by rewrite take_ge in Hcons' by lia.
  - destruct (decide (k ∈ es.*1)) as [Hin|Hnot].
    + destruct (keys_split es k Hnd Hin) as (es1 & v & es2 & -> & H1 & H2).
      destruct (filter_key_present es1 k v es2 H1 H2) as [-> ->].
      destruct (lru_Get_present c es1 k v es2 Hcons) as (c' & -> & Hc' & Hm & _).
      rewrite bind_Ret. eauto.
    + destruct (filter_key_absent es k Hnot) as [-> ->].
      rewrite (lru_Get_absent c es k Hrep Hnot), bind_Ret. eauto.
  - case_decide as Hempty.
    + rewrite (lru_Remove_absent c es k Hrep) by (by right). eauto.
    + destruct (decide (k ∈ es.*1)) as [Hin|Hnot].
      * destruct (keys_split es k Hnd Hin) as (es1 & v & es2 & -> & H1 & H2).
        destruct (filter_key_present es1 k v es2 H1 H2) as [_ ->].
        destruct (lru_Remove_present c es1 k v es2 Hcons Hempty)
          as (c' & -> & Hc' & Hm & _).
        eauto.
      * destruct (filter_key_absent es k Hnot) as [_ ->].
        rewrite (lru_Remove_absent c es k Hrep) by (by left). eauto.
  - destruct es as [|[k v] es _] using rev_ind.
    + rewrite (lru_RemoveOldest_empty c Hrep). eauto.
    + rewrite length_app. cbn [length].
      replace (length es + 1 - 1)%nat with (length es) by lia.
      rewrite take_app_length.
      destruct (lru_RemoveOldest_last c es k v Hcons) as (c' & -> & Hc' & Hm & _).
      eauto.
Qed.

Lemma run_Ops_model ops : forall c es,
  consistent c es -> ops_ok (maxBytes c) ops es ->
  exists c',
    run_Ops ops c = Ret c' /\
    consistent c' (model_Ops (maxBytes c) ops es) /\
    maxBytes c' = maxBytes c.
Proof.
  induction ops as [|op ops IH]; intros c es Hcons Hok.
  - exists c. by cbn.
  - destruct Hok as [Hop Hok]. cbn [run_Ops model_Ops].
    destruct (run_Op_model op c es Hcons Hop) as (c1 & -> & Hc1 & Hm1).
    rewrite bind_Ret. rewrite <- Hm1 in *.
    destruct (IH c1 _ Hc1 Hok) as (c' & Hrun & Hc' & Hm').
    exists c'. split_and!; [done|done|congruence].
Qed.

Lemma maxBytes_cache_of maxB onEvicted es :
  maxBytes (cache_of maxB onEvicted es) = maxB.
Proof. induction es as [|kv es IH]; [done|exact IH]. Qed.

Lemma consistent_cache_of maxB onEvicted es :
  NoDup es.*1 -> Forall (fun kv => 0 <= Len kv.2) es ->
  bytes_of es <= MaxInt64 -> (0 < maxB -> bytes_of es <= maxB) ->
  consistent (cache_of maxB onEvicted es) es.
Proof.
  intros Hnd Hsz Hmax Hcap. split; [|by rewrite maxBytes_cache_of].
  clear Hcap. induction es as [|[k v] es IH].
  - apply represents_New.
  - rewrite fmap_cons in Hnd. apply NoDup_cons in Hnd as [Hk Hnd].
    apply Forall_cons in Hsz as [Hv Hsz]. rewrite bytes_of_cons in Hmax.
    pose proof (bytes_of_nonneg _ Hsz). pose proof (len_nonneg k).
    cbn [fst snd] in *.
    apply (represents_push (cache_of maxB onEvicted es) es k v);
      [apply IH; [done|done|lia]|done|done|lia].
Qed.

(** An [Add] of a new key that is not larger than the bound succeeds: the
    entry is the most recently used one, the entries evicted are the least
    recently used ones, as few of them as the bound asks for, and the
    callback hears of them last one first. *)
Theorem Add_of_new_key_evicts_least_recently_used c es k v :
  consistent c es -> k ∉ es.*1 -> 0 <= Len v ->
  bytes_of es + (len k + Len v) <= MaxInt64 ->
  ~ (0 < maxBytes c /\ maxBytes c < len k + Len v) ->
  exists c' m,
    Add k v c = Ret (true, c') /\
    (m <= length es)%nat /\
    consistent c' ((k, v) :: take m es) /\
    (m = length es \/
     (0 < maxBytes c /\ maxBytes c < bytes_of ((k, v) :: take (S m) es))) /\
    maxBytes c' = maxBytes c /\ OnEvicted c' = OnEvicted c /\
    evicted c'
    = evicted c ++ (if OnEvicted c then reverse (drop m es) else []).
Proof.
  intros Hcons Hk Hv Hfit Hbig.
  pose proof (lru_Add_absent c es k v Hcons Hk Hv Hfit) as Hadd.
  by rewrite decide_False in Hadd.
Qed.

(** An [Add] of an entry that is larger than the bound is refused and
    changes nothing, so that a [Get] of the key still misses. *)
Theorem Add_larger_than_bound_is_refused c es k v :
  consistent c es -> k ∉ es.*1 -> 0 <= Len v ->
  len k + Len v <= MaxInt64 ->
  0 < maxBytes c < len k + Len v ->
  Add k v c = Ret (false, c) /\ Get k c = Ret (None, false, c).
Proof.
  intros [Hrep _] Hk Hv Hfit Hbig. split.
  - unfold Add. pose proof (len_nonneg k). unfold MaxInt64 in Hfit.
    rewrite int64_small by lia. by rewrite decide_True by lia.
  - by apply (lru_Get_absent c es).
Qed.

(** What [Add] stored under a new key, the next [Get] of the key
    returns. *)
Theorem Get_after_Add_returns_value c es k v :
  consistent c es -> k ∉ es.*1 -> 0 <= Len v ->
  bytes_of es + (len k + Len v) <= MaxInt64 ->
  ~ (0 < maxBytes c /\ maxBytes c < len k + Len v) ->
  exists c' c'',
    Add k v c = Ret (true, c') /\ Get k c' = Ret (Some v, true, c'').
Proof.
  intros Hcons Hk Hv Hfit Hbig.
  pose proof (lru_Add_absent c es k v Hcons Hk Hv Hfit) as Hadd.
  rewrite decide_False in Hadd by done.
  destruct Hadd as (c' & m & Hadd & _ & Hcons' & _).
  destruct (lru_Get_present c' [] k v (take m es) Hcons') as (c'' & Hget & _).
  by exists c', c''.
Qed.

(** [Get] of a key that is present returns its value and makes its entry
    the most recently used one; the other entries keep their order, and
    nothing is evicted. *)
Theorem Get_of_present_key_moves_entry_to_front c es1 k v es2 :
  consistent c (es1 ++ (k, v) :: es2) ->
  exists c',
    Get k c = Ret (Some v, true, c') /\
    consistent c' ((k, v) :: es1 ++ es2) /\
    maxBytes c' = maxBytes c /\ evicted c' = evicted c /\
    OnEvicted c' = OnEvicted c.
Proof. apply lru_Get_present. Qed.

(** [Remove] of a key that is present (and not empty) takes its entry
    out, gives its bytes back, and tells the callback. *)
Theorem Remove_of_present_key_drops_entry c es1 k v es2 :
  consistent c (es1 ++ (k, v) :: es2) -> k <> "" ->
  exists c',
    Remove k c = Ret c' /\
    consistent c' (es1 ++ es2) /\
    Get k c' = Ret (None, false, c') /\
    maxBytes c' = maxBytes c /\ OnEvicted c' = OnEvicted c /\
    evicted c' = evicted c ++ (if OnEvicted c then [(k, v)] else []).
Proof.
  intros Hcons Hk.
  pose proof (represents_NoDup_keys _ _ (proj1 Hcons)) as Hnd.
  destruct (lru_Remove_present c es1 k v es2 Hcons Hk)
    as (c' & Hrm & Hcons' & Hrest).
  exists c'. split_and!; try done; [|apply Hrest..].
  apply (lru_Get_absent c' (es1 ++ es2)); [apply Hcons'|].
  rewrite fmap_app, fmap_cons in Hnd. cbn [fst] in Hnd.
  apply NoDup_app in Hnd as (_ & Hdis & Hnd).
  apply NoDup_cons in Hnd as [Hnot _].
  rewrite fmap_app. intros Hin. apply elem_of_app in Hin as [Hin|Hin]; [|done].
  apply (Hdis _ Hin). by left.
Qed.

(** An entry stored under the empty key cannot be taken out by [Remove]:
    [Remove] returns at once on an empty key, and [Get] still finds the
    entry. *)
Theorem Remove_of_empty_key_keeps_entry c es1 v es2 :
  consistent c (es1 ++ ("", v) :: es2) ->
  Remove "" c = Ret c /\
  exists c', Get "" c = Ret (Some v, true, c').
Proof.
  intros Hcons. split.
  - apply (lru_Remove_absent c (es1 ++ ("", v) :: es2)); [apply Hcons|by right].
  - destruct (lru_Get_present c es1 "" v es2 Hcons) as (c' & Hget & _).
    by exists c'.
Qed.

(** [RemoveOldest] takes out the least recently used entry, gives its
    bytes back and tells the callback. *)
Theorem RemoveOldest_drops_least_recently_used c es k v :
  consistent c (es ++ [(k, v)]) ->
  exists c',
    RemoveOldest c = Ret c' /\
    consistent c' es /\
    maxBytes c' = maxBytes c /\ OnEvicted c' = OnEvicted c /\
    evicted c' = evicted c ++ (if OnEvicted c then [(k, v)] else []).
Proof. apply lru_RemoveOldest_last. Qed.

(** Every sequence of [Get], [Remove], [RemoveOldest] and [Add] of new
    keys runs to its end, and leaves the cache that the same operations
    on a plain list describe: the length is the number of entries, the
    counter is the sum of their sizes, and it is within the bound when
    there is one. *)
Theorem run_Ops_refines_list_model ops c es :
  consistent c es -> ops_ok (maxBytes c) ops es ->
  exists c',
    run_Ops ops c = Ret c' /\
    entries c' = model_Ops (maxBytes c) ops es /\
    Cache_Len c' = Z.of_nat (length (model_Ops (maxBytes c) ops es)) /\
    GetCurrentUsedBytes c' = bytes_of (model_Ops (maxBytes c) ops es) /\
    GetMaxUsedBytes c' = GetMaxUsedBytes c /\
    (0 < GetMaxUsedBytes c' -> GetCurrentUsedBytes c' <= GetMaxUsedBytes c').
Proof.
  intros Hcons Hok.
  destruct (run_Ops_model ops c es Hcons Hok) as (c' & Hrun & [Hrep Hcap] & Hm).
  exists c'. unfold Cache_Len, GetCurrentUsedBytes, GetMaxUsedBytes.
  pose proof Hrep as [Hll _ _ Hnb _ _].
  split_and!; try done.
  - by apply represents_entries.
  - by rewrite (Forall2_length _ _ _ Hll).
  - intros Hpos. rewrite Hnb. by apply Hcap.
Qed.

End lru_extras.

(** *** The theorems above on a cache of byte views *)

Ltac by_computation :=
  lazymatch goal with
  | |- ?P => apply (bool_decide_unpack P); vm_compute; exact I
  end.

Lemma Add_of_new_key_evicts_least_recently_used_witness :
  let bv s := mycache.mkByteView (String.list_byte_of_string s) in
  let es := [("b", bv "xyz"); ("a", bv "123")] in
  let c := cache_of 10 true es in
  exists c' m,
    lru.Add "c" (bv "new") c = Ret (true, c') /\
    (m <= length es)%nat /\
    consistent c' (("c", bv "new") :: take m es) /\
    (m = length es \/
     (0 < lru.maxBytes c /\
      lru.maxBytes c < bytes_of (("c", bv "new") :: take (S m) es))) /\
    lru.maxBytes c' = lru.maxBytes c /\
    lru.OnEvicted c' = lru.OnEvicted c /\
    lru.evicted c'
    = lru.evicted c ++ (if lru.OnEvicted c then reverse (drop m es) else []).
Proof.
  intros bv es c.
  apply (Add_of_new_key_evicts_least_recently_used c es "c" (bv "new")).
  - apply consistent_cache_of; by_computation.
  - by_computation.
  - by_computation.
  - by_computation.
  - by_computation.
Defined.

Lemma Add_larger_than_bound_is_refused_witness :
  let bv s := mycache.mkByteView (String.list_byte_of_string s) in
  let es := [("b", bv "xyz"); ("a", bv "123")] in
  let c := cache_of 10 true es in
  lru.Add "c" (bv "0123456789") c = Ret (false, c) /\
  lru.Get "c" c = Ret (None, false, c).
Proof.
  intros bv es c.
  apply (Add_larger_than_bound_is_refused c es "c" (bv "0123456789")).
  - apply consistent_cache_of; by_computation.
  - by_computation.
  - by_computation.
  - by_computation.
  - by_computation.
Defined.

Lemma Get_after_Add_returns_value_witness :
  let bv s := mycache.mkByteView (String.list_byte_of_string s) in
  let es := [("b", bv "xyz"); ("a", bv "123")] in
  let c := cache_of 10 true es in
  exists c' c'',
    lru.Add "c" (bv "new") c = Ret (true, c') /\
    lru.Get "c" c' = Ret (Some (bv "new"), true, c'').
Proof.
  intros bv es c.
  apply (Get_after_Add_returns_value c es "c" (bv "new")).
  - apply consistent_cache_of; by_computation.
  - by_computation.
  - by_computation.
  - by_computation.
  - by_computation.
Defined.

Lemma Get_of_present_key_moves_entry_to_front_witness :
  let bv s := mycache.mkByteView (String.list_byte_of_string s) in
  let c := cache_of 0 false [("b", bv "xyz"); ("a", bv "123")] in
  exists c',
    lru.Get "a" c = Ret (Some (bv "123"), true, c') /\
    consistent c' (("a", bv "123") :: [("b", bv "xyz")] ++ []) /\
    lru.maxBytes c' = lru.maxBytes c /\ lru.evicted c' = lru.evicted c /\
    lru.OnEvicted c' = lru.OnEvicted c.
Proof.
  intros bv c.
  apply (Get_of_present_key_moves_entry_to_front c [("b", bv "xyz")] "a"
           (bv "123") []).
  apply (consistent_cache_of 0 false [("b", bv "xyz"); ("a", bv "123")]);
    by_computation.
Defined.

Lemma Remove_of_present_key_drops_entry_witness :
  let bv s := mycache.mkByteView (String.list_byte_of_string s) in
  let c := cache_of 0 true [("b", bv "xyz"); ("a", bv "123")] in
  exists c',
    lru.Remove "b" c = Ret c' /\
    consistent c' ([] ++ [("a", bv "123")]) /\
    lru.Get "b" c' = Ret (None, false, c') /\
    lru.maxBytes c' = lru.maxBytes c /\
    lru.OnEvicted c' = lru.OnEvicted c /\
    lru.evicted c'
    = lru.evicted c ++ (if lru.OnEvicted c then [("b", bv "xyz")] else []).
Proof.
  intros bv c.
  apply (Remove_of_present_key_drops_entry c [] "b" (bv "xyz")
           [("a", bv "123")]).
  - apply (consistent_cache_of 0 true [("b", bv "xyz"); ("a", bv "123")]);
      by_computation.
  - discriminate.
Defined.

Lemma Remove_of_empty_key_keeps_entry_witness :
  let bv s := mycache.mkByteView (String.list_byte_of_string s) in
  let c := cache_of 0 true [("b", bv "xyz"); (String.EmptyString, bv "123")] in
  lru.Remove String.EmptyString c = Ret c /\
  exists c', lru.Get String.EmptyString c = Ret (Some (bv "123"), true, c').
Proof.
  intros bv c.
  apply (Remove_of_empty_key_keeps_entry c [("b", bv "xyz")] (bv "123") []).
  apply (consistent_cache_of 0 true
           [("b", bv "xyz"); (String.EmptyString, bv "123")]);
    by_computation.
Defined.

Lemma RemoveOldest_drops_least_recently_used_witness :
  let bv s := mycache.mkByteView (String.list_byte_of_string s) in
  let c := cache_of 0 true [("b", bv "xyz"); ("a", bv "123")] in
  exists c',
    lru.RemoveOldest c = Ret c' /\
    consistent c' [("b", bv "xyz")] /\
    lru.maxBytes c' = lru.maxBytes c /\
    lru.OnEvicted c' = lru.OnEvicted c /\
    lru.evicted c'
    = lru.evicted c ++ (if lru.OnEvicted c then [("a", bv "123")] else []).
Proof.
  intros bv c.
  apply (RemoveOldest_drops_least_recently_used c [("b", bv "xyz")] "a"
           (bv "123")).
  apply (consistent_cache_of 0 true [("b", bv "xyz"); ("a", bv "123")]);
    by_computation.
Defined.

Lemma run_Ops_refines_list_model_witness :
  let bv s := mycache.mkByteView (String.list_byte_of_string s) in
  let ops := [lru.OpAdd "a" (bv "123"); lru.OpAdd "b" (bv "xyz");
              lru.OpGet "a"; lru.OpAdd "c" (bv "new");
              lru.OpAdd "d" (bv "0123456789"); lru.OpRemove "c";
              lru.OpRemoveOldest] in
  let c := lru.New 10 true in
  exists c',
    lru.run_Ops ops c = Ret c' /\
    lru.entries c' = model_Ops (lru.maxBytes c) ops [] /\
    lru.Cache_Len c' = Z.of_nat (length (model_Ops (lru.maxBytes c) ops [])) /\
    lru.GetCurrentUsedBytes c' = bytes_of (model_Ops (lru.maxBytes c) ops []) /\
    lru.GetMaxUsedBytes c' = lru.GetMaxUsedBytes c /\
    (0 < lru.GetMaxUsedBytes c' ->
     lru.GetCurrentUsedBytes c' <= lru.GetMaxUsedBytes c').
Proof.
  intros bv ops c.
  apply (run_Ops_refines_list_model ops c []).
  - apply represents_New.
  - repeat split; by_computation.
Defined.

(** * The write sequence as a store of keys and values *)

Lemma replay_values_snoc rs e : forall m,
  replay_values (rs ++ [e]) m
  = if decide (Mark e = DEL)
    then delete (String.string_of_list_byte (Key e)) (replay_values rs m)
    else <[String.string_of_list_byte (Key e) := Value e]> (replay_values rs m).
Proof. induction rs as [|e' rs IH]; intros m; [done|]. cbn. apply IH. Qed.

(** The index and the store agree: a key that the index binds is bound in
    the store, to the value of the record at the offset that the index
    holds. *)
Lemma replay_log_values rs : Forall entry_wf rs ->
  forall key,
    match replay_log rs 0 ∅ !! key with
    | Some off =>
        exists rs1 e rs2,
          rs = rs1 ++ e :: rs2 /\
          off = Z.of_nat (length (log_bytes rs1)) /\
          replay_values rs ∅ !! key = Some (Value e)
    | None => replay_values rs ∅ !! key = None
    end.
Proof.
  induction rs as [|e rs IH] using rev_ind; intros Hwf key.
  - cbn. by rewrite !lookup_empty.
  - apply Forall_app in Hwf as [Hwf He].
    rewrite replay_log_snoc by done. rewrite replay_values_snoc. cbv zeta.
    rewrite Z.add_0_l. specialize (IH Hwf key).
    destruct (decide (String.string_of_list_byte (Key e) = key)) as [<-|Hne].
    + case_decide.
      * by rewrite !lookup_delete_eq.
      * rewrite !lookup_insert_eq. by exists rs, e, [].
    + case_decide.
      * rewrite !lookup_delete_ne by done.
        destruct (replay_log rs 0 ∅ !! key); [|done].
        destruct IH as (rs1 & e' & rs2 & -> & -> & Hv).
        exists rs1, e', (rs2 ++ [e]). by rewrite <- app_assoc.
      * rewrite !lookup_insert_ne by done.
        destruct (replay_log rs 0 ∅ !! key); [|done].
        destruct IH as (rs1 & e' & rs2 & -> & -> & Hv).
        exists rs1, e', (rs2 ++ [e]). by rewrite <- app_assoc.
Qed.

(** [Get] reads the store. *)
Lemma Get_log_state dir rs w d key :
  log_state dir rs w d -> length key <> 0%nat ->
  Get (Some w) d key
  = Ret (Get_result (replay_values rs ∅ !! String.string_of_list_byte key)).
Proof.
  intros (Hdir & Hf & Hd & Hwf & Hmax & Hidx & Hkeys) Hkey.
  unfold Get. rewrite decide_False by done. cbn [deref]. rewrite bind_Ret.
  unfold IsKeyExist. rewrite Hidx.
  pose proof (replay_log_values rs Hwf (String.string_of_list_byte key)) as Hrv.
  destruct (replay_log rs 0 ∅ !! String.string_of_list_byte key) as [off|];
    cbn [negb]; [|by rewrite Hrv].
  destruct Hrv as (rs1 & e & rs2 & -> & -> & ->).
  rewrite Hf. cbn [deref]. rewrite bind_Ret.
  apply Forall_app in Hwf as [_ Hwf]. apply Forall_cons in Hwf as [He _].
  rewrite (Read_record _ d (log_bytes rs1) (log_bytes rs2) e); [done|done| |done|].
  - cbn [File Name]. rewrite Hd, log_bytes_app. done.
  - rewrite log_bytes_app in Hmax. cbn [log_bytes] in Hmax.
    rewrite !length_app in Hmax.
    pose proof (length_record_bytes e He). lia.
Qed.

Lemma Size_wf_sum e :
  entry_wf e ->
  Size e
  = Z.of_nat (length (Key e)) + Z.of_nat (length (Value e)) + HeaderSize.
Proof.
  intros ((HK & HV & _) & HKl & HVl & Hfit).
  rewrite Size_fits by lia. lia.
Qed.

(** Appending a record to a log that has room for it. *)
Lemma Write_log_state_ok dir rs w d entry :
  log_state dir rs w d -> entry_wf entry ->
  Z.of_nat (length (log_bytes rs)) + Size entry <= MaxInt64 ->
  exists f,
    databaseFile w = Some f /\
    Write f d entry
    = Ret (Ok (Z.of_nat (length (log_bytes rs))),
           {| File := mkFile (path_Join dir DataFileName) false;
              offset := Z.of_nat (length (log_bytes (rs ++ [entry]))) |},
           <[path_Join dir DataFileName := log_bytes (rs ++ [entry])]> d) /\
    Z.of_nat (length (log_bytes (rs ++ [entry]))) <= MaxInt64.
Proof.
  intros Hst He Hroom.
  destruct (Write_log_state dir rs w d entry Hst He)
    as (f & r & f' & d' & Hf & HW & Hcase).
  exists f. split; [done|].
  destruct Hcase as [(-> & -> & ->)|(-> & -> & -> & Hmax')]; [|done].
  exfalso. destruct Hst as (Hdir & Hf' & Hd & Hwf & Hmax & _).
  rewrite Hf' in Hf. injection Hf as <-.
  edestruct (Write_at_offset
    {| File := mkFile (path_Join dir DataFileName) false;
       offset := Z.of_nat (length (log_bytes rs)) |} d entry
    (log_bytes rs)) as (data & _ & _ & HW' & _);
    [done|done|simpl; lia|apply He|apply He|done|].
  rewrite HW in HW'. discriminate.
Qed.

Lemma length_log_bytes_snoc rs e :
  entry_wf e ->
  Z.of_nat (length (log_bytes (rs ++ [e])))
  = Z.of_nat (length (log_bytes rs)) + Size e.
Proof.
  intros He. rewrite log_bytes_app. cbn [log_bytes].
  rewrite app_nil_r, length_app, Nat2Z.inj_add.
  by rewrite (length_record_bytes e He).
Qed.

(** A [Put] that has room in the log adds a PUT record and binds the
    key. *)
Lemma Put_ok dir rs w d key value now :
  log_state dir rs w d ->
  Z.of_nat (length key) + Z.of_nat (length value) + HeaderSize < 2 ^ 32 ->
  Z.of_nat (length (log_bytes rs))
  + (Z.of_nat (length key) + Z.of_nat (length value) + HeaderSize) <= MaxInt64 ->
  exists w' d',
    Put (Some w) d key value now = Ret (None, Some w', d') /\
    log_state dir (rs ++ [NewEntry key value PUT (uint64 now)]) w' d' /\
    forall p, p <> path_Join dir DataFileName -> d' !! p = d !! p.
Proof.
  intros Hst Hfit Hroom.
  assert (He : entry_wf (NewEntry key value PUT (uint64 now))).
  { apply NewEntry_wf; [done|unfold PUT; lia|apply uint64_range]. }
  assert (Hsz : Size (NewEntry key value PUT (uint64 now))
                = Z.of_nat (length key) + Z.of_nat (length value) + HeaderSize).
  { by rewrite (Size_wf_sum _ He). }
  destruct (Write_log_state_ok dir rs w d _ Hst He) as (f & Hf & HW & Hmax');
    [lia|].
  pose proof Hst as (Hdir & Hf' & Hd & Hwf & Hmax & Hidx & Hkeys).
  unfold Put. cbn [deref]. rewrite bind_Ret, Hf. cbn [deref].
  rewrite bind_Ret, HW, bind_Ret.
  do 2 eexists. split; [reflexivity|].
  split; [|intros p Hp; by rewrite lookup_insert_ne].
  unfold log_state. cbn [set_index set_databaseFile dataPath databaseFile index].
  split_and!; try done.
  - by rewrite lookup_insert_eq.
  - apply Forall_app. split; [done|]. by apply Forall_singleton.
  - rewrite replay_log_snoc by done. cbv zeta.
    rewrite decide_False by (unfold NewEntry, DEL, PUT; simpl; lia).
    by rewrite Hidx.
  - intros k off Hk. destruct (decide (String.string_of_list_byte key = k))
      as [<-|Hne].
    + rewrite String.list_byte_of_string_of_list_byte. lia.
    + rewrite lookup_insert_ne in Hk by done. by eapply Hkeys.
Qed.

(** A [Delete] of a key that is bound, with room in the log, adds a DEL
    record and unbinds the key. *)
Lemma Delete_ok dir rs w d key now off :
  log_state dir rs w d -> length key <> 0%nat ->
  index w !! String.string_of_list_byte key = Some off ->
  Z.of_nat (length (log_bytes rs)) + (Z.of_nat (length key) + HeaderSize)
  <= MaxInt64 ->
  exists w' d',
    Delete (Some w) d key now = Ret (None, Some w', d') /\
    log_state dir (rs ++ [NewEntry key [] DEL (uint64 now)]) w' d' /\
    forall p, p <> path_Join dir DataFileName -> d' !! p = d !! p.
Proof.
  intros Hst Hkey Hlook Hroom.
  pose proof Hst as (Hdir & Hf' & Hd & Hwf & Hmax & Hidx & Hkeys).
  assert (He : entry_wf (NewEntry key [] DEL (uint64 now))).
  { apply NewEntry_wf; [|unfold DEL; lia|apply uint64_range].
    apply Hkeys in Hlook.
    rewrite String.list_byte_of_string_of_list_byte in Hlook.
    unfold HeaderSize in *. simpl. lia. }
  assert (Hsz : Size (NewEntry key [] DEL (uint64 now))
                = Z.of_nat (length key) + HeaderSize).
  { rewrite (Size_wf_sum _ He). cbn. lia. }
  destruct (Write_log_state_ok dir rs w d _ Hst He) as (f & Hf & HW & Hmax');
    [lia|].
  unfold Delete. rewrite decide_False by done.
  cbn [deref]. rewrite bind_Ret. unfold IsKeyExist. rewrite Hlook. cbn [negb].
  rewrite Hf. cbn [deref]. rewrite bind_Ret, HW, bind_Ret.
  do 2 eexists. split; [reflexivity|].
  split; [|intros p Hp; by rewrite lookup_insert_ne].
  unfold log_state. cbn [set_index set_databaseFile dataPath databaseFile index].
  split_and!; try done.
  - by rewrite lookup_insert_eq.
  - apply Forall_app. split; [done|]. by apply Forall_singleton.
  - rewrite replay_log_snoc by done. cbv zeta.
    rewrite decide_True by done. by rewrite Hidx.
  - intros k off' Hk. apply lookup_delete_Some in Hk as [_ Hk].
    by eapply Hkeys.
Qed.

(** One operation on the write sequence is the operation on the store. *)
Lemma run_Op_store dir rs w d op :
  log_state dir rs w d -> Op_fits op ->
  Z.of_nat (length (log_bytes rs)) + op_bytes op <= MaxInt64 ->
  exists err w' d' rs',
    run_Op op (Some w) d = Ret (err, Some w', d') /\
    log_state dir rs' w' d' /\
    replay_values rs' ∅ = store_Op op (replay_values rs ∅) /\
    Z.of_nat (length (log_bytes rs'))
    <= Z.of_nat (length (log_bytes rs)) + op_bytes op /\
    forall p, p <> path_Join dir DataFileName -> d' !! p = d !! p.
Proof.
  intros Hst Hfit Hroom.
  pose proof Hst as (Hdir & Hf' & Hd & Hwf & Hmax & Hidx & Hkeys).
  destruct op as [key value now|key now]; cbn [run_Op store_Op op_bytes] in *.
  - destruct (Put_ok dir rs w d key value now Hst Hfit Hroom)
      as (w' & d' & HP & Hst' & Hfr).
    assert (He : entry_wf (NewEntry key value PUT (uint64 now))).
    { apply NewEntry_wf; [done|unfold PUT; lia|apply uint64_range]. }
    exists None, w', d', (rs ++ [NewEntry key value PUT (uint64 now)]).
    split_and!; [done|done| | |done].
    + rewrite replay_values_snoc.
      by rewrite decide_False by (unfold NewEntry, DEL, PUT; simpl; lia).
    + rewrite (length_log_bytes_snoc _ _ He), (Size_wf_sum _ He). cbn. lia.
  - case_decide as Hkey.
    { exists (Some (errors_New "key is nil")), w, d, rs.
      unfold Delete. rewrite decide_True by done.
      split_and!; [done|done|done| |done].
      unfold HeaderSize. lia. }
    destruct (index w !! String.string_of_list_byte key) as [off|] eqn:Hlook.
    + destruct (Delete_ok dir rs w d key now off Hst Hkey Hlook Hroom)
        as (w' & d' & HD & Hst' & Hfr).
      pose proof Hst' as (_ & _ & _ & Hwf' & _).
      apply Forall_app in Hwf' as [_ He]. rewrite Forall_singleton in He.
      exists None, w', d', (rs ++ [NewEntry key [] DEL (uint64 now)]).
      split_and!; [done|done| | |done].
      * rewrite replay_values_snoc. by rewrite decide_True by done.
      * rewrite (length_log_bytes_snoc _ _ He), (Size_wf_sum _ He). cbn. lia.
    + exists None, w, d, rs.
      unfold Delete. rewrite decide_False by done.
      cbn [deref]. rewrite bind_Ret. unfold IsKeyExist. rewrite Hlook.
      cbn [negb]. split_and!; [done|done| |unfold HeaderSize; lia|done].
      pose proof (replay_log_values rs Hwf (String.string_of_list_byte key))
        as Hrv.
      rewrite <- Hidx, Hlook in Hrv. by rewrite delete_id.
Qed.

Lemma ops_bytes_nonneg ops : 0 <= ops_bytes ops.
Proof.
  induction ops as [|op ops IH]; [done|].
  change (ops_bytes (op :: ops)) with (op_bytes op + ops_bytes ops).
  destruct op; cbn [op_bytes]; unfold HeaderSize; lia.
Qed.

Lemma run_Ops_store dir ops : forall rs w d,
  log_state dir rs w d -> Forall Op_fits ops ->
  Z.of_nat (length (log_bytes rs)) + ops_bytes ops <= MaxInt64 ->
  exists w' d' rs',
    run_Ops ops (Some w) d = Ret (Some w', d') /\
    log_state dir rs' w' d' /\
    replay_values rs' ∅ = store_Ops ops (replay_values rs ∅) /\
    Z.of_nat (length (log_bytes rs'))
    <= Z.of_nat (length (log_bytes rs)) + ops_bytes ops /\
    forall p, p <> path_Join dir DataFileName -> d' !! p = d !! p.
Proof.
  induction ops as [|op ops IH]; intros rs w d Hst Hfit Hroom.
  - exists w, d, rs. split_and!; try done. cbn. lia.
  - apply Forall_cons in Hfit as [Hop Hfit]. cbn [run_Ops store_Ops].
    change (ops_bytes (op :: ops)) with (op_bytes op + ops_bytes ops) in *.
    pose proof (ops_bytes_nonneg ops).
    destruct (run_Op_store dir rs w d op Hst Hop)
      as (err & w1 & d1 & rs1 & Hrun & Hst1 & Hval & Hlen & Hfr); [lia|].
    rewrite Hrun, bind_Ret.
    destruct (IH rs1 w1 d1 Hst1 Hfit)
      as (w' & d' & rs' & Hruns & Hst' & Hval' & Hlen' & Hfr'); [lia|].
    exists w', d', rs'. split_and!; [done|done| |lia|].
    + by rewrite Hval', Hval.
    + intros p Hp. by rewrite Hfr', Hfr.
Qed.

(** A write sequence in a new directory, after the operations [ops]. *)
Lemma fresh_run_Ops dir now d ops :
  d !! path_Join dir DataFileName = None ->
  Forall Op_fits ops -> ops_bytes ops <= MaxInt64 ->
  exists w0 d0 w d' rs,
    NewWriteSequence dir "" now d = Ret (Ok w0, d0) /\
    run_Ops ops (Some w0) d0 = Ret (Some w, d') /\
    log_state dir rs w d' /\
    replay_values rs ∅ = store_Ops ops ∅ /\
    Z.of_nat (length (log_bytes rs)) <= ops_bytes ops /\
    forall p, p <> path_Join dir DataFileName -> d' !! p = d !! p.
Proof.
  intros Hd Hfit Hroom.
  destruct (NewWriteSequence_fresh dir now d Hd) as (w0 & Hnew & Hst0).
  destruct (run_Ops_store dir ops [] w0 _ Hst0 Hfit)
    as (w & d' & rs & Hrun & Hst & Hval & Hlen & Hfr); [cbn; lia|].
  exists w0, (<[path_Join dir DataFileName := []]> d), w, d', rs.
  split_and!; try done.
  intros p Hp. by rewrite Hfr, lookup_insert_ne.
Qed.

(** Opening a directory whose log is in state [rs]. *)
Lemma NewWriteSequence_reopen_state dir rs w now d :
  log_state dir rs w d ->
  exists w',
    NewWriteSequence dir "" now d = Ret (Ok w', d) /\ log_state dir rs w' d.
Proof.
  intros (Hdir & Hf & Hd & Hwf & Hmax & Hidx & Hkeys).
  unfold NewWriteSequence.
  rewrite decide_False by (simpl; lia).
  unfold NewDataFile. rewrite decide_True by done.
  unfold new, os_OpenFile.
  rewrite decide_False by (unfold path_Join; by destruct dir).
  rewrite Hd. unfold os_Stat. rewrite Hd.
  unfold loadIndex. cbn [databaseFile index].
  pose proof (loadIndex_loop_replay
    {| File := mkFile (path_Join dir DataFileName) false;
       offset := Z.of_nat (length (log_bytes rs)) |} d [] rs ∅
    (loadIndex_fuel
       {| File := mkFile (path_Join dir DataFileName) false;
          offset := Z.of_nat (length (log_bytes rs)) |} d)) as Hloop.
  cbn [app length] in Hloop. change (Z.of_nat 0) with 0 in Hloop.
  rewrite Hloop; [| done | done | done | done | done |].
  - rewrite bind_Ret. eexists. split; [reflexivity|].
    unfold log_state. cbn [set_index dataPath databaseFile index].
    split_and!; try done. by rewrite <- Hidx.
  - unfold loadIndex_fuel. cbn [File Name]. rewrite Hd. simpl.
    pose proof (length_log_bytes_ge rs Hwf). lia.
Qed.

(** [Close] closes the handle of the log and leaves the rest alone. *)
Lemma Close_log_state dir rs w d :
  log_state dir rs w d ->
  Close (Some w)
  = Ret (None,
         Some {| index := index w; dataPath := dataPath w;
                 databaseFile :=
                   Some {| File := mkFile (path_Join dir DataFileName) true;
                           offset := Z.of_nat (length (log_bytes rs)) |} |}).
Proof.
  intros (Hdir & Hf & _). unfold Close. cbn [deref]. rewrite bind_Ret, Hf.
  done.
Qed.

(** Every key and value that went in comes out: after any sequence of
    [Put] and [Delete] on a write sequence in a new directory, [Get]
    returns for every key the value of the last [Put] of the key, unless
    a [Delete] of the key came later or there was no [Put], and then the
    error "key not exist". *)
Theorem Get_returns_value_of_last_Put dir now d ops :
  d !! path_Join dir DataFileName = None ->
  Forall Op_fits ops -> ops_bytes ops <= MaxInt64 ->
  exists w0 d0 w d',
    NewWriteSequence dir "" now d = Ret (Ok w0, d0) /\
    run_Ops ops (Some w0) d0 = Ret (Some w, d') /\
    forall key, length key <> 0%nat ->
      Get (Some w) d' key
      = Ret (Get_result (store_Ops ops ∅ !! String.string_of_list_byte key)).
Proof.
  intros Hd Hfit Hroom.
  destruct (fresh_run_Ops dir now d ops Hd Hfit Hroom)
    as (w0 & d0 & w & d' & rs & Hnew & Hrun & Hst & Hval & _ & _).
  exists w0, d0, w, d'. split_and!; [done|done|].
  intros key Hkey. rewrite <- Hval. by apply (Get_log_state dir).
Qed.

(** What was stored survives a restart: after [Close], a write sequence
    that is opened on the same directory answers every [Get] as the one
    that was closed did. *)
Theorem Get_after_Close_and_reopen_returns_value_of_last_Put
    dir now now' d ops :
  d !! path_Join dir DataFileName = None ->
  Forall Op_fits ops -> ops_bytes ops <= MaxInt64 ->
  exists w0 d0 w d' wc w',
    NewWriteSequence dir "" now d = Ret (Ok w0, d0) /\
    run_Ops ops (Some w0) d0 = Ret (Some w, d') /\
    Close (Some w) = Ret (None, Some wc) /\
    NewWriteSequence dir "" now' d' = Ret (Ok w', d') /\
    forall key, length key <> 0%nat ->
      Get (Some w') d' key
      = Ret (Get_result (store_Ops ops ∅ !! String.string_of_list_byte key)).
Proof.
  intros Hd Hfit Hroom.
  destruct (fresh_run_Ops dir now d ops Hd Hfit Hroom)
    as (w0 & d0 & w & d' & rs & Hnew & Hrun & Hst & Hval & _ & _).
  destruct (NewWriteSequence_reopen_state dir rs w now' d' Hst)
    as (w' & Hnew' & Hst').
  exists w0, d0, w, d'. eexists. exists w'.
  split_and!; [done|done|by apply (Close_log_state dir rs w d')|done|].
  intros key Hkey. rewrite <- Hval. by apply (Get_log_state dir).
Qed.

(** A write sequence that was closed. *)
Lemma closed_Put dir rs w d key value now :
  log_state dir rs w d ->
  Z.of_nat (length key) + Z.of_nat (length value) + HeaderSize < 2 ^ 32 ->
  forall wc, Close (Some w) = Ret (None, Some wc) ->
  Put (Some wc) d key value now = Ret (Some os_ErrClosed, Some wc, d).
Proof.
  intros Hst Hfit wc Hclose.
  rewrite (Close_log_state dir rs w d Hst) in Hclose. injection Hclose as <-.
  assert (He : entry_wf (NewEntry key value PUT (uint64 now))).
  { apply NewEntry_wf; [done|unfold PUT; lia|apply uint64_range]. }
  unfold Put. cbn [deref]. rewrite bind_Ret. cbn [databaseFile deref].
  rewrite bind_Ret. unfold Write. rewrite (Encode_wf _ He), bind_Ret. done.
Qed.

Lemma closed_Get_Delete dir rs w d key now :
  log_state dir rs w d -> length key <> 0%nat ->
  is_Some (replay_values rs ∅ !! String.string_of_list_byte key) ->
  forall wc, Close (Some w) = Ret (None, Some wc) ->
  Get (Some wc) d key = Ret (Err os_ErrClosed) /\
  Delete (Some wc) d key now = Ret (Some os_ErrClosed, Some wc, d).
Proof.
  intros Hst Hkey Hsome wc Hclose.
  rewrite (Close_log_state dir rs w d Hst) in Hclose. injection Hclose as <-.
  destruct Hst as (Hdir & Hf & Hd & Hwf & Hmax & Hidx & Hkeys).
  pose proof (replay_log_values rs Hwf (String.string_of_list_byte key)) as Hrv.
  rewrite <- Hidx in Hrv.
  destruct (index w !! String.string_of_list_byte key) as [off|] eqn:Hlook.
  2:{ rewrite Hrv in Hsome. by destruct Hsome. }
  assert (He : entry_wf (NewEntry key [] DEL (uint64 now))).
  { apply NewEntry_wf; [|unfold DEL; lia|apply uint64_range].
    apply Hkeys in Hlook.
    rewrite String.list_byte_of_string_of_list_byte in Hlook.
    unfold HeaderSize in *. simpl. lia. }
  split.
  - unfold Get. rewrite decide_False by done. cbn [deref]. rewrite bind_Ret.
    unfold IsKeyExist. cbn [index]. rewrite Hlook. cbn [negb databaseFile deref].
    by rewrite bind_Ret.
  - unfold Delete. rewrite decide_False by done. cbn [deref]. rewrite bind_Ret.
    unfold IsKeyExist. cbn [index]. rewrite Hlook. cbn [negb databaseFile deref].
    rewrite bind_Ret. unfold Write. rewrite (Encode_wf _ He), bind_Ret. done.
Qed.

(** After [Close] nothing can be written or read any more: [Put], and
    [Get] and [Delete] of a key that is stored, return [os.ErrClosed], a
    second [Close] does too, and neither the index nor the disk
    changes. *)
Theorem operations_after_Close_return_ErrClosed dir now d ops :
  d !! path_Join dir DataFileName = None ->
  Forall Op_fits ops -> ops_bytes ops <= MaxInt64 ->
  exists w0 d0 w d' wc,
    NewWriteSequence dir "" now d = Ret (Ok w0, d0) /\
    run_Ops ops (Some w0) d0 = Ret (Some w, d') /\
    Close (Some w) = Ret (None, Some wc) /\
    Close (Some wc) = Ret (Some os_ErrClosed, Some wc) /\
    (forall key value t,
       Z.of_nat (length key) + Z.of_nat (length value) + HeaderSize < 2 ^ 32 ->
       Put (Some wc) d' key value t = Ret (Some os_ErrClosed, Some wc, d')) /\
    (forall key t,
       length key <> 0%nat ->
       is_Some (store_Ops ops ∅ !! String.string_of_list_byte key) ->
       Get (Some wc) d' key = Ret (Err os_ErrClosed) /\
       Delete (Some wc) d' key t = Ret (Some os_ErrClosed, Some wc, d')).
Proof.
  intros Hd Hfit Hroom.
  destruct (fresh_run_Ops dir now d ops Hd Hfit Hroom)
    as (w0 & d0 & w & d' & rs & Hnew & Hrun & Hst & Hval & _ & _).
  pose proof (Close_log_state dir rs w d' Hst) as Hclose.
  exists w0, d0, w, d'. eexists.
  split_and!; [done|done|exact Hclose|done| |].
  - intros key value t Hkv. by apply (closed_Put dir rs w).
  - intros key t Hkey Hsome. rewrite <- Hval in Hsome.
    by apply (closed_Get_Delete dir rs w).
Qed.

(** [Put] takes the empty key, and writes a record for it, but neither
    [Get] nor [Delete] does: what is stored under the empty key can be
    neither read nor deleted. *)
Theorem Put_of_empty_key_cannot_be_read_or_deleted dir now d ops value t :
  d !! path_Join dir DataFileName = None ->
  Forall Op_fits ops ->
  Z.of_nat (length value) + HeaderSize < 2 ^ 32 ->
  ops_bytes ops + (Z.of_nat (length value) + HeaderSize) <= MaxInt64 ->
  exists w0 d0 w d1 w' d' keys,
    NewWriteSequence dir "" now d = Ret (Ok w0, d0) /\
    run_Ops ops (Some w0) d0 = Ret (Some w, d1) /\
    Put (Some w) d1 [] value t = Ret (None, Some w', d') /\
    d' <> d1 /\
    GetAllIndexKeys (Some w') = Ret keys /\ String.EmptyString ∈ keys /\
    Get (Some w') d' [] = Ret (Err (errors_New "key is nil")) /\
    forall t',
      Delete (Some w') d' [] t'
      = Ret (Some (errors_New "key is nil"), Some w', d').
Proof.
  intros Hd Hfit Hv Hroom.
  pose proof (ops_bytes_nonneg ops) as Hnn.
  destruct (fresh_run_Ops dir now d ops Hd Hfit)
    as (w0 & d0 & w & d1 & rs & Hnew & Hrun & Hst & Hval & Hlen & _).
  { unfold HeaderSize in *. lia. }
  destruct (Put_ok dir rs w d1 [] value t Hst) as (w' & d' & HP & Hst' & _).
  { cbn [length]. lia. }
  { cbn [length]. lia. }
  exists w0, d0, w, d1, w', d'. eexists.
  split_and!; [done|done|done| |reflexivity| |done|done].
  - destruct Hst as (_ & _ & Hd1 & Hwf & _).
    destruct Hst' as (_ & _ & Hd' & Hwf' & _).
    intros ->. rewrite Hd1 in Hd'. injection Hd' as Hd'.
    apply (f_equal length) in Hd'.
    apply Forall_app in Hwf' as [_ He]. rewrite Forall_singleton in He.
    pose proof (length_log_bytes_snoc rs _ He) as Hs.
    pose proof (Size_wf_bounds _ He). lia.
  - destruct Hst' as (_ & _ & _ & Hwf' & _ & Hidx' & _).
    apply list_elem_of_fmap.
    pose proof (replay_log_snoc rs (NewEntry [] value PUT (uint64 t)) 0 ∅) as Hs.
    apply Forall_app in Hwf' as [Hwf' _]. specialize (Hs Hwf').
    cbv zeta in Hs.
    rewrite decide_False in Hs by (unfold NewEntry, DEL, PUT; simpl; lia).
    eexists (String.EmptyString, _). split; [done|].
    apply elem_of_map_to_list. rewrite Hidx', Hs.
    apply lookup_insert_eq.
Qed.

Lemma Get_returns_value_of_last_Put_witness :
  let b := String.list_byte_of_string in
  let ops := [OpPut (b "x") (b "1") 5; OpPut (b "y") (b "2") 6;
              OpDelete (b "x") 7; OpPut (b "x") (b "3") 8;
              OpDelete (b "y") 9] in
  exists w0 d0 w d',
    NewWriteSequence "/p/scores" "" 1 ∅ = Ret (Ok w0, d0) /\
    run_Ops ops (Some w0) d0 = Ret (Some w, d') /\
    forall key, length key <> 0%nat ->
      Get (Some w) d' key
      = Ret (Get_result (store_Ops ops ∅ !! String.string_of_list_byte key)).
Proof.
  apply (Get_returns_value_of_last_Put "/p/scores").
  - reflexivity.
  - repeat constructor; vm_compute; reflexivity.
  - vm_compute. congruence.
Defined.

Lemma Get_after_Close_and_reopen_returns_value_of_last_Put_witness :
  let b := String.list_byte_of_string in
  let ops := [OpPut (b "x") (b "1") 5; OpPut (b "y") (b "2") 6;
              OpDelete (b "x") 7; OpPut (b "x") (b "3") 8;
              OpDelete (b "y") 9] in
  exists w0 d0 w d' wc w',
    NewWriteSequence "/p/scores" "" 1 ∅ = Ret (Ok w0, d0) /\
    run_Ops ops (Some w0) d0 = Ret (Some w, d') /\
    Close (Some w) = Ret (None, Some wc) /\
    NewWriteSequence "/p/scores" "" 10 d' = Ret (Ok w', d') /\
    forall key, length key <> 0%nat ->
      Get (Some w') d' key
      = Ret (Get_result (store_Ops ops ∅ !! String.string_of_list_byte key)).
Proof.
  apply (Get_after_Close_and_reopen_returns_value_of_last_Put "/p/scores").
  - reflexivity.
  - repeat constructor; vm_compute; reflexivity.
  - vm_compute. congruence.
Defined.

Lemma operations_after_Close_return_ErrClosed_witness :
  let b := String.list_byte_of_string in
  let ops := [OpPut (b "x") (b "1") 5; OpPut (b "y") (b "2") 6;
              OpDelete (b "x") 7] in
  exists w0 d0 w d' wc,
    NewWriteSequence "/p/scores" "" 1 ∅ = Ret (Ok w0, d0) /\
    run_Ops ops (Some w0) d0 = Ret (Some w, d') /\
    Close (Some w) = Ret (None, Some wc) /\
    Close (Some wc) = Ret (Some os_ErrClosed, Some wc) /\
    (forall key value t,
       Z.of_nat (length key) + Z.of_nat (length value) + HeaderSize < 2 ^ 32 ->
       Put (Some wc) d' key value t = Ret (Some os_ErrClosed, Some wc, d')) /\
    (forall key t,
       length key <> 0%nat ->
       is_Some (store_Ops ops ∅ !! String.string_of_list_byte key) ->
       Get (Some wc) d' key = Ret (Err os_ErrClosed) /\
       Delete (Some wc) d' key t = Ret (Some os_ErrClosed, Some wc, d')).
Proof.
  apply (operations_after_Close_return_ErrClosed "/p/scores").
  - reflexivity.
  - repeat constructor; vm_compute; reflexivity.
  - vm_compute. congruence.
Defined.

Lemma Put_of_empty_key_cannot_be_read_or_deleted_witness :
  let b := String.list_byte_of_string in
  let ops := [OpPut (b "x") (b "1") 5] in
  exists w0 d0 w d1 w' d' keys,
    NewWriteSequence "/p/scores" "" 1 ∅ = Ret (Ok w0, d0) /\
    run_Ops ops (Some w0) d0 = Ret (Some w, d1) /\
    Put (Some w) d1 [] (b "lost") 6 = Ret (None, Some w', d') /\
    d' <> d1 /\
    GetAllIndexKeys (Some w') = Ret keys /\ String.EmptyString ∈ keys /\
    Get (Some w') d' [] = Ret (Err (errors_New "key is nil")) /\
    forall t',
      Delete (Some w') d' [] t'
      = Ret (Some (errors_New "key is nil"), Some w', d').
Proof.
  apply (Put_of_empty_key_cannot_be_read_or_deleted "/p/scores").
  - reflexivity.
  - repeat constructor; vm_compute; reflexivity.
  - vm_compute. reflexivity.
  - vm_compute. congruence.
Defined.

(** * A log with a record that was cut short *)

Lemma app_prefix_split {A} (a b c d : list A) :
  a ++ b = c ++ d -> (length a <= length c)%nat ->
  exists c', c = a ++ c' /\ b = c' ++ d.
Proof.
  intros Heq Hlen.
  destruct (app_eq_app _ _ _ _ Heq) as [l [[H1 H2]|[H1 H2]]].
  - assert (l = []) as ->.
    { apply (f_equal length) in H1. rewrite length_app in H1.
      destruct l; [done|]. cbn in H1. lia. }
    rewrite app_nil_r in H1. cbn in H2. subst. exists []. by rewrite app_nil_r.
  - by exists l.
Qed.

Lemma ReadAt_short f d (content : list byte) n off :
  closed f = false -> d !! Name f = Some content ->
  0 <= off -> 0 < n -> Z.of_nat (length content) < off + n ->
  File_ReadAt f d n off = Err io_EOF.
Proof.
  intros Hc Hd Hoff Hn Hshort. unfold File_ReadAt. rewrite Hc, Hd.
  rewrite !decide_False by lia. done.
Qed.

(** A record of which only a part is in the file reads as [io.EOF]. *)
Lemma Read_torn f d (pre tail rest : list byte) e :
  closed (File f) = false ->
  d !! Name (File f) = Some (pre ++ tail) ->
  entry_wf e -> record_bytes e = tail ++ rest -> rest <> [] ->
  Z.of_nat (length pre) + Size e <= MaxInt64 ->
  Read f d (Z.of_nat (length pre)) = Err io_EOF.
Proof.
  intros Hc Hd Hwf Hrec Hrest Hmax.
  pose proof (Size_wf_bounds e Hwf) as Hsz.
  pose proof (Size_wf e Hwf) as Hlen.
  assert (Hrestlen : (0 < length rest)%nat) by (destruct rest; [done|cbn; lia]).
  rewrite Hrec, length_app in Hlen.
  destruct Hwf as (Hr & HKl & HVl & Hfit).
  pose proof Hr as (HK & HV & _).
  unfold Read, HeaderSize, MaxInt64 in *.
  destruct (decide (length tail < 20)%nat) as [Hshort|Hlong].
  { rewrite (ReadAt_short _ d (pre ++ tail)); try done; try lia.
    rewrite length_app. lia. }
  unfold record_bytes in Hrec.
  destruct (app_prefix_split _ _ _ _ Hrec) as (tail' & -> & Hkv).
  { rewrite length_header_bytes. lia. }
  rewrite length_app, length_header_bytes in Hlen.
  (* header *)
  pose proof (ReadAt_middle (File f) d pre (header_bytes e) tail' Hc) as H1.
  rewrite length_header_bytes in H1. change (Z.of_nat 20) with 20 in H1.
  rewrite H1 by done. clear H1.
  rewrite <- (app_nil_r (header_bytes e)), Decode_header_in_range by done.
  cbn [KeySize ValueSize].
  rewrite int64_small by lia.
  destruct (decide (length tail' < length (Key e))%nat) as [Hkshort|Hklong].
  { rewrite (ReadAt_short _ d (pre ++ header_bytes e ++ tail'));
      try done; try lia.
    rewrite !length_app, length_header_bytes. lia. }
  destruct (app_prefix_split _ _ _ _ Hkv) as (tail'' & -> & Hv); [lia|].
  rewrite length_app in Hlen.
  (* key *)
  pose proof (ReadAt_middle (File f) d (pre ++ header_bytes e) (Key e)
                tail'' Hc) as H2.
  rewrite length_app, length_header_bytes, Nat2Z.inj_add, <- HKl in H2.
  change (Z.of_nat 20) with 20 in H2.
  rewrite H2 by (by rewrite Hd, <- !(assoc_L (++))). clear H2.
  (* value *)
  rewrite (uint32_small (20 + _)) by lia.
  rewrite (int64_small (20 + _)) by lia.
  rewrite int64_small by lia.
  apply (f_equal length) in Hv. rewrite length_app in Hv.
  rewrite (ReadAt_short _ d (pre ++ header_bytes e ++ Key e ++ tail''));
    try done; try lia.
  rewrite !length_app, length_header_bytes. lia.
Qed.

(** The loop of [loadIndex] over the records [rs], when more bytes
    follow them in the file. *)
Lemma loadIndex_loop_records f d (post : list byte) rs :
  Forall entry_wf rs -> forall (pre : list byte) idx fuel,
  closed (File f) = false ->
  d !! Name (File f) = Some (pre ++ log_bytes rs ++ post) ->
  offset f = Z.of_nat (length (pre ++ log_bytes rs ++ post)) ->
  post <> [] ->
  Z.of_nat (length (pre ++ log_bytes rs)) <= MaxInt64 ->
  loadIndex_loop (length rs + fuel) f d idx (Z.of_nat (length pre))
  = loadIndex_loop fuel f d (replay_log rs (Z.of_nat (length pre)) idx)
      (Z.of_nat (length (pre ++ log_bytes rs))).
Proof.
  intros Hwf.
  induction Hwf as [|e rs He Hrs IH]; intros pre idx fuel Hc Hd Hoff Hpost Hmax.
  - cbn [log_bytes length replay_log]. by rewrite app_nil_r.
  - cbn [log_bytes length] in Hd, Hoff, Hmax |- *.
    pose proof (Size_wf_bounds e He) as Hsz.
    pose proof (length_record_bytes e He) as Hlen.
    rewrite !length_app in Hoff. rewrite !length_app in Hmax.
    cbn [Nat.add loadIndex_loop replay_log].
    unfold IsOffsetEqual. rewrite bool_decide_eq_false_2 by lia.
    rewrite (Read_record f d pre (log_bytes rs ++ post) e);
      [|done|by rewrite Hd, <- !(assoc_L (++))|done|lia].
    unfold MaxInt64 in *.
    rewrite (int64_small (Size e)) by lia.
    rewrite int64_small by lia.
    replace (Z.of_nat (length pre) + Size e)
      with (Z.of_nat (length (pre ++ record_bytes e)))
      by (rewrite length_app; lia).
    rewrite IH; [|done| | |done|].
    + by rewrite <- !(assoc_L (++)).
    + by rewrite Hd, <- !(assoc_L (++)).
    + rewrite Hoff, !length_app. lia.
    + rewrite !length_app. lia.
Qed.

(** [Get] on a write sequence whose index is the replay of the records
    [rs] at the head of its file. *)
Lemma Get_replayed w d f rs (post : list byte) key :
  databaseFile w = Some f -> closed (File f) = false ->
  d !! Name (File f) = Some (log_bytes rs ++ post) ->
  Forall entry_wf rs -> Z.of_nat (length (log_bytes rs)) <= MaxInt64 ->
  index w = replay_log rs 0 ∅ ->
  length key <> 0%nat ->
  Get (Some w) d key
  = Ret (Get_result (replay_values rs ∅ !! String.string_of_list_byte key)).
Proof.
  intros Hf Hc Hd Hwf Hmax Hidx Hkey.
  unfold Get. rewrite decide_False by done. cbn [deref]. rewrite bind_Ret.
  unfold IsKeyExist. rewrite Hidx.
  pose proof (replay_log_values rs Hwf (String.string_of_list_byte key)) as Hrv.
  destruct (replay_log rs 0 ∅ !! String.string_of_list_byte key) as [off|];
    cbn [negb]; [|by rewrite Hrv].
  destruct Hrv as (rs1 & e & rs2 & -> & -> & ->).
  rewrite Hf. cbn [deref]. rewrite bind_Ret.
  apply Forall_app in Hwf as [_ Hwf]. apply Forall_cons in Hwf as [He _].
  rewrite (Read_record _ d (log_bytes rs1) (log_bytes rs2 ++ post) e);
    [done|done| |done|].
  - rewrite Hd, log_bytes_app. cbn [log_bytes]. by rewrite <- !(assoc_L (++)).
  - rewrite log_bytes_app in Hmax. cbn [log_bytes] in Hmax.
    rewrite !length_app in Hmax.
    pose proof (length_record_bytes e He). lia.
Qed.

(** A data file that ends in the middle of a record, as a write that was
    interrupted leaves it, opens without an error: the index holds the
    records ahead of the cut, every [Get] answers from them, and the
    offset for the next write is the end of the file, behind the part of
    a record that is there. *)
Theorem NewWriteSequence_ignores_record_cut_short
    dir now d rs e (tail rest : list byte) :
  d !! path_Join dir DataFileName = Some (log_bytes rs ++ tail) ->
  Forall entry_wf rs -> entry_wf e ->
  record_bytes e = tail ++ rest -> tail <> [] -> rest <> [] ->
  Z.of_nat (length (log_bytes rs)) + Size e <= MaxInt64 ->
  exists w f,
    NewWriteSequence dir "" now d = Ret (Ok w, d) /\
    index w = replay_log rs 0 ∅ /\
    databaseFile w = Some f /\
    offset f = Z.of_nat (length (log_bytes rs ++ tail)) /\
    forall key, length key <> 0%nat ->
      Get (Some w) d key
      = Ret (Get_result (replay_values rs ∅ !! String.string_of_list_byte key)).
Proof.
  intros Hd Hwf He Hrec Htail Hrest Hmax.
  pose proof (Size_wf_bounds e He) as Hsz.
  assert (Hlog : Z.of_nat (length (log_bytes rs)) <= MaxInt64) by lia.
  set (f := {| File := mkFile (path_Join dir DataFileName) false;
               offset := Z.of_nat (length (log_bytes rs ++ tail)) |}).
  assert (Hloop :
    loadIndex_loop (loadIndex_fuel f d) f d ∅ 0
    = Ret (None, replay_log rs 0 ∅)).
  { assert (exists fuel,
              loadIndex_fuel f d = (length rs + S fuel)%nat) as [fuel ->].
    { unfold loadIndex_fuel. cbn [f File Name]. rewrite Hd.
      cbn [default from_option]. unfold id. rewrite length_app. pose proof (length_log_bytes_ge rs Hwf).
      exists (S (length (log_bytes rs) + length tail - length rs)). lia. }
    pose proof (loadIndex_loop_records f d tail rs Hwf [] ∅ (S fuel)) as Hrec'.
    cbn [app length] in Hrec'. change (Z.of_nat 0) with 0 in Hrec'.
    rewrite Hrec' by done. clear Hrec'.
    cbn [loadIndex_loop]. unfold IsOffsetEqual.
    rewrite bool_decide_eq_false_2.
    2:{ cbn [f offset]. rewrite length_app.
        destruct tail; [done|]. cbn [length]. lia. }
    by rewrite (Read_torn f d (log_bytes rs) tail rest e). }
  exists {| index := replay_log rs 0 ∅; dataPath := dir;
            databaseFile := Some f |}, f.
  split_and!; try done.
  - unfold NewWriteSequence.
    rewrite decide_False by (simpl; lia).
    unfold NewDataFile. rewrite decide_True by done.
    unfold new, os_OpenFile.
    rewrite decide_False by (unfold path_Join; by destruct dir).
    rewrite Hd. unfold os_Stat. rewrite Hd.
    unfold loadIndex. cbn [databaseFile index]. fold f.
    by rewrite Hloop, bind_Ret.
  - intros key Hkey. by apply (Get_replayed _ d f rs tail).
Qed.

Lemma NewWriteSequence_ignores_record_cut_short_witness :
  let b := String.list_byte_of_string in
  let rs := [NewEntry (b "x") (b "1") PUT 5; NewEntry (b "y") (b "2") PUT 6] in
  let e := NewEntry (b "x") (b "333") PUT 7 in
  let tail := take 21 (record_bytes e) in
  let d : gmap string (list byte) :=
    {[ "/p/scores/append.data" := log_bytes rs ++ tail ]} in
  exists w f,
    NewWriteSequence "/p/scores" "" 9 d = Ret (Ok w, d) /\
    index w = replay_log rs 0 ∅ /\
    databaseFile w = Some f /\
    offset f = Z.of_nat (length (log_bytes rs ++ tail)) /\
    forall key, length key <> 0%nat ->
      Get (Some w) d key
      = Ret (Get_result (replay_values rs ∅ !! String.string_of_list_byte key)).
Proof.
  intros b rs e tail d.
  apply (NewWriteSequence_ignores_record_cut_short "/p/scores" 9 d rs e tail
           (drop 21 (record_bytes e))).
  - reflexivity.
  - repeat constructor; vm_compute; (reflexivity || congruence).
  - repeat constructor; vm_compute; (reflexivity || congruence).
  - symmetry. apply take_drop.
  - discriminate.
  - discriminate.
  - vm_compute. congruence.
Defined.

(** * Backup and restore *)

(** A key of the index is the key of a record of the log. *)
Lemma replay_log_record rs : Forall entry_wf rs ->
  forall key off, replay_log rs 0 ∅ !! key = Some off ->
    exists e, e ∈ rs /\ String.string_of_list_byte (Key e) = key.
Proof.
  induction rs as [|e rs IH] using rev_ind; intros Hwf key off.
  - cbn. by rewrite lookup_empty.
  - apply Forall_app in Hwf as [Hwf He].
    rewrite replay_log_snoc by done. cbv zeta. case_decide.
    + intros [Hne Hk]%lookup_delete_Some.
      destruct (IH Hwf key off Hk) as (e' & Hin & Hkey).
      exists e'. split; [|done]. apply elem_of_app. by left.
    + intros [[Hkey _]|[Hne Hk]]%lookup_insert_Some.
      * exists e. split; [|done]. apply elem_of_app. right. by left.
      * destruct (IH Hwf key off Hk) as (e' & Hin & Hkey).
        exists e'. split; [|done]. apply elem_of_app. by left.
Qed.

(** A data file that holds the records [rs] and is opened anew. *)
Lemma open_log_state dir rs d :
  d !! path_Join dir DataFileName = Some (log_bytes rs) ->
  Forall entry_wf rs -> Z.of_nat (length (log_bytes rs)) <= MaxInt64 ->
  log_state dir rs
    {| index := replay_log rs 0 ∅; dataPath := dir;
       databaseFile :=
         Some {| File := mkFile (path_Join dir DataFileName) false;
                 offset := Z.of_nat (length (log_bytes rs)) |} |} d.
Proof.
  intros Hd Hwf Hmax. unfold log_state. cbn [index dataPath databaseFile].
  split_and!; try done.
  intros key off Hk.
  destruct (replay_log_record rs Hwf key off Hk) as (e & Hin & <-).
  rewrite String.list_byte_of_string_of_list_byte.
  rewrite Forall_forall in Hwf. destruct (Hwf e Hin) as (Hr & HKl & HVl & Hfit).
  destruct Hr as (_ & HV & _). lia.
Qed.

(** [Backup] copies the log over the first bytes of the backup file: a
    file that is new holds the log and nothing else, a file that was
    there keeps what it had beyond the length of the log. *)
Lemma Backup_log_state dir rs w d name now :
  log_state dir rs w d -> name <> String.EmptyString ->
  name <> path_Join dir DataFileName ->
  Backup (Some w) d name now
  = Ret (None,
         <[name := log_bytes rs
                   ++ drop (length (log_bytes rs)) (default [] (d !! name))]> d).
Proof.
  intros (Hdir & Hf & Hd & _) Hname Hne.
  unfold Backup. cbn [deref]. rewrite bind_Ret.
  rewrite decide_False by (by destruct name).
  unfold os_OpenFile. rewrite decide_False by done.
  destruct (d !! name) as [old|] eqn:Hold.
  - rewrite Hf. cbn [deref]. rewrite bind_Ret.
    unfold io_Copy. cbn [File Name closed]. by rewrite Hd, Hold.
  - rewrite Hf. cbn [deref]. rewrite bind_Ret.
    unfold io_Copy. cbn [File Name closed].
    rewrite lookup_insert_ne by done. rewrite Hd, lookup_insert_eq.
    by rewrite insert_insert_eq.
Qed.

(** [NewWriteSequence] with a backup file, in a directory that has no
    data file yet: the data file becomes a copy of the backup file, and
    the index is read from it. *)
Lemma NewWriteSequence_from_backup dir name now rs d :
  name <> String.EmptyString ->
  d !! name = Some (log_bytes rs) ->
  d !! path_Join dir DataFileName = None ->
  Forall entry_wf rs -> Z.of_nat (length (log_bytes rs)) <= MaxInt64 ->
  exists w,
    NewWriteSequence dir name now d
    = Ret (Ok w, <[path_Join dir DataFileName := log_bytes rs]> d) /\
    log_state dir rs w (<[path_Join dir DataFileName := log_bytes rs]> d).
Proof.
  intros Hnonempty Hname Hd Hwf Hmax.
  assert (Hne : path_Join dir DataFileName <> name) by congruence.
  assert (Hname0 : String.length name <> 0%nat) by (by destruct name).
  set (data := path_Join dir DataFileName) in *.
  set (d' := <[data := log_bytes rs]> d).
  pose proof (open_log_state dir rs d') as Hst.
  eexists. split; [|apply Hst; try done; by apply lookup_insert_eq].
  unfold NewWriteSequence. fold data.
  rewrite decide_True by done. rewrite decide_True by done.
  unfold os_Open. rewrite Hname. unfold os_Stat at 1. rewrite Hd.
  unfold os_OpenFile at 1.
  rewrite decide_False by (unfold data, path_Join; by destruct dir).
  rewrite Hd. unfold io_Copy. cbn [Name closed].
  rewrite lookup_insert_ne by done. rewrite Hname, lookup_insert_eq.
  rewrite insert_insert_eq. cbn [length drop]. rewrite drop_nil, app_nil_r.
  fold d'.
  unfold NewDataFile. rewrite decide_True by done. fold data.
  unfold new, os_OpenFile.
  rewrite decide_False by (unfold data, path_Join; by destruct dir).
  unfold d' at 1. rewrite lookup_insert_eq. fold d'.
  unfold os_Stat. unfold d' at 1. rewrite lookup_insert_eq. fold d'.
  unfold loadIndex. cbn [databaseFile index].
  pose proof (loadIndex_loop_replay
    {| File := mkFile data false;
       offset := Z.of_nat (length (log_bytes rs)) |} d' [] rs ∅
    (loadIndex_fuel
       {| File := mkFile data false;
          offset := Z.of_nat (length (log_bytes rs)) |} d')) as Hloop.
  cbn [app length] in Hloop. change (Z.of_nat 0) with 0 in Hloop.
  rewrite Hloop; [| done | by apply lookup_insert_eq | done | done | done |].
  - by rewrite bind_Ret.
  - unfold loadIndex_fuel. cbn [File Name]. unfold d'.
    rewrite lookup_insert_eq. simpl.
    pose proof (length_log_bytes_ge rs Hwf). lia.
Qed.
